(** * A segregated-fit allocator (mm.c): shallow embedding and properties

    The allocator of [mm.c] keeps fifteen size-classed circular doubly linked
    free lists inside the memory it manages and stores a boundary tag (a
    header and a footer word) around every block.  This development embeds
    the C functions as state-passing Rocq functions over a flat memory
    and proves properties of them.

    Platform: LP64.  [sizeof(void * )] is 8, so a word ([WSIZE]) is 8 bytes,
    [size_t] and [uintptr_t] are 64 bits wide and [unsigned int] is 32 bits
    wide.  Arithmetic on these types wraps around. *)

From Stdlib Require Import ZArith List Bool Lia.
Import ListNotations.
Open Scope Z_scope.

(** ** Machine integers *)

(** [size_t] / [uintptr_t] / pointer arithmetic is taken modulo 2^64. *)
Definition wrap (x : Z) : Z := x mod 2 ^ 64.

(** Conversion of a [size_t] to [unsigned int] (argument of
    [find_list_head]). *)
Definition to_uint (x : Z) : Z := x mod 2 ^ 32.

Definition NULL : Z := 0.

(** ** Basic constants and macros *)

Definition WSIZE : Z := 8.
Definition DSIZE : Z := 2 * WSIZE.
Definition ALIGN_SIZE : Z := 8.
Definition CHUNKSIZE : Z := Z.shiftl 1 12.

Definition MAX (x y : Z) : Z := if x >? y then x else y.

Definition PACK (size alloc : Z) : Z := Z.lor size alloc.

(** [sizeof(struct seg_list)]: two pointers, [next] at offset 0 and [prev]
    at offset [WSIZE]. *)
Definition SEG_SIZE : Z := 2 * WSIZE.
Definition next_of (p : Z) : Z := p.
Definition prev_of (p : Z) : Z := wrap (p + WSIZE).

(** ** Memory and allocator state *)

(** The memory maps an address to the word ([uintptr_t]) stored at it.  The
    allocator reads and writes whole words only, and on a well-formed heap
    all of them at multiples of [WSIZE], where words do not overlap.  A
    word at any other address is kept as a word of its own. *)
Definition memory := Z -> Z.

Definition upd (m : memory) (a v : Z) : memory :=
  fun a' => if a' =? a then v else m a'.

(** The three [mem_*] fields belong to the region provider ([memlib]); the
    others are the globals of [mm.c]. *)
Record state : Type := mkState {
  mem : memory;
  mem_start_brk : Z;
  mem_brk : Z;
  mem_max_addr : Z;
  heap_listp : Z;
  free_listp : Z;
  MAX_SIZE : Z
}.

Definition set_mem (st : state) (m : memory) : state :=
  mkState m (mem_start_brk st) (mem_brk st) (mem_max_addr st)
          (heap_listp st) (free_listp st) (MAX_SIZE st).

Definition set_brk (st : state) (b : Z) : state :=
  mkState (mem st) (mem_start_brk st) b (mem_max_addr st)
          (heap_listp st) (free_listp st) (MAX_SIZE st).

Definition set_heap_listp (st : state) (p : Z) : state :=
  mkState (mem st) (mem_start_brk st) (mem_brk st) (mem_max_addr st)
          p (free_listp st) (MAX_SIZE st).

Definition set_free_listp (st : state) (p : Z) : state :=
  mkState (mem st) (mem_start_brk st) (mem_brk st) (mem_max_addr st)
          (heap_listp st) p (MAX_SIZE st).

Definition set_MAX_SIZE (st : state) (n : Z) : state :=
  mkState (mem st) (mem_start_brk st) (mem_brk st) (mem_max_addr st)
          (heap_listp st) (free_listp st) n.

(** ** Results

    A C function either returns, or performs an access that is undefined
    behaviour ([Fault]: a word access outside the arena obtained by the
    region provider), or a loop of it is cut off by the fuel of the
    embedding ([OutOfFuel]). *)

Inductive res (A : Type) : Type :=
| Ok (a : A)
| Fault
| OutOfFuel.
Arguments Ok {A} a.
Arguments Fault {A}.
Arguments OutOfFuel {A}.

Definition M (A : Type) : Type := state -> res (A * state).

Definition ret {A} (a : A) : M A := fun st => Ok (a, st).

Definition bind {A B} (c : M A) (k : A -> M B) : M B :=
  fun st =>
    match c st with
    | Ok (a, st') => k a st'
    | Fault => Fault
    | OutOfFuel => OutOfFuel
    end.

Notation "x <- c ;; k" := (bind c (fun x => k))
  (at level 61, c at next level, right associativity).
Notation "c ;;; k" := (bind c (fun _ => k))
  (at level 61, right associativity).

Definition get_state : M state := fun st => Ok (st, st).
Definition put_state (st' : state) : M unit := fun _ => Ok (tt, st').

(** A word access at [p] is defined when the word lies inside the arena.
    The code tests neither this nor the alignment of [p]. *)
Definition valid_addr (st : state) (p : Z) : bool :=
  (mem_start_brk st <=? p) && (p + WSIZE <=? mem_max_addr st).

Definition GET (p : Z) : M Z :=
  fun st => if valid_addr st p then Ok (mem st p, st) else Fault.

Definition PUT (p val : Z) : M unit :=
  fun st => if valid_addr st p
            then Ok (tt, set_mem st (upd (mem st) p val)) else Fault.

Definition GET_SIZE (p : Z) : M Z :=
  w <- GET p ;; ret (Z.land w (Z.lnot (ALIGN_SIZE - 1))).

Definition GET_ALLOC (p : Z) : M Z :=
  w <- GET p ;; ret (Z.land w 1).

Definition HDRP (bp : Z) : Z := wrap (bp - WSIZE).

Definition FTRP (bp : Z) : M Z :=
  s <- GET_SIZE (HDRP bp) ;; ret (wrap (wrap (bp + s) - DSIZE)).

Definition NEXT_BLKP (bp : Z) : M Z :=
  s <- GET_SIZE (wrap (bp - WSIZE)) ;; ret (wrap (bp + s)).

Definition PREV_BLKP (bp : Z) : M Z :=
  s <- GET_SIZE (wrap (bp - DSIZE)) ;; ret (wrap (bp - s)).

(** C truth value of an integer. *)
Definition truthy (x : Z) : bool := negb (x =? 0).

(** ** The region provider *)

(** Modelled from the spec: the region provider [mem_sbrk] of [memlib],
    whose source is not part of [mm.c].  It extends the heap by exactly
    [incr] bytes and returns the previous end of the heap; when the arena
    cannot hold the extension it returns the failure sentinel [(void * )-1]
    and changes nothing.  The heap never shrinks. *)
Definition mem_sbrk (incr : Z) : M Z :=
  fun st =>
    if (0 <=? incr) && (mem_brk st + incr <=? mem_max_addr st)
    then Ok (mem_brk st, set_brk st (mem_brk st + incr))
    else Ok (wrap (-1), st).

(** ** Free-list primitives *)

Definition init_head (dummy : Z) : M unit :=
  PUT (next_of dummy) dummy ;;;
  PUT (prev_of dummy) dummy.

Definition remove_circular (block : Z) : M unit :=
  (* block->prev->next = block->next; *)
  p <- GET (prev_of block) ;;
  n <- GET (next_of block) ;;
  PUT (next_of p) n ;;;
  (* block->next->prev = block->prev; *)
  n <- GET (next_of block) ;;
  p <- GET (prev_of block) ;;
  PUT (prev_of n) p ;;;
  PUT (next_of block) NULL ;;;
  PUT (prev_of block) NULL.

Definition insert_circular (block dummy : Z) : M unit :=
  p <- GET (prev_of dummy) ;;
  PUT (prev_of block) p ;;;
  PUT (next_of block) dummy ;;;
  p <- GET (prev_of dummy) ;;
  PUT (next_of p) block ;;;
  PUT (prev_of dummy) block.

Definition find_list_head (size : Z) : Z :=
  if size <? 2 then 0 else
  if size <? 4 then 1 else
  if size <? 8 then 2 else
  if size <? 16 then 3 else
  if size <? 32 then 4 else
  if size <? 64 then 5 else
  if size <? 128 then 6 else
  if size <? 256 then 7 else
  if size <? 512 then 8 else
  if size <? 1024 then 9 else
  if size <? 2048 then 10 else
  if size <? 4096 then 11 else
  if size <? 8192 then 12 else
  if size <? 16384 then 13 else
  14.

(** [&free_listp[i]] *)
Definition bucket (st : state) (i : Z) : Z :=
  wrap (free_listp st + SEG_SIZE * i).

Definition bucket_of_size (size : Z) : M Z :=
  st <- get_state ;; ret (bucket st (find_list_head (to_uint size))).

(** ** Internal helper routines *)

Definition coalesce (bp : Z) : M Z :=
  size <- GET_SIZE (HDRP bp) ;;
  pb <- PREV_BLKP bp ;;
  pf <- FTRP pb ;;
  prev_alloc <- GET_ALLOC pf ;;
  nb <- NEXT_BLKP bp ;;
  next_alloc <- GET_ALLOC (HDRP nb) ;;
  r <-
    (if truthy prev_alloc && truthy next_alloc then
       (* Case 1 *)
       ret (size, bp)
     else if truthy prev_alloc && negb (truthy next_alloc) then
       (* Case 2 *)
       to_delete2 <- NEXT_BLKP bp ;;
       remove_circular to_delete2 ;;;
       nb <- NEXT_BLKP bp ;;
       ns <- GET_SIZE (HDRP nb) ;;
       let size := wrap (size + ns) in
       PUT (HDRP bp) (PACK size 0) ;;;
       f <- FTRP bp ;;
       PUT f (PACK size 0) ;;;
       ret (size, bp)
     else if negb (truthy prev_alloc) && truthy next_alloc then
       (* Case 3 *)
       to_delete3 <- PREV_BLKP bp ;;
       remove_circular to_delete3 ;;;
       pb <- PREV_BLKP bp ;;
       ps <- GET_SIZE (HDRP pb) ;;
       let size := wrap (size + ps) in
       f <- FTRP bp ;;
       PUT f (PACK size 0) ;;;
       pb <- PREV_BLKP bp ;;
       PUT (HDRP pb) (PACK size 0) ;;;
       bp <- PREV_BLKP bp ;;
       ret (size, bp)
     else
       (* Case 4 *)
       prev_delete <- PREV_BLKP bp ;;
       remove_circular prev_delete ;;;
       next_delete <- NEXT_BLKP bp ;;
       remove_circular next_delete ;;;
       pb <- PREV_BLKP bp ;;
       ps <- GET_SIZE (HDRP pb) ;;
       nb <- NEXT_BLKP bp ;;
       nf <- FTRP nb ;;
       ns <- GET_SIZE nf ;;
       let size := wrap (size + wrap (ps + ns)) in
       pb <- PREV_BLKP bp ;;
       PUT (HDRP pb) (PACK size 0) ;;;
       nb <- NEXT_BLKP bp ;;
       nf <- FTRP nb ;;
       PUT nf (PACK size 0) ;;;
       bp <- PREV_BLKP bp ;;
       ret (size, bp)) ;;
  let '(size, bp) := r in
  dummy <- bucket_of_size size ;;
  insert_circular bp dummy ;;;
  ret bp.

Definition extend_heap (words : Z) : M Z :=
  let size := if words mod 2 =? 0 then wrap (words * WSIZE)
              else wrap (wrap (words + 1) * WSIZE) in
  bp <- mem_sbrk size ;;
  if bp =? wrap (-1) then ret NULL
  else
    PUT (HDRP bp) (PACK size 0) ;;;
    f <- FTRP bp ;;
    PUT f (PACK size 0) ;;;
    nb <- NEXT_BLKP bp ;;
    PUT (HDRP nb) (PACK 0 1) ;;;
    coalesce bp.

(** The inner [while] loop of [find_fit]: walk the list of [dummy] from
    [bp]; [None] when the walk comes back to [dummy]. *)
Fixpoint scan_list (fuel : nat) (asize dummy bp : Z) : M (option Z) :=
  match fuel with
  | O => fun _ => OutOfFuel
  | S fuel' =>
      if bp =? dummy then ret None
      else
        s <- GET_SIZE (HDRP bp) ;;
        if asize <=? s then ret (Some bp)
        else
          n <- GET (next_of bp) ;;
          scan_list fuel' asize dummy n
  end.

(** The [for] loop of [find_fit] over [idx], with [n] iterations left. *)
Fixpoint scan_buckets (fuel n : nat) (asize idx : Z) : M Z :=
  match n with
  | O => ret NULL
  | S n' =>
      st <- get_state ;;
      bp <- GET (next_of (bucket st idx)) ;;
      r <- scan_list fuel asize (bucket st idx) bp ;;
      match r with
      | Some b => ret b
      | None => scan_buckets fuel n' asize (idx + 1)
      end
  end.

(** The bucket at which [find_fit] starts for a class [head]. *)
Definition first_bucket (max_size head : Z) : Z :=
  if head + 1 =? max_size then head else head + 1.

Definition find_fit (fuel : nat) (asize : Z) : M Z :=
  st <- get_state ;;
  let head := find_list_head (to_uint asize) in
  (* Optimization *)
  let head := first_bucket (MAX_SIZE st) head in
  scan_buckets fuel (Z.to_nat (MAX_SIZE st - head)) asize head.

Definition place (bp asize : Z) : M unit :=
  csize <- GET_SIZE (HDRP bp) ;;
  remove_circular bp ;;;
  if 2 * DSIZE <=? wrap (csize - asize) then
    (* Case 1 : Split block *)
    PUT (HDRP bp) (PACK asize 1) ;;;
    f <- FTRP bp ;;
    PUT f (PACK asize 1) ;;;
    bp <- NEXT_BLKP bp ;;
    PUT (HDRP bp) (PACK (wrap (csize - asize)) 0) ;;;
    f <- FTRP bp ;;
    PUT f (PACK (wrap (csize - asize)) 0) ;;;
    dummy <- bucket_of_size (wrap (csize - asize)) ;;
    insert_circular bp dummy
  else
    (* Case 2 : Do not split *)
    PUT (HDRP bp) (PACK csize 1) ;;;
    f <- FTRP bp ;;
    PUT f (PACK csize 1).

(** ** The allocator interface *)

Fixpoint init_heads (n : nat) (i : Z) : M unit :=
  match n with
  | O => ret tt
  | S n' =>
      st <- get_state ;;
      init_head (bucket st i) ;;;
      init_heads n' (i + 1)
  end.

Definition mm_init : M Z :=
  st <- get_state ;;
  put_state (set_MAX_SIZE st 15) ;;;
  let seg_size := SEG_SIZE in
  st <- get_state ;;
  p <- mem_sbrk (wrap (MAX_SIZE st * seg_size)) ;;
  st <- get_state ;;
  put_state (set_free_listp st p) ;;;
  if p =? wrap (-1) then ret (-1)
  else
    h <- mem_sbrk (3 * WSIZE) ;;
    st <- get_state ;;
    put_state (set_heap_listp st h) ;;;
    if h =? wrap (-1) then ret (-1)
    else
      init_heads (Z.to_nat (MAX_SIZE st)) 0 ;;;
      PUT h (PACK DSIZE 1) ;;;
      PUT (wrap (h + 1 * WSIZE)) (PACK DSIZE 1) ;;;
      PUT (wrap (h + 2 * WSIZE)) (PACK 0 1) ;;;
      st <- get_state ;;
      put_state (set_heap_listp st (wrap (h + WSIZE))) ;;;
      bp <- extend_heap (CHUNKSIZE / WSIZE) ;;
      if bp =? NULL then ret (-1) else ret 0.

(** The adjusted block size of a request ([asize] in [mm_malloc],
    [newsize] in [mm_realloc]). *)
Definition adjust (size : Z) : Z :=
  if size <=? DSIZE then DSIZE * 2
  else wrap (ALIGN_SIZE * (wrap (size + DSIZE + (ALIGN_SIZE - 1)) / ALIGN_SIZE)).

Definition mm_malloc (fuel : nat) (size : Z) : M Z :=
  if size =? 0 then ret NULL
  else
    let asize := adjust size in
    bp <- find_fit fuel asize ;;
    if negb (bp =? NULL) then
      place bp asize ;;;
      ret bp
    else
      let extendsize := MAX asize CHUNKSIZE in
      bp <- extend_heap (extendsize / WSIZE) ;;
      if bp =? NULL then ret NULL
      else
        place bp asize ;;;
        ret bp.

Definition mm_free (bp : Z) : M unit :=
  if bp =? NULL then ret tt
  else
    size <- GET_SIZE (HDRP bp) ;;
    PUT (HDRP bp) (PACK size 0) ;;;
    f <- FTRP bp ;;
    PUT f (PACK size 0) ;;;
    coalesce bp ;;;
    ret tt.

(** [memcpy] of [n] bytes, [n] a multiple of the word size, as a copy of
    [n / WSIZE] words in ascending order.  Copying between overlapping
    objects is undefined behaviour. *)
Fixpoint copy_words (k : nat) (dst src : Z) : M unit :=
  match k with
  | O => ret tt
  | S k' =>
      v <- GET src ;;
      PUT dst v ;;;
      copy_words k' (wrap (dst + WSIZE)) (wrap (src + WSIZE))
  end.

Definition memcpy (dst src n : Z) : M unit :=
  if (dst + n <=? src) || (src + n <=? dst)
  then copy_words (Z.to_nat (n / WSIZE)) dst src
  else fun _ => Fault.

Definition mm_realloc (fuel : nat) (ptr size : Z) : M Z :=
  let newsize := adjust size in
  oldsize <- GET_SIZE (HDRP ptr) ;;
  if size =? 0 then
    mm_free ptr ;;;
    ret NULL
  else if ptr =? NULL then
    mm_malloc fuel size
  else if newsize <? oldsize then
    ret ptr
  else
    newptr <- mm_malloc fuel (wrap (2 * size)) ;;
    if newptr =? NULL then ret NULL
    else
      memcpy newptr ptr oldsize ;;;
      mm_free ptr ;;;
      ret newptr.

(** ** The heap consistency checker

    The checker only reads memory and prints.  It is embedded as a function
    from the state to the sequence of its observable events: every word it
    reads and every diagnostic it prints. *)

Inductive diag : Type :=
| DHeap (p : Z)
| DBadPrologue
| DNotAligned (bp : Z)
| DHeaderFooterMismatch
| DInvalidPointer
| DBadEpilogue
| DAllocatedInFreeList (block : Z)
| DEndOfHeap (bp : Z)
| DBlock (bp hsize : Z) (halloc : bool) (fsize : Z) (falloc : bool).

Inductive event : Type :=
| EvRead (p : Z)
| EvPrint (d : diag).

Definition C (A : Type) : Type := state -> res (A * list event).

Definition cret {A} (a : A) : C A := fun _ => Ok (a, []).

Definition cbind {A B} (c : C A) (k : A -> C B) : C B :=
  fun st =>
    match c st with
    | Ok (a, t1) =>
        match k a st with
        | Ok (b, t2) => Ok (b, t1 ++ t2)
        | Fault => Fault
        | OutOfFuel => OutOfFuel
        end
    | Fault => Fault
    | OutOfFuel => OutOfFuel
    end.

Notation "x <~ c ;; k" := (cbind c (fun x => k))
  (at level 61, c at next level, right associativity).
Notation "c ;;~ k" := (cbind c (fun _ => k))
  (at level 61, right associativity).

Definition printf (d : diag) : C unit := fun _ => Ok (tt, [EvPrint d]).
Definition cwhen (b : bool) (c : C unit) : C unit := if b then c else cret tt.

Definition cGET (p : Z) : C Z :=
  fun st => if valid_addr st p then Ok (mem st p, [EvRead p]) else Fault.

Definition cGET_SIZE (p : Z) : C Z :=
  w <~ cGET p ;; cret (Z.land w (Z.lnot (ALIGN_SIZE - 1))).

Definition cGET_ALLOC (p : Z) : C Z :=
  w <~ cGET p ;; cret (Z.land w 1).

Definition cFTRP (bp : Z) : C Z :=
  s <~ cGET_SIZE (HDRP bp) ;; cret (wrap (wrap (bp + s) - DSIZE)).

Definition cNEXT_BLKP (bp : Z) : C Z :=
  s <~ cGET_SIZE (wrap (bp - WSIZE)) ;; cret (wrap (bp + s)).

Definition checkblock (bp : Z) : C unit :=
  cwhen (negb (bp mod ALIGN_SIZE =? 0)) (printf (DNotAligned bp)) ;;~
  h <~ cGET (HDRP bp) ;;
  fp <~ cFTRP bp ;;
  f <~ cGET fp ;;
  cwhen (negb (h =? f)) (printf DHeaderFooterMismatch).

(** The free-list validation loops of [checkheap].  [bp] is the cursor the
    heap walk has left behind. *)
Fixpoint check_list (fuel : nat) (bp dummy block : Z) : C unit :=
  match fuel with
  | O => fun _ => OutOfFuel
  | S fuel' =>
      if block =? dummy then cret tt
      else
        a <~ cGET_ALLOC bp ;;
        cwhen (truthy a) (printf (DAllocatedInFreeList block)) ;;~
        n <~ cGET (next_of block) ;;
        check_list fuel' bp dummy n
  end.

Fixpoint check_lists (fuel n : nat) (bp i : Z) : C unit :=
  match n with
  | O => cret tt
  | S n' =>
      fun st =>
        (block <~ cGET (next_of (bucket st i)) ;;
         check_list fuel bp (bucket st i) block ;;~
         check_lists fuel n' bp (i + 1)) st
  end.

(** The checks before and after the heap walk of [checkheap]. *)
Definition check_prologue (verbose : bool) : C unit :=
  fun st =>
    (cwhen verbose (printf (DHeap (heap_listp st))) ;;~
     s <~ cGET_SIZE (HDRP (heap_listp st)) ;;
     bad <~ (if negb (s =? DSIZE) then cret true
             else a <~ cGET_ALLOC (HDRP (heap_listp st)) ;;
                  cret (negb (truthy a))) ;;
     cwhen bad (printf DBadPrologue) ;;~
     checkblock (heap_listp st)) st.

Definition check_epilogue (bp : Z) : C unit :=
  s <~ cGET_SIZE (HDRP bp) ;;
  bad <~ (if negb (s =? 0) then cret true
          else a <~ cGET_ALLOC (HDRP bp) ;;
               cret (negb (truthy a))) ;;
  cwhen bad (printf DBadEpilogue).

Section Checker.

(** [printblock] and [checkheap] call each other; [printblock] is abstracted
    here and the knot is tied by [checkheap] below. *)
Variable printblock : Z -> C unit.

(** The walk over the block chain; returns the final cursor. *)
Fixpoint heap_walk (fuel : nat) (verbose : bool) (bp : Z) : C Z :=
  match fuel with
  | O => fun _ => OutOfFuel
  | S fuel' =>
      s <~ cGET_SIZE (HDRP bp) ;;
      if s >? 0 then
        cwhen verbose (printblock bp) ;;~
        checkblock bp ;;~
        a <~ cGET_ALLOC bp ;;
        fun st =>
          (hs <~ cGET_SIZE (heap_listp st) ;;
           cwhen (a >? hs) (printf DInvalidPointer) ;;~
           nb <~ cNEXT_BLKP bp ;;
           heap_walk fuel' verbose nb) st
      else cret bp
  end.

Definition checkheap_body (fuel : nat) (verbose : bool) : C unit :=
  fun st =>
    (check_prologue verbose ;;~
     bp <~ heap_walk fuel verbose (heap_listp st) ;;
     cwhen verbose (printblock bp) ;;~
     check_epilogue bp ;;~
     check_lists fuel (Z.to_nat (MAX_SIZE st)) bp 0) st.

End Checker.

Definition printblock_body (checkheap : bool -> C unit) (bp : Z) : C unit :=
  checkheap true ;;~
  hsize <~ cGET_SIZE (HDRP bp) ;;
  halloc <~ cGET_ALLOC (HDRP bp) ;;
  fp <~ cFTRP bp ;;
  fsize <~ cGET_SIZE fp ;;
  fp <~ cFTRP bp ;;
  falloc <~ cGET_ALLOC fp ;;
  if hsize =? 0 then printf (DEndOfHeap bp)
  else printf (DBlock bp hsize (truthy halloc) fsize (truthy falloc)).

(** [fuel] bounds both the depth of the calls between [checkheap] and
    [printblock] and the length of every loop. *)
Fixpoint checkheap (fuel : nat) (verbose : bool) : C unit :=
  match fuel with
  | O => fun _ => OutOfFuel
  | S fuel' =>
      checkheap_body (printblock_body (checkheap fuel')) fuel' verbose
  end.

Definition printblock (fuel : nat) (bp : Z) : C unit :=
  printblock_body (checkheap fuel) bp.

(** ** Sequences of calls *)

(** A client call.  [OFree i] and [ORealloc i n] pass the pointer that the
    [i]-th allocating call ([OMalloc] or [ORealloc], counted from 0) of the
    sequence returned. *)
Inductive op : Type :=
| OInit
| OMalloc (n : Z)
| OFree (i : nat)
| ORealloc (i : nat) (n : Z).

Definition run_op (fuel : nat) (o : op) (ptrs : list Z) : M (list Z) :=
  match o with
  | OInit => mm_init ;;; ret ptrs
  | OMalloc n => p <- mm_malloc fuel n ;; ret (ptrs ++ [p])
  | OFree i => mm_free (nth i ptrs NULL) ;;; ret ptrs
  | ORealloc i n => p <- mm_realloc fuel (nth i ptrs NULL) n ;; ret (ptrs ++ [p])
  end.

Fixpoint run_ops (fuel : nat) (ops : list op) (ptrs : list Z) : M (list Z) :=
  match ops with
  | [] => ret ptrs
  | o :: ops' => ptrs' <- run_op fuel o ptrs ;; run_ops fuel ops' ptrs'
  end.

(** ** Observations of a heap state *)

(** The full-heap scan: the blocks [(bp, size, alloc)] met from [bp] on,
    following the sizes in the headers up to the first header of size 0. *)
Fixpoint heap_blocks (fuel : nat) (bp : Z) : M (list (Z * Z * Z)) :=
  match fuel with
  | O => fun _ => OutOfFuel
  | S fuel' =>
      s <- GET_SIZE (HDRP bp) ;;
      if s =? 0 then ret []
      else
        a <- GET_ALLOC (HDRP bp) ;;
        nb <- NEXT_BLKP bp ;;
        r <- heap_blocks fuel' nb ;;
        ret ((bp, s, a) :: r)
  end.

Definition scan_heap (fuel : nat) : M (list (Z * Z * Z)) :=
  st <- get_state ;; heap_blocks fuel (heap_listp st).

(** Two blocks next to each other in the scan are both free. *)
Fixpoint adjacent_free (l : list (Z * Z * Z)) : bool :=
  match l with
  | (_, _, a1) :: (((_, _, a2) :: _) as r) =>
      ((a1 =? 0) && (a2 =? 0)) || adjacent_free r
  | _ => false
  end.

(** The blocks linked in a bucket, in list order. *)
Fixpoint list_members (fuel : nat) (dummy block : Z) : M (list Z) :=
  match fuel with
  | O => fun _ => OutOfFuel
  | S fuel' =>
      if block =? dummy then ret []
      else
        n <- GET (next_of block) ;;
        r <- list_members fuel' dummy n ;;
        ret (block :: r)
  end.

Definition bucket_members (fuel : nat) (i : Z) : M (list Z) :=
  st <- get_state ;;
  b <- GET (next_of (bucket st i)) ;;
  list_members fuel (bucket st i) b.

(** The value a C function returns, when it returns. *)
Definition result {A} (r : res (A * state)) : option A :=
  match r with Ok (a, _) => Some a | _ => None end.

(** An arena of 20 MiB of zeroed memory at address 65536, before
    [mm_init]. *)
Definition fresh : state :=
  mkState (fun _ => 0) 65536 65536 (65536 + 20 * 2 ^ 20) 0 0 0.

(** The request sizes that the specification's [find_fit] would serve: the
    same scan as [find_fit], but started at the class of the request itself
    (section 4.2 of the specification).  Only used to compare with
    [find_fit]. *)
Definition find_fit_spec (fuel : nat) (asize : Z) : M Z :=
  st <- get_state ;;
  let head := find_list_head (to_uint asize) in
  scan_buckets fuel (Z.to_nat (MAX_SIZE st - head)) asize head.

(** States used in examples. *)
Definition state_after (ops : list op) (st : state) : state :=
  match run_ops 100 ops [] st with
  | Ok (_, st') => st'
  | _ => st
  end.

(** ** Well-formed heaps

    The invariant of the allocator, stated over an abstract description of
    the heap: the list [bs] of its blocks in address order, and for every
    bucket [i] the list [fl i] of the blocks linked in it, in list order. *)

(** A block: payload address, size, allocated. *)
Definition blk : Type := (Z * Z * bool)%type.

Definition b2z (b : bool) : Z := if b then 1 else 0.

(** The size and allocated fields of a tag word. *)
Definition size_of (w : Z) : Z := Z.land w (Z.lnot (ALIGN_SIZE - 1)).
Definition alloc_of (w : Z) : Z := Z.land w 1.

(** [chain m bp bs e]: the boundary tags in [m] lay out the blocks [bs] one
    after the other from the payload address [bp] on, and [e] is the
    payload address that follows the last of them. *)
Fixpoint chain (m : memory) (bp : Z) (bs : list blk) (e : Z) : Prop :=
  match bs with
  | [] => bp = e
  | (b, sz, al) :: r =>
      b = bp /\ 2 * DSIZE <= sz /\ sz mod ALIGN_SIZE = 0
      /\ m (b - WSIZE) = PACK sz (b2z al)
      /\ m (b + sz - DSIZE) = PACK sz (b2z al)
      /\ chain m (bp + sz) r e
  end.

(** [seg m p l q]: from the node [p], the [next] fields lead through the
    nodes [l] and each [prev] field leads back; [q] is the last node. *)
Fixpoint seg (m : memory) (p : Z) (l : list Z) (q : Z) : Prop :=
  match l with
  | [] => p = q
  | b :: r => m p = b /\ m (b + WSIZE) = p /\ seg m b r q
  end.

(** The circular list of the sentinel [s] has the members [l]. *)
Definition ring (m : memory) (s : Z) (l : list Z) : Prop :=
  seg m s l (last l s) /\ m (last l s) = s /\ m (s + WSIZE) = last l s.

(** Two list nodes (two words each) that do not overlap. *)
Definition sep (x y : Z) : Prop := x + 16 <= y \/ y + 16 <= x.

Definition separated (l : list Z) : Prop :=
  forall x y, In x l -> In y l -> x = y \/ sep x y.

(** The words that [seg] reads. *)
Fixpoint seg_cells (p : Z) (l : list Z) : list Z :=
  match l with
  | [] => []
  | b :: r => p :: (b + 8) :: seg_cells b r
  end.

(** The size class of a block size, as [coalesce] and [place] compute
    it. *)
Definition classof (sz : Z) : Z := find_list_head (to_uint sz).

Record heap_ok (st : state) (bs : list blk) : Prop := {
  ok_start : 0 < mem_start_brk st;
  ok_max : mem_max_addr st < 2 ^ 64;
  ok_lists : mem_start_brk st <= free_listp st;
  ok_lists_align : free_listp st mod WSIZE = 0;
  ok_lists_below : free_listp st + SEG_SIZE * 15 <= heap_listp st - WSIZE;
  ok_heap_align : heap_listp st mod WSIZE = 0;
  ok_brk : mem_brk st <= mem_max_addr st;
  ok_MAX_SIZE : MAX_SIZE st = 15;
  ok_prologue_hdr : mem st (heap_listp st - WSIZE) = PACK DSIZE 1;
  ok_prologue_ftr : mem st (heap_listp st) = PACK DSIZE 1;
  ok_chain : chain (mem st) (heap_listp st + DSIZE) bs (mem_brk st);
  ok_epilogue : mem st (mem_brk st - WSIZE) = PACK 0 1
}.

(** The blocks whose address is in [hole] are being moved between lists:
    they may be free without being linked. *)
Record lists_ok (st : state) (bs : list blk) (fl : Z -> list Z)
    (hole : list Z) : Prop := {
  ok_ring : forall i, 0 <= i < 15 -> ring (mem st) (bucket st i) (fl i);
  ok_nodup : forall i, 0 <= i < 15 -> NoDup (fl i);
  ok_member : forall i b, 0 <= i < 15 -> In b (fl i) ->
    exists sz, In (b, sz, false) bs /\ classof sz = i /\ ~ In b hole;
  ok_linked : forall b sz, In (b, sz, false) bs -> ~ In b hole ->
    In b (fl (classof sz))
}.

(** Two free blocks that are next to each other are being merged. *)
Definition no_adjacent_free (hole : list Z) (bs : list blk) : Prop :=
  forall b1 s1 b2 s2,
    In (b1, s1, false) bs -> In (b2, s2, false) bs -> b1 + s1 = b2 ->
    In b1 hole \/ In b2 hole.

(** A node of the free lists: a sentinel or a linked block. *)
Definition node (st : state) (fl : Z -> list Z) (x : Z) : Prop :=
  exists i, 0 <= i < 15 /\ In x (bucket st i :: fl i).

(** The bucket lists [fl] with the list of bucket [i] replaced by [l]. *)
Definition fl_set (fl : Z -> list Z) (i : Z) (l : list Z) : Z -> list Z :=
  fun j => if j =? i then l else fl j.

(** An address at which a list node may live: a sentinel or a block. *)
Definition slot (st : state) (bs : list blk) (x : Z) : Prop :=
  (exists i, 0 <= i < 15 /\ x = bucket st i)
  \/ (exists sz al, In (x, sz, al) bs).

(** The words that hold boundary tags. *)
Definition tag_cell (st : state) (bs : list blk) (a : Z) : Prop :=
  a = heap_listp st - 8 \/ a = heap_listp st \/ a = mem_brk st - 8
  \/ exists b sz al, In (b, sz, al) bs /\ (a = b - 8 \/ a = b + sz - 16).

Definition inv (st : state) (bs : list blk) (fl : Z -> list Z)
    (hole : list Z) : Prop :=
  heap_ok st bs /\ lists_ok st bs fl hole /\ no_adjacent_free hole bs.

Definition wf (st : state) : Prop := exists bs fl, inv st bs fl [].

(** [c] returns in [st], and its result and final state satisfy [Q]. *)
Definition wp {A} (c : M A) (Q : A -> state -> Prop) (st : state) : Prop :=
  match c st with
  | Ok (a, st') => Q a st'
  | _ => False
  end.

(** [wpg total c Q st]: as [wp], but when [total] is [false] the
    computation may also run out of fuel. *)
Definition wpg {A} (total : bool) (c : M A) (Q : A -> state -> Prop)
    (st : state) : Prop :=
  match c st with
  | Ok (a, st') => Q a st'
  | Fault => False
  | OutOfFuel => if total then False else True
  end.

(** The size that the header of the block [b] shows. *)
Definition hdr_size (st : state) (b : Z) : Z := size_of (mem st (HDRP b)).

(** The bucket indices [i], [i + 1], ... ([n] of them). *)
Fixpoint indices (n : nat) (i : Z) : list Z :=
  match n with
  | O => []
  | S n' => i :: indices n' (i + 1)
  end.

(** The first block of [l] that [find_fit] accepts for [asize]. *)
Definition first_fit (st : state) (asize : Z) (l : list Z) : option Z :=
  find (fun b => asize <=? hdr_size st b) l.

(** The list of a bucket, as far as [find_fit] reads it. *)
Definition readable (st : state) (s : Z) (l : list Z) : Prop :=
  valid_addr st s = true
  /\ forall x, In x l ->
       x <> s /\ valid_addr st (HDRP x) = true /\ valid_addr st x = true.

(** All of the state but the memory. *)
Definition same_globals (st st' : state) : Prop :=
  mem_start_brk st' = mem_start_brk st
  /\ mem_brk st' = mem_brk st
  /\ mem_max_addr st' = mem_max_addr st
  /\ heap_listp st' = heap_listp st
  /\ free_listp st' = free_listp st
  /\ MAX_SIZE st' = MAX_SIZE st.

(** The arena and the globals are the same; the heap may have grown. *)
Definition same_arena (st st' : state) : Prop :=
  mem_start_brk st' = mem_start_brk st
  /\ mem_brk st <= mem_brk st'
  /\ mem_max_addr st' = mem_max_addr st
  /\ heap_listp st' = heap_listp st
  /\ free_listp st' = free_listp st
  /\ MAX_SIZE st' = MAX_SIZE st.

(** The size of the region that [extend_heap] requests. *)
Definition extend_size (words : Z) : Z :=
  if words mod 2 =? 0 then words * 8 else (words + 1) * 8.

(** The allocated blocks of [bs] other than [x] are blocks of [bs'] and
    all their words, tags included, are the same in [st'] as in [st]. *)
Definition keeps_alloc (st : state) (bs : list blk) (st' : state)
    (bs' : list blk) (x : Z) : Prop :=
  forall b sz, In (b, sz, true) bs -> b <> x ->
    In (b, sz, true) bs'
    /\ forall a, b - WSIZE <= a < b + sz - WSIZE -> mem st' a = mem st a.

(** The words of the [len] bytes at [new] in [st'] are those of the [len]
    bytes at [old] in [st]. *)
Definition content_preserved (st st' : state) (old new len : Z) : Prop :=
  forall a, 0 <= a < len -> a mod WSIZE = 0 ->
    mem st' (new + a) = mem st (old + a).

(** [ptr] is the payload address of an allocated block of [sz] bytes in a
    well-formed heap. *)
Definition allocated (st : state) (ptr sz : Z) : Prop :=
  exists bs fl, inv st bs fl [] /\ In (ptr, sz, true) bs.

(** The free lists of [state_after [OInit; OMalloc 1; OMalloc 1; OFree 0] fresh]:
    the block at 65800 (32 bytes) in class 5 and the block at 65864 in
    class 11. *)
Definition lists_after_free (j : Z) : list Z :=
  if j =? 5 then [65800] else if j =? 11 then [65864] else [].

(** The events of the free-list loop of [checkheap] on the list [l], with
    the cursor of the heap walk at [bp]. *)
Definition list_events (st : state) (bp : Z) (l : list Z) : list event :=
  flat_map
    (fun b =>
       EvRead bp
       :: (if truthy (Z.land (mem st bp) 1)
           then [EvPrint (DAllocatedInFreeList b)] else [])
       ++ [EvRead (next_of b)]) l.

(** The events of the free-list loops on the buckets [i], [i + 1], ...
    ([n] of them) with the lists [fl]. *)
Definition lists_events (st : state) (bp : Z) (fl : Z -> list Z)
    (n : nat) (i : Z) : list event :=
  flat_map
    (fun j => EvRead (next_of (bucket st j)) :: list_events st bp (fl j))
    (indices n i).

(** [c] returns [a] in [st]. *)
Definition creturns {A} (c : C A) (st : state) (a : A) : Prop :=
  exists t, c st = Ok (a, t).

(** The free lists of [state_after [OInit] fresh]: the first chunk, at 65800,
    in class 12. *)
Definition lists_after_init (j : Z) : list Z :=
  if j =? 12 then [65800] else [].

(** A sequence of calls after which two free blocks lie next to each
    other. *)
Definition ops_adjacent : list op :=
  [OInit; OMalloc 1; OMalloc 1; OMalloc 1; OMalloc 1; OMalloc 1; OMalloc 1;
   OMalloc 1; OFree 1; OFree 5; OFree 4; OFree 3; ORealloc 0 1].

(** [readonly c]: [c] leaves the state as it is. *)
Definition readonly {A} (c : M A) : Prop :=
  forall st a st', c st = Ok (a, st') -> st' = st.

(** [keeps c]: [c] leaves the bounds of the arena and the globals that only
    [mm_init] sets as they are. *)
Definition keeps {A} (c : M A) : Prop :=
  forall st a st', c st = Ok (a, st') ->
    mem_start_brk st' = mem_start_brk st
    /\ mem_max_addr st' = mem_max_addr st
    /\ heap_listp st' = heap_listp st
    /\ free_listp st' = free_listp st
    /\ MAX_SIZE st' = MAX_SIZE st.

(** [returns_in_arena c]: a value that [c] returns is not below the start of
    the arena. *)
Definition returns_in_arena (c : M Z) : Prop :=
  forall st a st', c st = Ok (a, st') -> mem_start_brk st <= a.

(** A small arena: room for the bucket array, the prologue and epilogue and
    one chunk. *)
Definition small : state :=
  mkState (fun _ => 0) 65536 65536 (65536 + 4360) 0 0 0.

(** The blocks that [place] leaves of a free block of [csize] bytes at [bp]
    when it places [asize] bytes. *)
Definition split_block (bp csize asize : Z) : list blk :=
  if 2 * DSIZE <=? csize - asize
  then [(bp, asize, true); (bp + asize, csize - asize, false)]
  else [(bp, csize, true)].

(** The sum of the sizes of the blocks of [l]. *)
Definition total_size (l : list blk) : Z :=
  fold_right (fun x a => snd (fst x) + a) 0 l.

(** [bs'] is [bs] with the block [(bp, sz, al)] and the free blocks right
    before and right after it ([pre] and [post], at most one each) replaced
    by the one free block [(bp', sz')] that spans them. *)
Definition merged (bs : list blk) (bp sz : Z) (al : bool)
    (bs' : list blk) (bp' sz' : Z) : Prop :=
  exists L pre post R,
    bs = L ++ pre ++ (bp, sz, al) :: post ++ R
    /\ bs' = L ++ (bp', sz', false) :: R
    /\ (forall x, In x (pre ++ post) -> snd x = false)
    /\ (length pre <= 1)%nat /\ (length post <= 1)%nat
    /\ bp' = bp - total_size pre
    /\ sz' = total_size pre + sz + total_size post.

(** The free lists of [state_after [OInit; OMalloc 1; OMalloc 1] fresh]:
    the remainder of the first chunk, at 65864, in class 11. *)
Definition lists_after_two (j : Z) : list Z :=
  if j =? 11 then [65864] else [].

(** [bs'] is [bs] with the free block [(bp, csize)] replaced by what [place]
    leaves of it for [asize] bytes. *)
Definition placed (bs : list blk) (bp csize asize : Z) (bs' : list blk) : Prop :=
  exists L R, bs = L ++ (bp, csize, false) :: R
              /\ bs' = L ++ split_block bp csize asize ++ R.

(** The number of bytes by which [mm_malloc] extends the heap for a request
    of [n] bytes that no free block serves. *)
Definition chunk_size (n : Z) : Z :=
  extend_size (MAX (adjust n) CHUNKSIZE / WSIZE).

(** How [mm_malloc] gets the block that it returns: from a free block that
    [find_fit] returns, or from the heap extended by [chunk_size n] bytes. *)
Definition malloc_blocks (fuel : nat) (st : state) (bs : list blk) (n p : Z)
    (st' : state) (bs' : list blk) : Prop :=
  (find_fit fuel (adjust n) st = Ok (p, st)
   /\ mem_brk st' = mem_brk st
   /\ exists csize, adjust n <= csize /\ placed bs p csize (adjust n) bs')
  \/ (find_fit fuel (adjust n) st = Ok (NULL, st)
      /\ mem_brk st' = mem_brk st + chunk_size n
      /\ exists bs1 sz1,
           merged (bs ++ [(mem_brk st, chunk_size n, false)])
             (mem_brk st) (chunk_size n) false bs1 p sz1
           /\ placed bs1 p sz1 (adjust n) bs').

(** The heap of [state_after [OInit] fresh] with its one free block, at
    65800, taken out of its list. *)
Definition state_unlinked : state :=
  match remove_circular 65800 (state_after [OInit] fresh) with
  | Ok (_, st') => st'
  | _ => fresh
  end.

(** A trace without diagnostics. *)
Definition silent (t : list event) : Prop := forall d, ~ In (EvPrint d) t.

(** [c] returns [a] in [st] and prints nothing. *)
Definition cquiet {A} (c : C A) (st : state) (a : A) : Prop :=
  exists t, c st = Ok (a, t) /\ silent t.

(** The heap of [state_after [OInit] fresh] with the list of class 12
    relinked by hand to the address 65804, which is not a multiple of 8, and
    a header of a free block of 4096 bytes written before that address.
    This heap is not well formed. *)
Definition state_misaligned : state :=
  let s := state_after [OInit] fresh in
  set_mem s
    (upd (upd (upd (upd (upd (mem s) (bucket s 12) 65804)
                      (bucket s 12 + WSIZE) 65804)
                 (65804 - WSIZE) (PACK 4096 0))
            65804 (bucket s 12))
       (65804 + WSIZE) (bucket s 12)).

(** * Properties *)

Ltac zlia := Z.div_mod_to_equations; lia.

(** ** The monad *)

Lemma bind_Ok {A B} (c : M A) (k : A -> M B) st r :
  bind c k st = Ok r ->
  exists a st', c st = Ok (a, st') /\ k a st' = Ok r.
Proof.
  unfold bind. destruct (c st) as [[a st']| |]; try discriminate.
  intros H. exists a, st'. split; [reflexivity | exact H].
Qed.

Lemma bind_eq {A B} (c : M A) (k : A -> M B) st a st' :
  c st = Ok (a, st') -> bind c k st = k a st'.
Proof. unfold bind. intros ->. reflexivity. Qed.

Lemma GET_Ok p st v st' :
  GET p st = Ok (v, st') -> valid_addr st p = true /\ v = mem st p /\ st' = st.
Proof.
  unfold GET. destruct (valid_addr st p); [|discriminate].
  intros H. inversion H. auto.
Qed.

Lemma GET_SIZE_Ok p st v st' :
  GET_SIZE p st = Ok (v, st') -> valid_addr st p = true /\ st' = st.
Proof.
  unfold GET_SIZE. intros H. apply bind_Ok in H as (w & s1 & H1 & H2).
  apply GET_Ok in H1 as (Hv & _ & ->). unfold ret in H2.
  inversion H2; subst. auto.
Qed.

Lemma PUT_Ok p v st u st' :
  PUT p v st = Ok (u, st') ->
  valid_addr st p = true /\ st' = set_mem st (upd (mem st) p v).
Proof.
  unfold PUT. destruct (valid_addr st p); [|discriminate].
  intros H. inversion H. auto.
Qed.

Lemma cbind_OutOfFuel_l {A B} (c : C A) (k : A -> C B) st :
  c st = OutOfFuel -> cbind c k st = OutOfFuel.
Proof. unfold cbind. intros ->. reflexivity. Qed.

Lemma cbind_OutOfFuel_r {A B} (c : C A) (k : A -> C B) st a t :
  c st = Ok (a, t) -> k a st = OutOfFuel -> cbind c k st = OutOfFuel.
Proof. unfold cbind. intros -> ->. reflexivity. Qed.

(** ** The checker in verbose mode *)

Lemma printblock_body_diverges (ch : bool -> C unit) bp st :
  ch true st = OutOfFuel -> printblock_body ch bp st = OutOfFuel.
Proof. intros H. unfold printblock_body. apply cbind_OutOfFuel_l. exact H. Qed.

Lemma heap_walk_verbose_diverges (pb : Z -> C unit) fuel bp st s t :
  cGET_SIZE (HDRP bp) st = Ok (s, t) -> 0 < s ->
  pb bp st = OutOfFuel ->
  heap_walk pb fuel true bp st = OutOfFuel.
Proof.
  intros Hs Hpos Hpb. destruct fuel as [|fuel]; [reflexivity|].
  cbn [heap_walk]. eapply cbind_OutOfFuel_r; [exact Hs|].
  replace (s >? 0) with true by (symmetry; apply Z.gtb_lt; exact Hpos).
  apply cbind_OutOfFuel_l. cbn [cwhen]. exact Hpb.
Qed.

Lemma checkheap_verbose_diverges st s t t' :
  check_prologue true st = Ok (tt, t) ->
  cGET_SIZE (HDRP (heap_listp st)) st = Ok (s, t') -> 0 < s ->
  forall fuel, checkheap fuel true st = OutOfFuel.
Proof.
  intros Hpro Hs Hpos. induction fuel as [|fuel IH]; [reflexivity|].
  cbn [checkheap]. unfold checkheap_body.
  eapply cbind_OutOfFuel_r; [exact Hpro|].
  apply cbind_OutOfFuel_l.
  eapply heap_walk_verbose_diverges; [exact Hs | exact Hpos|].
  apply printblock_body_diverges. exact IH.
Qed.

(** C9 (code defect).  At the heap that [mm_init] builds, [checkheap(true)]
    does not terminate: it calls [printblock] on the prologue block, and
    [printblock] starts by calling [checkheap(true)] again.  Whatever the
    fuel, the embedding runs out of it. *)
Theorem checkheap_verbose_init_diverges :
  forall fuel, checkheap fuel true (state_after [OInit] fresh) = OutOfFuel.
Proof.
  eapply checkheap_verbose_diverges with (s := 16).
  - vm_compute. reflexivity.
  - vm_compute. reflexivity.
  - lia.
Qed.

(** ** Coalescing and list membership after [mm_realloc] *)

(** C1 (code defect).  After seven allocations of one byte, four releases
    and [mm_realloc] of the first block to one byte, the scan of the block
    chain meets the two free blocks at 65928 and 65960 next to each
    other. *)
Theorem realloc_leaves_adjacent_free_blocks :
  exists l,
    result ((run_ops 100 ops_adjacent [] ;;; scan_heap 100) fresh) = Some l
    /\ l = [(65784, 16, 1); (65800, 64, 0); (65864, 32, 1); (65896, 32, 1);
            (65928, 32, 0); (65960, 32, 0); (65992, 32, 1); (66024, 3872, 0)]
    /\ adjacent_free l = true.
Proof. eexists. split; [vm_compute; reflexivity|]. split; reflexivity. Qed.

(** C2 (code defect).  After [mm_init], [mm_malloc(1)] and [mm_realloc] of
    that block to one byte, the block at 65864 is linked in bucket 11 while
    its header has the allocated bit set and the size 32, whose class is
    5. *)
Theorem realloc_leaves_allocated_block_in_bucket :
  let st := state_after [OInit; OMalloc 1; ORealloc 0 1] fresh in
  result (bucket_members 100 11 st) = Some [65864]
  /\ result (GET_ALLOC (HDRP 65864) st) = Some 1
  /\ result (GET_SIZE (HDRP 65864) st) = Some 32
  /\ find_list_head (to_uint 32) = 5.
Proof. repeat split; vm_compute; reflexivity. Qed.

(** ** [mm_realloc] with a null pointer *)

(** C8 (code defect).  [mm_realloc(NULL, 1)] reads the word at
    [HDRP(NULL)], outside the arena, before it tests [ptr] against [NULL]:
    the call is undefined where [mm_malloc(1)] returns a block. *)
Theorem realloc_null_reads_before_null_test :
  let st := state_after [OInit] fresh in
  mm_realloc 100 NULL 1 st = Fault
  /\ result (mm_malloc 100 1 st) = Some 65800.
Proof. split; vm_compute; reflexivity. Qed.

(** ** Computations that only read, or that keep the arena *)

Lemma readonly_ret {A} (a : A) : readonly (ret a).
Proof. intros st a' st' H. inversion H. reflexivity. Qed.

Lemma readonly_bind {A B} (c : M A) (k : A -> M B) :
  readonly c -> (forall a, readonly (k a)) -> readonly (bind c k).
Proof.
  intros Hc Hk st b st' H. apply bind_Ok in H as (a & s1 & H1 & H2).
  apply Hc in H1. subst s1. eapply Hk. exact H2.
Qed.

Lemma readonly_GET p : readonly (GET p).
Proof. intros st a st' H. apply GET_Ok in H. tauto. Qed.

Lemma readonly_get_state : readonly get_state.
Proof. intros st a st' H. inversion H. reflexivity. Qed.

Lemma readonly_GET_SIZE p : readonly (GET_SIZE p).
Proof. intros st a st' H. apply GET_SIZE_Ok in H. tauto. Qed.

Lemma readonly_scan_list fuel asize dummy :
  forall bp, readonly (scan_list fuel asize dummy bp).
Proof.
  induction fuel as [|fuel IH]; intros bp; cbn [scan_list].
  - intros st a st' H. discriminate.
  - destruct (bp =? dummy); [apply readonly_ret|].
    apply readonly_bind; [apply readonly_GET_SIZE|]. intros s.
    destruct (asize <=? s); [apply readonly_ret|].
    apply readonly_bind; [apply readonly_GET|]. intros n. apply IH.
Qed.

Lemma readonly_scan_buckets fuel asize n :
  forall idx, readonly (scan_buckets fuel n asize idx).
Proof.
  induction n as [|n IH]; intros idx; cbn [scan_buckets].
  - apply readonly_ret.
  - apply readonly_bind; [apply readonly_get_state|]. intros st0.
    apply readonly_bind; [apply readonly_GET|]. intros bp.
    apply readonly_bind; [apply readonly_scan_list|]. intros [b|].
    + apply readonly_ret.
    + apply IH.
Qed.

Lemma readonly_find_fit fuel asize : readonly (find_fit fuel asize).
Proof.
  unfold find_fit. apply readonly_bind; [apply readonly_get_state|].
  intros st0. apply readonly_scan_buckets.
Qed.

Lemma keeps_ret {A} (a : A) : keeps (ret a).
Proof. intros st a' st' H. inversion H. auto. Qed.

Lemma keeps_bind {A B} (c : M A) (k : A -> M B) :
  keeps c -> (forall a, keeps (k a)) -> keeps (bind c k).
Proof.
  intros Hc Hk st b st' H. apply bind_Ok in H as (a & s1 & H1 & H2).
  apply Hc in H1. apply Hk in H2.
  destruct H1 as (E1 & E2 & E3 & E4 & E5).
  destruct H2 as (F1 & F2 & F3 & F4 & F5).
  repeat split; congruence.
Qed.

Lemma keeps_readonly {A} (c : M A) : readonly c -> keeps c.
Proof. intros Hc st a st' H. apply Hc in H. subst. auto. Qed.

Lemma keeps_PUT p v : keeps (PUT p v).
Proof. intros st a st' H. apply PUT_Ok in H as [_ ->]. cbn. auto. Qed.

Lemma keeps_mem_sbrk incr : keeps (mem_sbrk incr).
Proof.
  intros st a st'. unfold mem_sbrk.
  destruct (_ && _); intros H; inversion H; cbn; auto.
Qed.

Ltac keeps_step :=
  lazymatch goal with
  | |- keeps (bind _ _) => apply keeps_bind; [|intros ?]
  | |- keeps (ret _) => apply keeps_ret
  | |- keeps (GET _) => apply keeps_readonly, readonly_GET
  | |- keeps (GET_SIZE _) => apply keeps_readonly, readonly_GET_SIZE
  | |- keeps get_state => apply keeps_readonly, readonly_get_state
  | |- keeps (PUT _ _) => apply keeps_PUT
  | |- keeps (mem_sbrk _) => apply keeps_mem_sbrk
  | |- keeps (if ?b then _ else _) => destruct b
  | |- keeps (let '(_, _) := ?r in _) => destruct r
  end.

Lemma keeps_remove_circular b : keeps (remove_circular b).
Proof. unfold remove_circular. repeat keeps_step. Qed.

Lemma keeps_insert_circular b d : keeps (insert_circular b d).
Proof. unfold insert_circular. repeat keeps_step. Qed.

Lemma keeps_GET_ALLOC p : keeps (GET_ALLOC p).
Proof. unfold GET_ALLOC. repeat keeps_step. Qed.

Lemma keeps_FTRP bp : keeps (FTRP bp).
Proof. unfold FTRP. repeat keeps_step. Qed.

Lemma keeps_NEXT_BLKP bp : keeps (NEXT_BLKP bp).
Proof. unfold NEXT_BLKP. repeat keeps_step. Qed.

Lemma keeps_PREV_BLKP bp : keeps (PREV_BLKP bp).
Proof. unfold PREV_BLKP. repeat keeps_step. Qed.

Lemma keeps_bucket_of_size s : keeps (bucket_of_size s).
Proof. unfold bucket_of_size. repeat keeps_step. Qed.

Ltac keeps_tac :=
  repeat first
    [ keeps_step
    | apply keeps_GET_ALLOC | apply keeps_FTRP | apply keeps_NEXT_BLKP
    | apply keeps_PREV_BLKP | apply keeps_bucket_of_size
    | apply keeps_remove_circular | apply keeps_insert_circular ].

Lemma returns_in_arena_bind {A} (c : M A) (k : A -> M Z) :
  keeps c -> (forall a, returns_in_arena (k a)) ->
  returns_in_arena (bind c k).
Proof.
  intros Hc Hk st b st' H. apply bind_Ok in H as (a & s1 & H1 & H2).
  apply Hc in H1 as (E & _). apply Hk in H2. lia.
Qed.

Lemma valid_addr_lower st p : valid_addr st p = true -> mem_start_brk st <= p.
Proof.
  unfold valid_addr. intros H.
  apply andb_prop in H as [H _].
  apply Z.leb_le. exact H.
Qed.

Lemma insert_circular_returns_in_arena bp dummy :
  returns_in_arena (insert_circular bp dummy ;;; ret bp).
Proof.
  intros st a st' H. apply bind_Ok in H as (u & s1 & H1 & H2).
  inversion H2; subst. clear H2. unfold insert_circular in H1.
  apply bind_Ok in H1 as (p & s2 & H1 & H2).
  apply GET_Ok in H1 as (_ & _ & ->).
  apply bind_Ok in H2 as (u1 & s3 & H2 & H3).
  apply PUT_Ok in H2 as [_ ->].
  apply bind_Ok in H3 as (u2 & s4 & H3 & _).
  apply PUT_Ok in H3 as [Hv _]. apply valid_addr_lower in Hv. exact Hv.
Qed.

Lemma coalesce_returns_in_arena bp : returns_in_arena (coalesce bp).
Proof.
  unfold coalesce.
  do 6 (apply returns_in_arena_bind; [keeps_tac|intros ?]).
  apply returns_in_arena_bind; [keeps_tac|intros [size' bp']].
  apply returns_in_arena_bind; [keeps_tac|intros dummy].
  apply insert_circular_returns_in_arena.
Qed.

(** ** Failure of an allocation *)

Lemma set_brk_same st : set_brk st (mem_brk st + 0) = st.
Proof. destruct st. unfold set_brk. cbn. rewrite Z.add_0_r. reflexivity. Qed.

(** [extend_heap] returns [NULL] only when the region provider refuses. *)
Lemma extend_heap_NULL words st st' :
  0 < mem_start_brk st -> mem_max_addr st < 2 ^ 64 ->
  extend_heap words st = Ok (NULL, st') -> st' = st.
Proof.
  intros Hlo Hhi H. unfold extend_heap in H.
  apply bind_Ok in H as (bp & s1 & H1 & H2).
  unfold mem_sbrk in H1.
  destruct (_ && _) eqn:Hgrow.
  - inversion H1; subst bp s1; clear H1.
    apply andb_prop in Hgrow as [Hi Hb].
    apply Z.leb_le in Hi. apply Z.leb_le in Hb.
    destruct (mem_brk st =? wrap (-1)) eqn:Hm1.
    + inversion H2; subst. apply Z.eqb_eq in Hm1.
      change (wrap (-1)) with (2 ^ 64 - 1) in Hm1.
      replace (if words mod 2 =? 0 then wrap (words * WSIZE)
               else wrap (wrap (words + 1) * WSIZE)) with 0 in * by lia.
      apply set_brk_same.
    + exfalso. revert H2.
      match goal with |- ?c ?s = _ -> _ =>
        assert (Hr : returns_in_arena c)
          by (repeat (lazymatch goal with
                      | |- returns_in_arena (bind _ _) =>
                          apply returns_in_arena_bind; [keeps_tac|intros ?]
                      end);
              apply coalesce_returns_in_arena)
      end.
      intros H2. apply Hr in H2. cbn in H2. unfold NULL in H2. lia.
  - inversion H1; subst. rewrite Z.eqb_refl in H2. inversion H2. reflexivity.
Qed.

Lemma place_ret_nonnull bp asize st st' :
  (place bp asize ;;; ret bp) st = Ok (NULL, st') -> bp = NULL.
Proof.
  intros H. apply bind_Ok in H as (u & s1 & _ & H). inversion H. reflexivity.
Qed.

(** [mm_malloc] returns [NULL] only without having changed anything. *)
Lemma mm_malloc_NULL fuel size st st' :
  0 < mem_start_brk st -> mem_max_addr st < 2 ^ 64 ->
  mm_malloc fuel size st = Ok (NULL, st') -> st' = st.
Proof.
  intros Hlo Hhi H. unfold mm_malloc in H.
  destruct (size =? 0); [inversion H; reflexivity|].
  apply bind_Ok in H as (bp & s1 & H1 & H2).
  apply readonly_find_fit in H1. subst s1.
  destruct (bp =? NULL) eqn:Hbp; cbn [negb] in H2.
  - apply bind_Ok in H2 as (bp' & s2 & H2 & H3).
    destruct (bp' =? NULL) eqn:Hbp'.
    + apply Z.eqb_eq in Hbp'. subst bp'. inversion H3; subst.
      eapply extend_heap_NULL; eassumption.
    + apply place_ret_nonnull in H3. apply Z.eqb_neq in Hbp'. contradiction.
  - apply place_ret_nonnull in H2. apply Z.eqb_neq in Hbp. contradiction.
Qed.

(** ** [mm_realloc] *)

(** C6.  When the allocation of the replacement block inside [mm_realloc]
    fails, [mm_realloc] returns [NULL] and the whole state, and with it the
    original block (its tags and its payload), is as before the call. *)
Theorem realloc_out_of_memory fuel st ptr n oldsize :
  0 < mem_start_brk st -> mem_max_addr st < 2 ^ 64 ->
  n <> 0 -> ptr <> NULL ->
  GET_SIZE (HDRP ptr) st = Ok (oldsize, st) ->
  ~ adjust n < oldsize ->
  result (mm_malloc fuel (wrap (2 * n)) st) = Some NULL ->
  mm_realloc fuel ptr n st = Ok (NULL, st).
Proof.
  intros Hlo Hhi Hn Hptr Hold Hgrow Hmalloc.
  destruct (mm_malloc fuel (wrap (2 * n)) st) as [[p st1]| |] eqn:Hm;
    try discriminate.
  cbn in Hmalloc. inversion Hmalloc; subst p.
  assert (st1 = st) by (eapply mm_malloc_NULL; eassumption). subst st1.
  unfold mm_realloc. rewrite (bind_eq _ _ _ _ _ Hold).
  apply Z.eqb_neq in Hn. rewrite Hn.
  apply Z.eqb_neq in Hptr. rewrite Hptr.
  replace (adjust n <? oldsize) with false by (symmetry; apply Z.ltb_ge; lia).
  rewrite (bind_eq _ _ _ _ _ Hm). reflexivity.
Qed.

(** C4, amended.  When the adjusted size of the request is strictly below
    the size of the block, [mm_realloc] returns [ptr] and the state is as
    before the call. *)
Theorem realloc_in_place fuel st ptr n oldsize :
  n <> 0 -> ptr <> NULL ->
  GET_SIZE (HDRP ptr) st = Ok (oldsize, st) ->
  adjust n < oldsize ->
  mm_realloc fuel ptr n st = Ok (ptr, st).
Proof.
  intros Hn Hptr Hold Hlt.
  unfold mm_realloc. rewrite (bind_eq _ _ _ _ _ Hold).
  apply Z.eqb_neq in Hn. rewrite Hn.
  apply Z.eqb_neq in Hptr. rewrite Hptr.
  apply Z.ltb_lt in Hlt. rewrite Hlt. reflexivity.
Qed.

Lemma realloc_in_place_witness :
  mm_realloc 100 65800 50 (state_after [OInit; OMalloc 100] fresh)
  = Ok (65800, state_after [OInit; OMalloc 100] fresh).
Proof.
  apply (realloc_in_place 100 (state_after [OInit; OMalloc 100] fresh)
           65800 50 120).
  - discriminate.
  - discriminate.
  - vm_compute. reflexivity.
  - vm_compute. reflexivity.
Defined.

(** C4 as stated fails when the adjusted size equals the size of the block:
    the block at 65800 has size 32, the adjusted size of a request of one
    byte is 32, and [mm_realloc] moves the block to 65832. *)
Lemma realloc_equal_size_moves :
  let st := state_after [OInit; OMalloc 1] fresh in
  result (GET_SIZE (HDRP 65800) st) = Some 32
  /\ adjust 1 <= 32
  /\ result (mm_realloc 100 65800 1 st) = Some 65832.
Proof. repeat split; vm_compute; try reflexivity; discriminate. Qed.

Lemma realloc_out_of_memory_witness :
  mm_realloc 100 65800 5000 (state_after [OInit; OMalloc 4072] small)
  = Ok (NULL, state_after [OInit; OMalloc 4072] small).
Proof.
  apply (realloc_out_of_memory 100
           (state_after [OInit; OMalloc 4072] small) 65800 5000 4096).
  - vm_compute. reflexivity.
  - vm_compute. reflexivity.
  - discriminate.
  - discriminate.
  - vm_compute. reflexivity.
  - vm_compute. discriminate.
  - vm_compute. reflexivity.
Defined.

(** ** Tag words *)

Lemma size_of_div w : 0 <= w -> size_of w = 8 * (w / 8).
Proof.
  intros Hw. unfold size_of, ALIGN_SIZE. change (8 - 1) with (Z.ones 3).
  rewrite <- Z.ldiff_land, Z.ldiff_ones_r by lia.
  rewrite Z.shiftl_mul_pow2, Z.shiftr_div_pow2 by lia.
  change (2 ^ 3) with 8. lia.
Qed.

Lemma alloc_of_mod w : alloc_of w = w mod 2.
Proof.
  unfold alloc_of. change 1 with (Z.ones 1) at 1.
  rewrite Z.land_ones by lia. reflexivity.
Qed.

Lemma PACK_add sz al : sz mod 8 = 0 -> PACK sz (b2z al) = sz + b2z al.
Proof.
  intros Hsz. unfold PACK. destruct al; cbn [b2z].
  - rewrite <- Z.lxor_lor, <- Z.add_nocarry_lxor; auto;
      change 1 with (Z.ones 1); rewrite Z.land_ones by lia; zlia.
  - rewrite Z.lor_0_r. lia.
Qed.

Lemma size_of_PACK sz al :
  0 <= sz -> sz mod 8 = 0 -> size_of (PACK sz (b2z al)) = sz.
Proof.
  intros H0 H8. rewrite PACK_add by exact H8.
  rewrite size_of_div by (destruct al; cbn; lia).
  destruct al; cbn [b2z]; zlia.
Qed.

Lemma alloc_of_PACK sz al :
  sz mod 8 = 0 -> alloc_of (PACK sz (b2z al)) = b2z al.
Proof.
  intros H8. rewrite PACK_add by exact H8. rewrite alloc_of_mod.
  destruct al; cbn [b2z]; zlia.
Qed.

Lemma size_of_mod8 w : 0 <= w -> size_of w mod 8 = 0.
Proof. intros Hw. rewrite size_of_div by exact Hw. zlia. Qed.

Lemma wrap_small x : 0 <= x < 2 ^ 64 -> wrap x = x.
Proof. intros H. unfold wrap. apply Z.mod_small. exact H. Qed.

(** ** Memory updates *)

Lemma upd_same m a v : upd m a v a = v.
Proof. unfold upd. rewrite Z.eqb_refl. reflexivity. Qed.

Lemma upd_other m a v a' : a' <> a -> upd m a v a' = m a'.
Proof. unfold upd. intros H. apply Z.eqb_neq in H. rewrite H. reflexivity. Qed.

Lemma valid_addr_intro st p :
  mem_start_brk st <= p -> p + 8 <= mem_max_addr st ->
  valid_addr st p = true.
Proof.
  intros H1 H2. unfold valid_addr, WSIZE.
  apply andb_true_intro. split.
  - apply Z.leb_le. exact H1.
  - apply Z.leb_le. exact H2.
Qed.

(** ** Weakest preconditions *)

Lemma wp_Ok {A} (c : M A) Q st :
  wp c Q st <-> exists a st', c st = Ok (a, st') /\ Q a st'.
Proof.
  unfold wp. destruct (c st) as [[a st']| |]; split.
  - intros H. exists a, st'. auto.
  - intros (a0 & s0 & E & H). inversion E; subst. exact H.
  - intros [].
  - intros (a0 & s0 & E & _). discriminate.
  - intros [].
  - intros (a0 & s0 & E & _). discriminate.
Qed.

Lemma wp_ret {A} (a : A) Q st : Q a st -> wp (ret a) Q st.
Proof. intros H. exact H. Qed.

Lemma wp_bind {A B} (c : M A) (k : A -> M B) Q st :
  wp c (fun a st' => wp (k a) Q st') st -> wp (bind c k) Q st.
Proof.
  unfold wp, bind. destruct (c st) as [[a st']| |]; auto.
Qed.

Lemma wp_conseq {A} (c : M A) (Q Q' : A -> state -> Prop) st :
  wp c Q st -> (forall a st', Q a st' -> Q' a st') -> wp c Q' st.
Proof.
  unfold wp. destruct (c st) as [[a st']| |]; auto.
Qed.

Lemma wp_get_state Q st : Q st st -> wp get_state Q st.
Proof. intros H. exact H. Qed.

Lemma wp_GET p Q st :
  valid_addr st p = true -> Q (mem st p) st -> wp (GET p) Q st.
Proof. intros Hv H. unfold wp, GET. rewrite Hv. exact H. Qed.

Lemma wp_PUT p v Q st :
  valid_addr st p = true -> Q tt (set_mem st (upd (mem st) p v)) ->
  wp (PUT p v) Q st.
Proof. intros Hv H. unfold wp, PUT. rewrite Hv. exact H. Qed.

Lemma wp_GET_SIZE p Q st :
  valid_addr st p = true -> Q (size_of (mem st p)) st -> wp (GET_SIZE p) Q st.
Proof.
  intros Hv H. unfold GET_SIZE. apply wp_bind, wp_GET; [exact Hv|].
  apply wp_ret. exact H.
Qed.

Lemma wp_GET_ALLOC p Q st :
  valid_addr st p = true -> Q (alloc_of (mem st p)) st ->
  wp (GET_ALLOC p) Q st.
Proof.
  intros Hv H. unfold GET_ALLOC. apply wp_bind, wp_GET; [exact Hv|].
  apply wp_ret. exact H.
Qed.

(** ** Geometry of the block chain *)

Ltac consts :=
  unfold DSIZE, SEG_SIZE, ALIGN_SIZE, NULL, WSIZE in *;
  change (2 * 8) with 16 in *.

Lemma chain_app m l1 : forall s l2 e,
  chain m s (l1 ++ l2) e <-> exists mid, chain m s l1 mid /\ chain m mid l2 e.
Proof.
  induction l1 as [|[[b sz] al] l1 IH]; intros s l2 e; cbn [chain app].
  - split.
    + intros H. exists s. auto.
    + intros (mid & -> & H). exact H.
  - split.
    + intros (E & H1 & H2 & H3 & H4 & H5). apply IH in H5 as (mid & H5 & H6).
      exists mid. tauto.
    + intros (mid & (E & H1 & H2 & H3 & H4 & H5) & H6).
      repeat (split; [assumption|]). apply IH. exists mid. auto.
Qed.

Lemma chain_le m bs : forall s e, chain m s bs e -> s <= e.
Proof.
  induction bs as [|[[b sz] al] bs IH]; intros s e; cbn [chain].
  - intros ->. lia.
  - intros (E & H1 & _ & _ & _ & H5). apply IH in H5. consts. lia.
Qed.

Lemma chain_In m bs : forall s e b sz al,
  chain m s bs e -> In (b, sz, al) bs ->
  s <= b /\ b + sz <= e /\ 32 <= sz /\ sz mod 8 = 0
  /\ m (b - 8) = PACK sz (b2z al) /\ m (b + sz - 16) = PACK sz (b2z al).
Proof.
  induction bs as [|[[b0 sz0] al0] bs IH]; intros s e b sz al; cbn [chain In].
  - intros _ [].
  - intros (E & H1 & H2 & H3 & H4 & H5) [Hin|Hin].
    + inversion Hin; subst. apply chain_le in H5. consts. repeat split; auto; lia.
    + specialize (IH _ _ _ _ _ H5 Hin). consts. intuition lia.
Qed.

Lemma chain_split m bs : forall s e b sz al,
  chain m s bs e -> In (b, sz, al) bs ->
  exists L R, bs = L ++ (b, sz, al) :: R
              /\ chain m s L b /\ chain m (b + sz) R e.
Proof.
  induction bs as [|[[b0 sz0] al0] bs IH]; intros s e b sz al; cbn [chain In].
  - intros _ [].
  - intros (E & H1 & H2 & H3 & H4 & H5) [Hin|Hin].
    + inversion Hin; subst. exists [], bs. cbn. auto.
    + destruct (IH _ _ _ _ _ H5 Hin) as (L & R & -> & HL & HR).
      exists ((b0, sz0, al0) :: L), R. cbn [app chain]. subst b0. tauto.
Qed.

Lemma chain_disjoint m bs : forall s e b1 s1 a1 b2 s2 a2,
  chain m s bs e -> In (b1, s1, a1) bs -> In (b2, s2, a2) bs ->
  (b1, s1, a1) = (b2, s2, a2) \/ b1 + s1 <= b2 \/ b2 + s2 <= b1.
Proof.
  induction bs as [|[[b0 sz0] al0] bs IH];
    intros s e b1 s1 a1 b2 s2 a2; cbn [chain In].
  - intros _ [].
  - intros (E & H1 & H2 & H3 & H4 & H5) [Hi1|Hi1] [Hi2|Hi2].
    + left. congruence.
    + inversion Hi1; subst. right. left.
      pose proof (chain_In _ _ _ _ _ _ _ H5 Hi2). lia.
    + inversion Hi2; subst. right. right.
      pose proof (chain_In _ _ _ _ _ _ _ H5 Hi1). lia.
    + eapply IH; eassumption.
Qed.

(** The address of a block determines its size and state. *)
Lemma chain_unique m bs s e b s1 a1 s2 a2 :
  chain m s bs e -> In (b, s1, a1) bs -> In (b, s2, a2) bs ->
  s1 = s2 /\ a1 = a2.
Proof.
  intros Hc H1 H2.
  pose proof (chain_In _ _ _ _ _ _ _ Hc H1).
  pose proof (chain_In _ _ _ _ _ _ _ Hc H2).
  destruct (chain_disjoint _ _ _ _ _ _ _ _ _ _ Hc H1 H2) as [E|[E|E]].
  - inversion E. auto.
  - lia.
  - lia.
Qed.

Lemma chain_aligned m bs : forall s e b sz al,
  s mod 8 = 0 -> chain m s bs e -> In (b, sz, al) bs -> b mod 8 = 0.
Proof.
  induction bs as [|[[b0 sz0] al0] bs IH]; intros s e b sz al Hs; cbn [chain In].
  - intros _ [].
  - intros (E & H1 & H2 & H3 & H4 & H5) [Hin|Hin].
    + inversion Hin; subst. exact Hs.
    + eapply IH; [|exact H5|exact Hin]. consts. zlia.
Qed.

Lemma chain_end_aligned m bs : forall s e,
  s mod 8 = 0 -> chain m s bs e -> e mod 8 = 0.
Proof.
  induction bs as [|[[b0 sz0] al0] bs IH]; intros s e Hs; cbn [chain].
  - intros <-. exact Hs.
  - intros (E & H1 & H2 & H3 & H4 & H5).
    eapply IH; [|exact H5]. consts. zlia.
Qed.

(** [chain] reads the tags only. *)
Lemma chain_frame m m' bs : forall s e,
  (forall b sz al, In (b, sz, al) bs ->
     m' (b - 8) = m (b - 8) /\ m' (b + sz - 16) = m (b + sz - 16)) ->
  chain m s bs e -> chain m' s bs e.
Proof.
  induction bs as [|[[b0 sz0] al0] bs IH]; intros s e Hf; cbn [chain].
  - auto.
  - intros (E & H1 & H2 & H3 & H4 & H5).
    destruct (Hf b0 sz0 al0 (or_introl eq_refl)) as [F1 F2].
    consts. rewrite F1, F2. repeat (split; [assumption|]).
    apply IH; [|exact H5]. intros b sz al Hin.
    apply (Hf b sz al). right. exact Hin.
Qed.

(** ** Circular lists *)

Lemma last_cons (l : list Z) : forall p b, last (b :: l) p = last l b.
Proof.
  induction l as [|c r IH]; intros p b.
  - reflexivity.
  - change (last (b :: c :: r) p) with (last (c :: r) p).
    rewrite (IH p c). symmetry. apply (IH b c).
Qed.

Lemma last_In (l : list Z) : forall p, In (last l p) (p :: l).
Proof.
  induction l as [|b r IH]; intros p.
  - left. reflexivity.
  - rewrite last_cons. right. apply IH.
Qed.

Lemma last_app_cons (l1 l2 : list Z) p :
  last (l1 ++ l2) p = last l2 (last l1 p).
Proof.
  revert p. induction l1 as [|b r IH]; intros p.
  - reflexivity.
  - cbn [app]. rewrite !last_cons. apply IH.
Qed.

Lemma seg_last m l : forall p q, seg m p l q -> q = last l p.
Proof.
  induction l as [|b r IH]; intros p q; cbn [seg].
  - intros ->. reflexivity.
  - intros (_ & _ & H). rewrite last_cons. apply IH. exact H.
Qed.

Lemma seg_app m l1 : forall p l2 q,
  seg m p (l1 ++ l2) q <-> seg m p l1 (last l1 p) /\ seg m (last l1 p) l2 q.
Proof.
  induction l1 as [|b r IH]; intros p l2 q; cbn [seg app].
  - cbn. tauto.
  - rewrite last_cons. rewrite IH. tauto.
Qed.

Lemma seg_frame m m' l : forall p q,
  (forall a, In a (seg_cells p l) -> m' a = m a) ->
  seg m p l q -> seg m' p l q.
Proof.
  induction l as [|b r IH]; intros p q Hf; cbn [seg].
  - auto.
  - intros (H1 & H2 & H3). cbn [seg_cells] in Hf.
    rewrite (Hf p) by (left; reflexivity).
    unfold WSIZE in *.
    rewrite (Hf (b + 8)) by (right; left; reflexivity).
    repeat (split; [assumption|]).
    apply IH; [|exact H3]. intros a Ha. apply Hf. right. right. exact Ha.
Qed.

Lemma seg_cells_In l : forall p a,
  NoDup (p :: l) -> In a (seg_cells p l) ->
  (In a (p :: l) /\ a <> last l p) \/ (exists x, In x l /\ a = x + 8).
Proof.
  induction l as [|b r IH]; intros p a Hnd; cbn [seg_cells].
  - intros [].
  - rewrite last_cons. inversion Hnd as [|? ? Hp Hnd']; subst.
    intros [<-|[<-|Ha]].
    + left. split; [left; reflexivity|].
      intros E. apply Hp. rewrite E. apply last_In.
    + right. exists b. split; [left; reflexivity|reflexivity].
    + destruct (IH b a Hnd' Ha) as [[H1 H2]|(x & H1 & H2)].
      * left. split; [right; exact H1|exact H2].
      * right. exists x. split; [right; exact H1|exact H2].
Qed.

Lemma ring_frame m m' s l :
  (forall x, In x (s :: l) -> m' x = m x /\ m' (x + 8) = m (x + 8)) ->
  ring m s l -> ring m' s l.
Proof.
  intros Hf (H1 & H2 & H3). unfold ring, WSIZE in *.
  pose proof (last_In l s) as Hl.
  destruct (Hf _ Hl) as [E1 _].
  destruct (Hf s (or_introl eq_refl)) as [_ E2].
  rewrite E1, E2. repeat split; try assumption.
  eapply seg_frame; [|exact H1].
  assert (G : forall p a, In a (seg_cells p l) ->
                (In a (p :: l)) \/ exists x, In x l /\ a = x + 8).
  { clear. induction l as [|b r IH]; intros p a; cbn [seg_cells].
    - intros [].
    - intros [<-|[<-|Ha]].
      + left. left. reflexivity.
      + right. exists b. split; [left; reflexivity|reflexivity].
      + destruct (IH b a Ha) as [H|(x & H & E)].
        * left. right. exact H.
        * right. exists x. split; [right; exact H|exact E]. }
  intros a Ha. destruct (G _ _ Ha) as [H|(x & H & ->)].
  - apply Hf. exact H.
  - apply Hf. right. exact H.
Qed.

Lemma ring_insert m m' s l b :
  ring m s l -> NoDup (s :: l) -> separated (b :: s :: l) ->
  ~ In b (s :: l) ->
  m' (b + 8) = last l s -> m' b = s -> m' (last l s) = b -> m' (s + 8) = b ->
  (forall a, a <> b + 8 -> a <> b -> a <> last l s -> a <> s + 8 ->
             m' a = m a) ->
  ring m' s (l ++ [b]).
Proof.
  intros (H1 & H2 & H3) Hnd Hsep Hb E1 E2 E3 E4 Hf. unfold ring, WSIZE in *.
  rewrite last_app_cons. cbn [last].
  repeat split; try assumption.
  apply seg_app. split.
  - eapply seg_frame; [|exact H1].
    intros a Ha.
    pose proof (last_In l s) as Hl.
    destruct (seg_cells_In _ _ _ Hnd Ha) as [[Hin Hne]|(x & Hin & ->)].
    + assert (Hab : a <> b) by (intros ->; apply Hb; exact Hin).
      destruct (Hsep a b) as [?|[?|?]]; [right; exact Hin|left; reflexivity
        |contradiction| |];
      (destruct (Hsep a s) as [?|[?|?]];
        [right; exact Hin|right; left; reflexivity| | |];
        apply Hf; lia).
    + assert (Hxb : x <> b) by (intros ->; apply Hb; right; exact Hin).
      assert (Hxs : x <> s).
      { intros ->. inversion Hnd. contradiction. }
      destruct (Hsep x b) as [?|[?|?]];
        [right; right; exact Hin|left; reflexivity|contradiction| |];
      (destruct (Hsep x (last l s)) as [?|[?|?]];
        [right; right; exact Hin|right; exact Hl| | |];
        apply Hf; lia).
  - cbn [seg]. auto.
Qed.

Lemma NoDup_app_inv (l1 l2 : list Z) :
  NoDup (l1 ++ l2) ->
  NoDup l1 /\ NoDup l2 /\ forall a, In a l1 -> ~ In a l2.
Proof.
  induction l1 as [|x l1 IH]; cbn [app].
  - intros H. split; [constructor|]. split; [exact H|]. intros a [].
  - intros H. inversion H as [|? ? Hx Hnd]; subst.
    destruct (IH Hnd) as (H1 & H2 & H3).
    split; [|split].
    + constructor; [|exact H1]. intros Hin. apply Hx.
      apply in_or_app. left. exact Hin.
    + exact H2.
    + intros a [<-|Ha].
      * intros Hin. apply Hx. apply in_or_app. right. exact Hin.
      * apply H3. exact Ha.
Qed.

Lemma ring_prev_next m s l1 b l2 :
  ring m s (l1 ++ b :: l2) ->
  m (b + 8) = last l1 s /\ m b = hd s l2.
Proof.
  intros (H1 & H2 & H3). unfold WSIZE in *.
  rewrite last_app_cons, last_cons in *.
  apply seg_app in H1 as [Ha Hb]. cbn [seg] in Hb. unfold WSIZE in *.
  destruct Hb as (E1 & E2 & Hb). split; [exact E2|].
  destruct l2 as [|n r]; cbn [hd last seg] in *.
  - exact H2.
  - tauto.
Qed.

Lemma ring_remove m m' s l1 b l2 :
  ring m s (l1 ++ b :: l2) ->
  NoDup (s :: l1 ++ b :: l2) -> separated (s :: l1 ++ b :: l2) ->
  m' (last l1 s) = hd s l2 -> m' (hd s l2 + 8) = last l1 s ->
  (forall a, a <> last l1 s -> a <> hd s l2 + 8 -> a <> b -> a <> b + 8 ->
             m' a = m a) ->
  ring m' s (l1 ++ l2).
Proof.
  intros (H1 & H2 & H3) Hnd Hsep E1 E2 Hf. unfold ring, WSIZE in *.
  rewrite last_app_cons, last_cons in *.
  apply seg_app in H1 as [Ha Hb]. cbn [seg] in Hb. unfold WSIZE in *.
  destruct Hb as (Eb1 & Eb2 & Hb).
  change (s :: l1 ++ b :: l2) with ((s :: l1) ++ b :: l2) in Hnd, Hsep.
  destruct (NoDup_app_inv _ _ Hnd) as (Hnd1 & Hnd2 & Hdis).
  apply NoDup_cons_iff in Hnd2 as [Hbl2 Hnd3].
  assert (Hp : In (last l1 s) (s :: l1)) by apply last_In.
  assert (HpN : In (last l1 s) ((s :: l1) ++ b :: l2))
    by (apply in_or_app; left; exact Hp).
  assert (HbN : In b ((s :: l1) ++ b :: l2))
    by (apply in_or_app; right; left; reflexivity).
  assert (HsN : In s ((s :: l1) ++ b :: l2))
    by (apply in_or_app; left; left; reflexivity).
  assert (Hpb : last l1 s <> b).
  { intros E. apply (Hdis _ Hp). left. symmetry. exact E. }
  assert (Hn : In (hd s l2) (s :: l2))
    by (destruct l2; [left|right; left]; reflexivity).
  assert (HnN : In (hd s l2) ((s :: l1) ++ b :: l2)).
  { destruct Hn as [<-|Hn]; [exact HsN|].
    apply in_or_app. right. right. exact Hn. }
  assert (Hnb : hd s l2 <> b).
  { destruct Hn as [<-|Hn].
    - intros E. apply (Hdis s); [left; reflexivity|left; symmetry; exact E].
    - intros E. apply Hbl2. rewrite <- E. exact Hn. }
  (* the first segment is untouched *)
  assert (Hseg1 : seg m' s l1 (last l1 s)).
  { eapply seg_frame; [|exact Ha]. intros a Hc.
    destruct (seg_cells_In _ _ _ Hnd1 Hc) as [[Hin Hne]|(x & Hin & ->)].
    - assert (HaN : In a ((s :: l1) ++ b :: l2))
        by (apply in_or_app; left; exact Hin).
      assert (a <> b) by (intros ->; apply (Hdis b Hin); left; reflexivity).
      destruct (Hsep a b HaN HbN) as [?|[?|?]]; [contradiction| |];
      (destruct (Hsep a _ HaN HnN) as [?|[?|?]]; apply Hf; lia).
    - assert (Hx : In x (s :: l1)) by (right; exact Hin).
      assert (HxN : In x ((s :: l1) ++ b :: l2))
        by (apply in_or_app; left; exact Hx).
      assert (x <> b) by (intros ->; apply (Hdis b Hx); left; reflexivity).
      assert (x <> hd s l2).
      { destruct Hn as [<-|Hn].
        - intros ->. apply NoDup_cons_iff in Hnd1 as [Hs _]. contradiction.
        - intros ->. apply (Hdis _ Hx). right. exact Hn. }
      destruct (Hsep x b HxN HbN) as [?|[?|?]]; [contradiction| |];
      (destruct (Hsep x _ HxN HpN) as [?|[?|?]]; apply Hf; lia). }
  split; [|split].
  - apply seg_app. split; [exact Hseg1|].
    destruct l2 as [|n r].
    + cbn [seg last]. reflexivity.
    + cbn [hd] in *. rewrite !last_cons in *. cbn [seg] in *.
      unfold WSIZE in *. destruct Hb as (En1 & En2 & Hb).
      split; [exact E1|]. split; [exact E2|].
      eapply seg_frame; [|exact Hb]. intros a Hc.
      destruct (seg_cells_In _ _ _ Hnd3 Hc) as [[Hin Hne]|(x & Hin & ->)].
      * assert (HaN : In a ((s :: l1) ++ b :: n :: r))
          by (apply in_or_app; right; right; exact Hin).
        assert (a <> b) by (intros ->; apply Hbl2; exact Hin).
        assert (a <> last l1 s)
          by (intros ->; apply (Hdis _ Hp); right; exact Hin).
        destruct (Hsep a b HaN HbN) as [?|[?|?]]; [contradiction| |];
        (destruct (Hsep a n HaN HnN) as [?|[?|?]]; apply Hf; lia).
      * assert (Hx : In x (n :: r)) by (right; exact Hin).
        assert (HxN : In x ((s :: l1) ++ b :: n :: r))
          by (apply in_or_app; right; right; exact Hx).
        assert (x <> b) by (intros ->; apply Hbl2; exact Hx).
        assert (x <> n).
        { intros ->. apply NoDup_cons_iff in Hnd3 as [Hn3 _]. contradiction. }
        destruct (Hsep x b HxN HbN) as [?|[?|?]]; [contradiction| |];
        (destruct (Hsep x _ HxN HpN) as [?|[?|?]]; apply Hf; lia).
  - destruct l2 as [|n r].
    + cbn [last hd] in *. exact E1.
    + cbn [hd] in *. rewrite !last_cons in *.
      assert (Hq : In (last r n) (n :: r)) by apply last_In.
      assert (HqN : In (last r n) ((s :: l1) ++ b :: n :: r))
        by (apply in_or_app; right; right; exact Hq).
      rewrite Hf; [exact H2| | | |].
      * intros E. apply (Hdis _ Hp). right. rewrite <- E. exact Hq.
      * destruct (Hsep _ _ HqN HnN) as [?|[?|?]]; lia.
      * intros E. apply Hbl2. rewrite <- E. exact Hq.
      * destruct (Hsep _ _ HqN HbN) as [E|[?|?]]; [|lia|lia].
        exfalso. apply Hbl2. rewrite <- E. exact Hq.
  - destruct l2 as [|n r].
    + cbn [last hd] in *. exact E2.
    + cbn [hd] in *. rewrite !last_cons in *.
      assert (Hsn : s <> n).
      { intros ->. apply (Hdis n); [left; reflexivity|right; left; reflexivity]. }
      rewrite Hf; [exact H3| | | |].
      * destruct (Hsep _ _ HsN HpN) as [?|[?|?]]; lia.
      * lia.
      * destruct (Hsep _ _ HsN HbN) as [?|[?|?]]; lia.
      * assert (s <> b).
        { intros ->. apply (Hdis b); left; reflexivity. }
        lia.
Qed.

(** ** Consequences of the invariant *)

Lemma heap_ok_bounds st bs :
  heap_ok st bs ->
  0 < mem_start_brk st /\ mem_start_brk st <= free_listp st
  /\ free_listp st + 240 <= heap_listp st - 8
  /\ heap_listp st + 16 <= mem_brk st
  /\ mem_brk st <= mem_max_addr st /\ mem_max_addr st < 2 ^ 64
  /\ free_listp st mod 8 = 0 /\ heap_listp st mod 8 = 0
  /\ mem_brk st mod 8 = 0.
Proof.
  intros [H1 H2 H3 H4 H5 H6 H7 H8 H9 H10 H11 H12].
  pose proof (chain_le _ _ _ _ H11) as Hle.
  assert (mem_brk st mod 8 = 0).
  { eapply chain_end_aligned; [|exact H11]. consts. zlia. }
  consts. repeat split; try assumption; lia.
Qed.

Lemma block_facts st bs b sz al :
  heap_ok st bs -> In (b, sz, al) bs ->
  heap_listp st + 16 <= b /\ b + sz <= mem_brk st
  /\ 32 <= sz /\ sz mod 8 = 0 /\ b mod 8 = 0
  /\ mem st (b - 8) = PACK sz (b2z al)
  /\ mem st (b + sz - 16) = PACK sz (b2z al).
Proof.
  intros Hok Hin. pose proof (ok_chain _ _ Hok) as Hc.
  pose proof (heap_ok_bounds _ _ Hok) as Hb.
  pose proof (chain_In _ _ _ _ _ _ _ Hc Hin) as Hi.
  assert (b mod 8 = 0).
  { eapply chain_aligned; [|exact Hc|exact Hin]. consts. zlia. }
  consts. intuition lia.
Qed.

Lemma bucket_eq st bs i :
  heap_ok st bs -> 0 <= i < 15 -> bucket st i = free_listp st + 16 * i.
Proof.
  intros Hok Hi. pose proof (heap_ok_bounds _ _ Hok).
  unfold bucket. consts. apply wrap_small. lia.
Qed.

Lemma classof_range sz : 0 <= classof sz < 15.
Proof.
  unfold classof, find_list_head.
  repeat match goal with |- context [if ?c then _ else _] => destruct c end;
    lia.
Qed.

(** A linked block is a free block of the heap. *)
Lemma member_block st bs fl hole i x :
  inv st bs fl hole -> 0 <= i < 15 -> In x (fl i) ->
  exists sz, In (x, sz, false) bs /\ classof sz = i /\ ~ In x hole.
Proof. intros (_ & Hl & _). apply (ok_member _ _ _ _ Hl). Qed.

Lemma node_cases st bs fl hole x :
  inv st bs fl hole -> node st fl x ->
  (exists i, 0 <= i < 15 /\ x = free_listp st + 16 * i)
  \/ (exists i sz, 0 <= i < 15 /\ In x (fl i) /\ In (x, sz, false) bs
                   /\ classof sz = i /\ ~ In x hole).
Proof.
  intros Hinv (i & Hi & [<-|Hin]).
  - left. exists i. split; [exact Hi|].
    eapply bucket_eq; [apply Hinv|exact Hi].
  - right. destruct (member_block _ _ _ _ _ _ Hinv Hi Hin) as (sz & H1 & H2 & H3).
    exists i, sz. auto.
Qed.

(** The two words of a node lie in the bucket array or in the payload of
    a free block. *)
Lemma node_sep st bs fl hole x y :
  inv st bs fl hole -> node st fl x -> node st fl y -> x = y \/ sep x y.
Proof.
  intros Hinv Hx Hy. pose proof Hinv as (Hok & _ & _).
  pose proof (heap_ok_bounds _ _ Hok) as Hb.
  destruct (node_cases _ _ _ _ _ Hinv Hx)
    as [(i & Hi & ->)|(i & sz & Hi & Hin & Hblk & _)];
  destruct (node_cases _ _ _ _ _ Hinv Hy)
    as [(j & Hj & ->)|(j & sz' & Hj & Hin' & Hblk' & _)]; unfold sep.
  - lia.
  - pose proof (block_facts _ _ _ _ _ Hok Hblk'). lia.
  - pose proof (block_facts _ _ _ _ _ Hok Hblk). lia.
  - pose proof (block_facts _ _ _ _ _ Hok Hblk).
    pose proof (block_facts _ _ _ _ _ Hok Hblk').
    destruct (chain_disjoint _ _ _ _ _ _ _ _ _ _ (ok_chain _ _ Hok) Hblk Hblk')
      as [E|[?|?]]; [inversion E; auto|lia|lia].
Qed.

Lemma member_not_sentinel st bs fl hole i j x :
  inv st bs fl hole -> 0 <= i < 15 -> 0 <= j < 15 -> In x (fl i) ->
  x <> bucket st j.
Proof.
  intros Hinv Hi Hj Hin. pose proof Hinv as (Hok & _ & _).
  destruct (member_block _ _ _ _ _ _ Hinv Hi Hin) as (sz & Hblk & _).
  pose proof (block_facts _ _ _ _ _ Hok Hblk).
  pose proof (heap_ok_bounds _ _ Hok).
  rewrite (bucket_eq _ _ _ Hok Hj). lia.
Qed.

Lemma member_bucket_unique st bs fl hole i j x :
  inv st bs fl hole -> 0 <= i < 15 -> 0 <= j < 15 ->
  In x (fl i) -> In x (fl j) -> i = j.
Proof.
  intros Hinv Hi Hj H1 H2. pose proof Hinv as (Hok & _ & _).
  destruct (member_block _ _ _ _ _ _ Hinv Hi H1) as (s1 & B1 & C1 & _).
  destruct (member_block _ _ _ _ _ _ Hinv Hj H2) as (s2 & B2 & C2 & _).
  destruct (chain_unique _ _ _ _ _ _ _ _ _ (ok_chain _ _ Hok) B1 B2) as [-> _].
  congruence.
Qed.

Lemma bucket_nodup st bs fl hole i :
  inv st bs fl hole -> 0 <= i < 15 -> NoDup (bucket st i :: fl i).
Proof.
  intros Hinv Hi. constructor.
  - intros Hin. eapply member_not_sentinel; eauto.
  - apply (ok_nodup _ _ _ _ (proj1 (proj2 Hinv))). exact Hi.
Qed.

Lemma bucket_separated st bs fl hole i :
  inv st bs fl hole -> 0 <= i < 15 -> separated (bucket st i :: fl i).
Proof.
  intros Hinv Hi x y Hx Hy.
  eapply node_sep; [exact Hinv| |]; exists i; auto.
Qed.

(** A word of a node is not a boundary tag. *)
Lemma link_cell_not_tag st bs fl hole x a :
  inv st bs fl hole -> node st fl x -> a = x \/ a = x + 8 ->
  a <> heap_listp st - 8 /\ a <> heap_listp st /\ a <> mem_brk st - 8
  /\ forall b sz al, In (b, sz, al) bs -> a <> b - 8 /\ a <> b + sz - 16.
Proof.
  intros Hinv Hx Ha. pose proof Hinv as (Hok & _ & _).
  pose proof (heap_ok_bounds _ _ Hok) as Hb.
  destruct (node_cases _ _ _ _ _ Hinv Hx)
    as [(i & Hi & ->)|(i & sz & Hi & Hin & Hblk & _)].
  - repeat split; try lia;
      pose proof (block_facts _ _ _ _ _ Hok H); lia.
  - pose proof (block_facts _ _ _ _ _ Hok Hblk).
    repeat split; try lia;
      pose proof (block_facts _ _ _ _ _ Hok H0);
      destruct (chain_disjoint _ _ _ _ _ _ _ _ _ _ (ok_chain _ _ Hok) Hblk H0)
        as [E|[?|?]]; try (inversion E; subst); lia.
Qed.

(** ** Steps that preserve the invariant *)

Lemma same_globals_refl st : same_globals st st.
Proof. unfold same_globals. tauto. Qed.

Lemma same_globals_trans st1 st2 st3 :
  same_globals st1 st2 -> same_globals st2 st3 -> same_globals st1 st3.
Proof. unfold same_globals. intuition congruence. Qed.

Lemma same_globals_set_mem st m : same_globals st (set_mem st m).
Proof. unfold same_globals. cbn. tauto. Qed.

Lemma bucket_same st st' i : same_globals st st' -> bucket st' i = bucket st i.
Proof. intros (_ & _ & _ & _ & E & _). unfold bucket. rewrite E. reflexivity. Qed.

(** Writing the words of list nodes leaves the block chain as it is. *)
Lemma heap_ok_frame_links st st' bs fl hole :
  inv st bs fl hole -> same_globals st st' ->
  (forall a, (forall x, node st fl x -> a <> x /\ a <> x + 8) ->
             mem st' a = mem st a) ->
  heap_ok st' bs.
Proof.
  intros Hinv Hg Hf. pose proof Hinv as (Hok & _ & _).
  destruct Hg as (G1 & G2 & G3 & G4 & G5 & G6).
  assert (Htag : forall a,
    (a = heap_listp st - 8 \/ a = heap_listp st \/ a = mem_brk st - 8
     \/ exists b sz al, In (b, sz, al) bs /\ (a = b - 8 \/ a = b + sz - 16)) ->
    mem st' a = mem st a).
  { intros a Ha. apply Hf. intros x Hx.
    pose proof (link_cell_not_tag _ _ _ _ x x Hinv Hx (or_introl eq_refl))
      as (T1 & T2 & T3 & T4).
    pose proof (link_cell_not_tag _ _ _ _ x (x + 8) Hinv Hx (or_intror eq_refl))
      as (U1 & U2 & U3 & U4).
    destruct Ha as [->|[->|[->|(b & sz & al & Hin & Ha)]]]; try (split; congruence).
    destruct (T4 _ _ _ Hin), (U4 _ _ _ Hin).
    destruct Ha as [->| ->]; split; congruence. }
  destruct Hok as [H1 H2 H3 H4 H5 H6 H7 H8 H9 H10 H11 H12].
  constructor; rewrite ?G1, ?G2, ?G3, ?G4, ?G5, ?G6; try assumption.
  - consts. rewrite Htag by auto. exact H9.
  - rewrite Htag by auto. exact H10.
  - eapply chain_frame; [|exact H11].
    intros b sz al Hin. split; apply Htag; do 3 right; exists b, sz, al; auto.
  - consts. rewrite Htag by auto. exact H12.
Qed.

Lemma no_adjacent_free_weaken hole hole' bs :
  (forall x, In x hole -> In x hole') ->
  no_adjacent_free hole bs -> no_adjacent_free hole' bs.
Proof.
  intros Hsub Hn b1 s1 b2 s2 H1 H2 E.
  destruct (Hn _ _ _ _ H1 H2 E); auto.
Qed.

Lemma fl_set_same fl i l : fl_set fl i l i = l.
Proof. unfold fl_set. rewrite Z.eqb_refl. reflexivity. Qed.

Lemma fl_set_other fl i l j : j <> i -> fl_set fl i l j = fl j.
Proof. unfold fl_set. intros H. apply Z.eqb_neq in H. rewrite H. reflexivity. Qed.

(** Unlinking the block [b]. *)
Lemma inv_remove st st' bs fl hole b sz l1 l2 :
  inv st bs fl hole -> same_globals st st' ->
  In (b, sz, false) bs ->
  fl (classof sz) = l1 ++ b :: l2 ->
  mem st' (last l1 (bucket st (classof sz))) = hd (bucket st (classof sz)) l2 ->
  mem st' (hd (bucket st (classof sz)) l2 + 8)
    = last l1 (bucket st (classof sz)) ->
  (forall a, a <> last l1 (bucket st (classof sz)) ->
             a <> hd (bucket st (classof sz)) l2 + 8 ->
             a <> b -> a <> b + 8 -> mem st' a = mem st a) ->
  inv st' bs (fl_set fl (classof sz) (l1 ++ l2)) (b :: hole).
Proof.
  intros Hinv Hg Hblk Efl E1 E2 Hf.
  pose proof Hinv as (Hok & Hl & Hadj).
  pose proof (classof_range sz) as Hi.
  set (i := classof sz) in *. set (s := bucket st i) in *.
  assert (Hbi : In b (fl i)) by (rewrite Efl; apply in_or_app; right; left; reflexivity).
  assert (Hp : In (last l1 s) (s :: fl i)).
  { destruct (last_In l1 s) as [<-|Hin]; [left; reflexivity|].
    right. rewrite Efl. apply in_or_app. left. exact Hin. }
  assert (Hn : In (hd s l2) (s :: fl i)).
  { destruct l2 as [|n r]; [left; reflexivity|].
    right. rewrite Efl. apply in_or_app. right. right. left. reflexivity. }
  assert (Nb : node st fl b) by (exists i; split; [exact Hi|right; exact Hbi]).
  assert (Np : node st fl (last l1 s)) by (exists i; auto).
  assert (Nn : node st fl (hd s l2)) by (exists i; auto).
  assert (Hf' : forall a, (forall x, node st fl x -> a <> x /\ a <> x + 8) ->
                          mem st' a = mem st a).
  { intros a Ha. destruct (Ha _ Nb), (Ha _ Np), (Ha _ Nn). apply Hf; assumption. }
  split; [|split].
  - eapply heap_ok_frame_links; eassumption.
  - constructor.
    + intros j Hj. rewrite (bucket_same _ _ _ Hg).
      destruct (Z.eq_dec j i) as [->|Hji].
      * rewrite fl_set_same. fold s.
        eapply ring_remove; [| | |exact E1|exact E2|exact Hf].
        -- rewrite <- Efl. apply (ok_ring _ _ _ _ Hl). exact Hi.
        -- rewrite <- Efl. eapply bucket_nodup; eassumption.
        -- rewrite <- Efl. eapply bucket_separated; eassumption.
      * rewrite fl_set_other by exact Hji.
        eapply ring_frame; [|apply (ok_ring _ _ _ _ Hl); exact Hj].
        intros x Hx.
        assert (Nx : node st fl x) by (exists j; auto).
        assert (Hxi : ~ In x (s :: fl i)).
        { intros [E|Hin]; destruct Hx as [E'|Hin'].
          - subst s. rewrite <- E' in E.
            rewrite !(bucket_eq _ _ _ Hok) in E by assumption. lia.
          - eapply member_not_sentinel; [exact Hinv|exact Hj|exact Hi|exact Hin'|].
            symmetry. exact E.
          - eapply member_not_sentinel; [exact Hinv|exact Hi|exact Hj|exact Hin|].
            symmetry. exact E'.
          - apply Hji. eapply member_bucket_unique; eassumption. }
        assert (x <> b) by (intros ->; apply Hxi; right; exact Hbi).
        assert (x <> last l1 s) by (intros ->; apply Hxi; exact Hp).
        assert (x <> hd s l2) by (intros ->; apply Hxi; exact Hn).
        destruct (node_sep _ _ _ _ _ _ Hinv Nx Nb) as [?|[?|?]];
          [contradiction| |];
        (destruct (node_sep _ _ _ _ _ _ Hinv Nx Np) as [?|[?|?]];
          [contradiction| |]);
        (destruct (node_sep _ _ _ _ _ _ Hinv Nx Nn) as [?|[?|?]];
          [contradiction| |]);
        split; apply Hf; lia.
    + intros j Hj. destruct (Z.eq_dec j i) as [->|Hji].
      * rewrite fl_set_same. eapply NoDup_remove_1. rewrite <- Efl.
        apply (ok_nodup _ _ _ _ Hl). exact Hi.
      * rewrite fl_set_other by exact Hji. apply (ok_nodup _ _ _ _ Hl). exact Hj.
    + intros j x Hj Hin.
      assert (Hx : In x (fl j) /\ x <> b).
      { destruct (Z.eq_dec j i) as [->|Hji].
        - rewrite fl_set_same in Hin. split.
          + rewrite Efl. apply in_app_or in Hin as [?|?];
              apply in_or_app; [left|right; right]; assumption.
          + intros ->. pose proof (ok_nodup _ _ _ _ Hl i Hi) as Hnd.
            rewrite Efl in Hnd. apply NoDup_remove_2 in Hnd. contradiction.
        - rewrite fl_set_other in Hin by exact Hji. split; [exact Hin|].
          intros ->. apply Hji. eapply member_bucket_unique; eassumption. }
      destruct Hx as [Hx Hxb].
      destruct (ok_member _ _ _ _ Hl j x Hj Hx) as (sx & B & Cx & Nh).
      exists sx. repeat split; try assumption.
      intros [E|Hh]; [congruence|contradiction].
    + intros c sc Hc Hnh.
      assert (Hcb : c <> b) by (intros ->; apply Hnh; left; reflexivity).
      assert (Hch : ~ In c hole) by (intros Hh; apply Hnh; right; exact Hh).
      pose proof (ok_linked _ _ _ _ Hl c sc Hc Hch) as Hin.
      destruct (Z.eq_dec (classof sc) i) as [E|Hne].
      * rewrite E, fl_set_same. rewrite E, Efl in Hin.
        apply in_app_or in Hin as [?|[?|?]];
          [apply in_or_app; left; assumption|congruence
          |apply in_or_app; right; assumption].
      * rewrite fl_set_other by exact Hne. exact Hin.
  - eapply no_adjacent_free_weaken; [|exact Hadj]. intros x Hx. right. exact Hx.
Qed.

Lemma node_slot st bs fl hole x :
  inv st bs fl hole -> node st fl x -> slot st bs x.
Proof.
  intros Hinv (i & Hi & [<-|Hin]).
  - left. exists i. auto.
  - right. destruct (member_block _ _ _ _ _ _ Hinv Hi Hin) as (sz & H & _).
    exists sz, false. exact H.
Qed.

Lemma slot_sep st bs x y :
  heap_ok st bs -> slot st bs x -> slot st bs y -> x = y \/ sep x y.
Proof.
  intros Hok Hx Hy. pose proof (heap_ok_bounds _ _ Hok) as Hb.
  destruct Hx as [(i & Hi & ->)|(sz & al & Hblk)];
  destruct Hy as [(j & Hj & ->)|(sz' & al' & Hblk')]; unfold sep;
    rewrite ?(bucket_eq _ _ _ Hok) by assumption.
  - lia.
  - pose proof (block_facts _ _ _ _ _ Hok Hblk'). lia.
  - pose proof (block_facts _ _ _ _ _ Hok Hblk). lia.
  - pose proof (block_facts _ _ _ _ _ Hok Hblk).
    pose proof (block_facts _ _ _ _ _ Hok Hblk').
    destruct (chain_disjoint _ _ _ _ _ _ _ _ _ _ (ok_chain _ _ Hok) Hblk Hblk')
      as [E|[?|?]]; [inversion E; auto|lia|lia].
Qed.

Lemma slot_not_tag st bs x a :
  heap_ok st bs -> slot st bs x -> a = x \/ a = x + 8 -> ~ tag_cell st bs a.
Proof.
  intros Hok Hx Ha Ht. pose proof (heap_ok_bounds _ _ Hok) as Hb.
  destruct Hx as [(i & Hi & ->)|(sz & al & Hblk)].
  - rewrite (bucket_eq _ _ _ Hok Hi) in Ha.
    destruct Ht as [->|[->|[->|(b & sb & ab & Hin & Ht)]]]; try lia.
    pose proof (block_facts _ _ _ _ _ Hok Hin). lia.
  - pose proof (block_facts _ _ _ _ _ Hok Hblk).
    destruct Ht as [->|[->|[->|(b & sb & ab & Hin & Ht)]]]; try lia.
    pose proof (block_facts _ _ _ _ _ Hok Hin).
    destruct (chain_disjoint _ _ _ _ _ _ _ _ _ _ (ok_chain _ _ Hok) Hblk Hin)
      as [E|[?|?]]; try (inversion E; subst); lia.
Qed.

Lemma heap_ok_frame st st' bs :
  heap_ok st bs -> same_globals st st' ->
  (forall a, tag_cell st bs a -> mem st' a = mem st a) ->
  heap_ok st' bs.
Proof.
  intros Hok (G1 & G2 & G3 & G4 & G5 & G6) Htag.
  destruct Hok as [H1 H2 H3 H4 H5 H6 H7 H8 H9 H10 H11 H12].
  constructor; rewrite ?G1, ?G2, ?G3, ?G4, ?G5, ?G6; try assumption.
  - consts. rewrite Htag by (unfold tag_cell; auto). exact H9.
  - rewrite Htag by (unfold tag_cell; auto). exact H10.
  - eapply chain_frame; [|exact H11].
    intros b sz al Hin.
    split; apply Htag; do 3 right; exists b, sz, al; auto.
  - consts. rewrite Htag by (unfold tag_cell; auto). exact H12.
Qed.

(** Linking the block [b] at the tail of the list of its class. *)
Lemma inv_insert st st' bs fl hole b sz :
  inv st bs fl (b :: hole) -> same_globals st st' ->
  In (b, sz, false) bs -> ~ In b hole -> no_adjacent_free hole bs ->
  mem st' (b + 8) = last (fl (classof sz)) (bucket st (classof sz)) ->
  mem st' b = bucket st (classof sz) ->
  mem st' (last (fl (classof sz)) (bucket st (classof sz))) = b ->
  mem st' (bucket st (classof sz) + 8) = b ->
  (forall a, a <> b + 8 -> a <> b ->
             a <> last (fl (classof sz)) (bucket st (classof sz)) ->
             a <> bucket st (classof sz) + 8 -> mem st' a = mem st a) ->
  inv st' bs (fl_set fl (classof sz) (fl (classof sz) ++ [b])) hole.
Proof.
  intros Hinv Hg Hblk Hbh Hadj' E1 E2 E3 E4 Hf.
  pose proof Hinv as (Hok & Hl & Hadj).
  pose proof (classof_range sz) as Hi.
  set (i := classof sz) in *. set (s := bucket st i) in *.
  assert (Hq : In (last (fl i) s) (s :: fl i)) by apply last_In.
  assert (Nq : node st fl (last (fl i) s)) by (exists i; auto).
  assert (Ns : node st fl s) by (exists i; split; [exact Hi|left; reflexivity]).
  assert (Sb : slot st bs b) by (right; exists sz, false; exact Hblk).
  assert (Hbn : forall j, 0 <= j < 15 -> ~ In b (bucket st j :: fl j)).
  { intros j Hj [E|Hin].
    - pose proof (heap_ok_bounds _ _ Hok). pose proof (block_facts _ _ _ _ _ Hok Hblk).
      rewrite (bucket_eq _ _ _ Hok Hj) in E. lia.
    - destruct (ok_member _ _ _ _ Hl j b Hj Hin) as (? & _ & _ & Hn).
      apply Hn. left. reflexivity. }
  assert (Hsepb : forall x, node st fl x -> sep x b).
  { intros x Nx. destruct (slot_sep _ _ x b Hok) as [->|?]; auto.
    - eapply node_slot; eassumption.
    - destruct Nx as (j & Hj & Hin). exfalso. eapply Hbn; eassumption. }
  split; [|split].
  - eapply heap_ok_frame; [exact Hok|exact Hg|].
    intros a Ht. apply Hf; intros ->; revert Ht.
    + apply (slot_not_tag st bs b); auto.
    + apply (slot_not_tag st bs b); auto.
    + apply (slot_not_tag st bs (last (fl i) s)); auto.
      eapply node_slot; eassumption.
    + apply (slot_not_tag st bs s); auto.
      eapply node_slot; eassumption.
  - constructor.
    + intros j Hj. rewrite (bucket_same _ _ _ Hg).
      destruct (Z.eq_dec j i) as [->|Hji].
      * rewrite fl_set_same. fold s.
        eapply ring_insert; [| | | |exact E1|exact E2|exact E3|exact E4|exact Hf].
        -- apply (ok_ring _ _ _ _ Hl). exact Hi.
        -- eapply bucket_nodup; eassumption.
        -- intros x y [<-|Hx] [<-|Hy].
           ++ left. reflexivity.
           ++ right. destruct (Hsepb y) as [?|?]; [exists i; auto| |];
                unfold sep; lia.
           ++ right. apply Hsepb. exists i; auto.
           ++ eapply bucket_separated; eassumption.
        -- apply Hbn. exact Hi.
      * rewrite fl_set_other by exact Hji.
        eapply ring_frame; [|apply (ok_ring _ _ _ _ Hl); exact Hj].
        intros x Hx.
        assert (Nx : node st fl x) by (exists j; auto).
        assert (Hxi : ~ In x (s :: fl i)).
        { intros [E|Hin]; destruct Hx as [E'|Hin'].
          - subst s. rewrite <- E' in E.
            rewrite !(bucket_eq _ _ _ Hok) in E by assumption. lia.
          - eapply member_not_sentinel; [exact Hinv|exact Hj|exact Hi|exact Hin'|].
            symmetry. exact E.
          - eapply member_not_sentinel; [exact Hinv|exact Hi|exact Hj|exact Hin|].
            symmetry. exact E'.
          - apply Hji. eapply member_bucket_unique; eassumption. }
        assert (x <> last (fl i) s) by (intros ->; apply Hxi; exact Hq).
        assert (x <> s) by (intros ->; apply Hxi; left; reflexivity).
        pose proof (Hsepb x Nx) as [?|?];
        (destruct (node_sep _ _ _ _ _ _ Hinv Nx Nq) as [?|[?|?]];
          [contradiction| |]);
        (destruct (node_sep _ _ _ _ _ _ Hinv Nx Ns) as [?|[?|?]];
          [contradiction| |]);
        split; apply Hf; lia.
    + intros j Hj. destruct (Z.eq_dec j i) as [->|Hji].
      * rewrite fl_set_same. apply NoDup_app.
        -- apply (ok_nodup _ _ _ _ Hl). exact Hi.
        -- constructor; [intros []|constructor].
        -- intros a Ha [<-|[]]. apply (Hbn i Hi). right. exact Ha.
      * rewrite fl_set_other by exact Hji. apply (ok_nodup _ _ _ _ Hl). exact Hj.
    + intros j x Hj Hin.
      destruct (Z.eq_dec j i) as [->|Hji].
      * rewrite fl_set_same in Hin. apply in_app_or in Hin as [Hin|[<-|[]]].
        -- destruct (ok_member _ _ _ _ Hl i x Hi Hin) as (sx & B & Cx & Nh).
           exists sx. repeat split; try assumption.
           intros Hh. apply Nh. right. exact Hh.
        -- exists sz. auto.
      * rewrite fl_set_other in Hin by exact Hji.
        destruct (ok_member _ _ _ _ Hl j x Hj Hin) as (sx & B & Cx & Nh).
        exists sx. repeat split; try assumption.
        intros Hh. apply Nh. right. exact Hh.
    + intros c sc Hc Hnh.
      destruct (Z.eq_dec c b) as [->|Hcb].
      * destruct (chain_unique _ _ _ _ _ _ _ _ _ (ok_chain _ _ Hok) Hc Hblk)
          as [-> _].
        fold i. rewrite fl_set_same. apply in_or_app. right. left. reflexivity.
      * assert (Hin : In c (fl (classof sc))).
        { apply (ok_linked _ _ _ _ Hl c sc Hc). intros [E|Hh]; auto. }
        destruct (Z.eq_dec (classof sc) i) as [E|Hne].
        -- rewrite E, fl_set_same. apply in_or_app. left. rewrite <- E. exact Hin.
        -- rewrite fl_set_other by exact Hne. exact Hin.
  - exact Hadj'.
Qed.

Lemma chain_end_unique m bs : forall s e e',
  chain m s bs e -> chain m s bs e' -> e = e'.
Proof.
  induction bs as [|[[b sz] al] bs IH]; intros s e e'; cbn [chain].
  - intros <- <-. reflexivity.
  - intros (_ & _ & _ & _ & _ & H) (_ & _ & _ & _ & _ & H'). eapply IH; eassumption.
Qed.

(** Rewriting the tags of a run of blocks that are not linked into another
    run over the same words. *)
Lemma inv_retag st st' L run run' R fl hole hole' s0 e0 :
  inv st (L ++ run ++ R) fl hole -> same_globals st st' ->
  chain (mem st) (heap_listp st + 16) L s0 ->
  chain (mem st) s0 run e0 ->
  chain (mem st') s0 run' e0 ->
  (forall a, ~ (s0 - 8 <= a < e0 - 8) -> mem st' a = mem st a) ->
  (forall b sz, In (b, sz, false) run -> In b hole) ->
  (forall b sz, In (b, sz, false) run' -> In b hole') ->
  (forall x, In x hole -> In x hole') ->
  (forall x, In x hole' -> In x hole \/ s0 <= x < e0) ->
  inv st' (L ++ run' ++ R) fl hole'.
Proof.
  intros Hinv Hg HL Hrun Hrun' Hf Hh Hh' Hsub Hnew.
  pose proof Hinv as (Hok & Hl & Hadj).
  pose proof (heap_ok_bounds _ _ Hok) as Hb.
  pose proof (ok_chain _ _ Hok) as Hc. consts.
  apply chain_app in Hc as (mid1 & HL' & Hc).
  apply chain_app in Hc as (mid2 & Hrun0 & HR).
  assert (mid1 = s0) by (eapply chain_end_unique; eassumption). subst mid1.
  assert (mid2 = e0) by (eapply chain_end_unique; eassumption). subst mid2.
  pose proof (chain_le _ _ _ _ HL) as Hle1.
  pose proof (chain_le _ _ _ _ Hrun) as Hle2.
  pose proof (chain_le _ _ _ _ HR) as Hle3.
  assert (HinL : forall b sz al, In (b, sz, al) L ->
            b + sz <= s0 /\ 32 <= sz /\ heap_listp st + 16 <= b).
  { intros b sz al Hin. pose proof (chain_In _ _ _ _ _ _ _ HL Hin). lia. }
  assert (HinR : forall b sz al, In (b, sz, al) R -> e0 <= b /\ 32 <= sz).
  { intros b sz al Hin. pose proof (chain_In _ _ _ _ _ _ _ HR Hin). lia. }
  assert (HinRun : forall b sz al, In (b, sz, al) run -> s0 <= b < e0).
  { intros b sz al Hin. pose proof (chain_In _ _ _ _ _ _ _ Hrun Hin). lia. }
  assert (HinRun' : forall b sz al, In (b, sz, al) run' -> s0 <= b < e0).
  { intros b sz al Hin. pose proof (chain_In _ _ _ _ _ _ _ Hrun' Hin). lia. }
  (* a linked block lies in [L] or in [R] *)
  assert (Hmem : forall j x, 0 <= j < 15 -> In x (fl j) ->
            exists sx, classof sx = j /\ ~ In x hole
                       /\ (In (x, sx, false) L \/ In (x, sx, false) R)).
  { intros j x Hj Hin.
    destruct (ok_member _ _ _ _ Hl j x Hj Hin) as (sx & B & Cx & Nh).
    exists sx. repeat split; try assumption.
    apply in_app_or in B as [B|B]; [left; exact B|].
    apply in_app_or in B as [B|B]; [|right; exact B].
    exfalso. apply Nh. eapply Hh. exact B. }
  destruct Hg as (G1 & G2 & G3 & G4 & G5 & G6).
  split; [|split].
  - destruct Hok as [H1 H2 H3 H4 H5 H6 H7 H8 H9 H10 H11 H12]. consts.
    constructor; consts; rewrite ?G1, ?G2, ?G3, ?G4, ?G5, ?G6; try assumption.
    + rewrite Hf by lia. exact H9.
    + rewrite Hf by lia. exact H10.
    + apply chain_app. exists s0. split.
      * eapply chain_frame; [|exact HL]. intros b sz al Hin.
        pose proof (HinL _ _ _ Hin). split; apply Hf; lia.
      * apply chain_app. exists e0. split; [exact Hrun'|].
        eapply chain_frame; [|exact HR]. intros b sz al Hin.
        pose proof (HinR _ _ _ Hin). split; apply Hf; lia.
    + rewrite Hf by lia. exact H12.
  - constructor.
    + intros j Hj.
      replace (bucket st' j) with (bucket st j)
        by (unfold bucket; rewrite G5; reflexivity).
      eapply ring_frame; [|apply (ok_ring _ _ _ _ Hl); exact Hj].
      intros x [<-|Hin].
      * rewrite (bucket_eq _ _ _ Hok Hj). split; apply Hf; lia.
      * destruct (Hmem j x Hj Hin) as (sx & _ & _ & [B|B]).
        -- pose proof (HinL _ _ _ B). split; apply Hf; lia.
        -- pose proof (HinR _ _ _ B). split; apply Hf; lia.
    + apply (ok_nodup _ _ _ _ Hl).
    + intros j x Hj Hin.
      destruct (Hmem j x Hj Hin) as (sx & Cx & Nh & B).
      exists sx. split; [|split; [exact Cx|]].
      * destruct B as [B|B]; apply in_or_app; [left; exact B|right].
        apply in_or_app. right. exact B.
      * intros Hx. destruct (Hnew x Hx) as [?|?]; [contradiction|].
        destruct B as [B|B];
          [pose proof (HinL _ _ _ B)|pose proof (HinR _ _ _ B)]; lia.
    + intros c sc Hc Hnh.
      assert (Hc' : In (c, sc, false) (L ++ run ++ R)).
      { apply in_app_or in Hc as [B|B]; [apply in_or_app; left; exact B|].
        apply in_app_or in B as [B|B].
        - exfalso. apply Hnh. eapply Hh'. exact B.
        - apply in_or_app. right. apply in_or_app. right. exact B. }
      apply (ok_linked _ _ _ _ Hl c sc Hc'). intros Hx. apply Hnh, Hsub, Hx.
  - intros b1 s1 b2 s2 B1 B2 E.
    assert (Hcase : forall c sc, In (c, sc, false) (L ++ run' ++ R) ->
              In c hole' \/ In (c, sc, false) (L ++ run ++ R)).
    { intros c sc Hc.
      apply in_app_or in Hc as [B|B];
        [right; apply in_or_app; left; exact B|].
      apply in_app_or in B as [B|B].
      - left. eapply Hh'. exact B.
      - right. apply in_or_app. right. apply in_or_app. right. exact B. }
    destruct (Hcase _ _ B1) as [?|B1']; [left; assumption|].
    destruct (Hcase _ _ B2) as [?|B2']; [right; assumption|].
    destruct (Hadj _ _ _ _ B1' B2' E); [left|right]; apply Hsub; assumption.
Qed.

Lemma inv_hole_drop st bs fl hole x :
  inv st bs fl (x :: hole) -> (forall sz, ~ In (x, sz, false) bs) ->
  inv st bs fl hole.
Proof.
  intros (Hok & Hl & Hadj) Hx. split; [exact Hok|split].
  - constructor.
    + apply (ok_ring _ _ _ _ Hl).
    + apply (ok_nodup _ _ _ _ Hl).
    + intros j y Hj Hin.
      destruct (ok_member _ _ _ _ Hl j y Hj Hin) as (sy & B & Cy & Nh).
      exists sy. repeat split; try assumption.
      intros Hh. apply Nh. right. exact Hh.
    + intros c sc Hc Hnh. apply (ok_linked _ _ _ _ Hl c sc Hc).
      intros [E|Hh]; [|contradiction]. subst c. eapply Hx. exact Hc.
  - intros b1 s1 b2 s2 B1 B2 E.
    destruct (Hadj _ _ _ _ B1 B2 E) as [[E'|?]|[E'|?]]; auto.
    + rewrite <- E' in B1. exfalso. eapply Hx. exact B1.
    + rewrite <- E' in B2. exfalso. eapply Hx. exact B2.
Qed.

(** A new free block at the end of the heap. *)
Lemma inv_extend st st' bs fl size :
  inv st bs fl [] -> 32 <= size -> size mod 8 = 0 ->
  mem_brk st + size <= mem_max_addr st ->
  mem_start_brk st' = mem_start_brk st ->
  mem_brk st' = mem_brk st + size ->
  mem_max_addr st' = mem_max_addr st ->
  heap_listp st' = heap_listp st ->
  free_listp st' = free_listp st ->
  MAX_SIZE st' = MAX_SIZE st ->
  mem st' (mem_brk st - 8) = PACK size 0 ->
  mem st' (mem_brk st + size - 16) = PACK size 0 ->
  mem st' (mem_brk st + size - 8) = PACK 0 1 ->
  (forall a, a < mem_brk st - 8 -> mem st' a = mem st a) ->
  inv st' (bs ++ [(mem_brk st, size, false)]) fl [mem_brk st].
Proof.
  intros Hinv Hsz Hal Hroom G1 G2 G3 G4 G5 G6 T1 T2 T3 Hf.
  pose proof Hinv as (Hok & Hl & Hadj).
  pose proof (heap_ok_bounds _ _ Hok) as Hb.
  assert (Hblk : forall b sz al, In (b, sz, al) bs ->
            heap_listp st + 16 <= b /\ b + sz <= mem_brk st /\ 32 <= sz).
  { intros b sz al Hin. pose proof (block_facts _ _ _ _ _ Hok Hin). lia. }
  split; [|split].
  - destruct Hok as [H1 H2 H3 H4 H5 H6 H7 H8 H9 H10 H11 H12]. consts.
    constructor; consts; rewrite ?G1, ?G2, ?G3, ?G4, ?G5, ?G6; try assumption.
    + rewrite Hf by lia. exact H9.
    + rewrite Hf by lia. exact H10.
    + apply chain_app. exists (mem_brk st). split.
      * eapply chain_frame; [|exact H11]. intros b sz al Hin.
        pose proof (Hblk _ _ _ Hin). split; apply Hf; lia.
      * cbn [chain b2z]. consts. repeat split; auto.
  - constructor.
    + intros j Hj.
      replace (bucket st' j) with (bucket st j)
        by (unfold bucket; rewrite G5; reflexivity).
      eapply ring_frame; [|apply (ok_ring _ _ _ _ Hl); exact Hj].
      intros x [<-|Hin].
      * rewrite (bucket_eq _ _ _ Hok Hj). split; apply Hf; lia.
      * destruct (ok_member _ _ _ _ Hl j x Hj Hin) as (sx & B & _).
        pose proof (Hblk _ _ _ B). split; apply Hf; lia.
    + apply (ok_nodup _ _ _ _ Hl).
    + intros j x Hj Hin.
      destruct (ok_member _ _ _ _ Hl j x Hj Hin) as (sx & B & Cx & _).
      exists sx. split; [apply in_or_app; left; exact B|].
      split; [exact Cx|]. intros [E|[]]. pose proof (Hblk _ _ _ B). lia.
    + intros c sc Hc Hnh. apply in_app_or in Hc as [B|[E|[]]].
      * apply (ok_linked _ _ _ _ Hl c sc B). intros [].
      * inversion E; subst. exfalso. apply Hnh. left. reflexivity.
  - intros b1 s1 b2 s2 B1 B2 E.
    apply in_app_or in B1 as [B1|[E1|[]]];
      [|inversion E1 as [[Eb Es]]; left; left; reflexivity].
    apply in_app_or in B2 as [B2|[E2|[]]];
      [|inversion E2 as [[Eb Es]]; right; left; reflexivity].
    destruct (Hadj _ _ _ _ B1 B2 E) as [[]|[]].
Qed.

(** ** The list primitives on a well-formed heap *)

Lemma slot_valid st bs x :
  heap_ok st bs -> slot st bs x ->
  mem_start_brk st <= x /\ x + 16 <= mem_max_addr st /\ x mod 8 = 0.
Proof.
  intros Hok Hx. pose proof (heap_ok_bounds _ _ Hok) as Hb.
  destruct Hx as [(i & Hi & ->)|(sz & al & Hblk)].
  - rewrite (bucket_eq _ _ _ Hok Hi). repeat split; try lia. zlia.
  - pose proof (block_facts _ _ _ _ _ Hok Hblk). repeat split; lia.
Qed.

Lemma valid_addr_set_mem st m p : valid_addr (set_mem st m) p = valid_addr st p.
Proof. reflexivity. Qed.

Ltac wp_step :=
  lazymatch goal with
  | |- wp (bind _ _) _ _ => apply wp_bind
  | |- wp (ret _) _ _ => apply wp_ret
  | |- wp (GET _) _ _ => apply wp_GET; [rewrite ?valid_addr_set_mem|cbn [mem set_mem]]
  | |- wp (PUT _ _) _ _ => apply wp_PUT; [rewrite ?valid_addr_set_mem|cbn [mem set_mem]]
  | |- wp (GET_SIZE _) _ _ =>
      apply wp_GET_SIZE; [rewrite ?valid_addr_set_mem|cbn [mem set_mem]]
  | |- wp (GET_ALLOC _) _ _ =>
      apply wp_GET_ALLOC; [rewrite ?valid_addr_set_mem|cbn [mem set_mem]]
  | |- wp get_state _ _ => apply wp_get_state
  end.

Ltac valid_tac := apply valid_addr_intro; lia.

(** Words of free blocks and of the bucket array lie outside the allocated
    blocks. *)
Lemma free_cell_not_alloc st bs x a c sc :
  heap_ok st bs ->
  (exists i, 0 <= i < 15 /\ x = bucket st i) \/ (exists sz, In (x, sz, false) bs) ->
  a = x \/ a = x + 8 -> In (c, sc, true) bs ->
  ~ (c - 8 <= a < c + sc - 8).
Proof.
  intros Hok Hx Ha Hc. pose proof (heap_ok_bounds _ _ Hok) as Hb.
  pose proof (block_facts _ _ _ _ _ Hok Hc).
  destruct Hx as [(i & Hi & ->)|(sz & Hblk)].
  - rewrite (bucket_eq _ _ _ Hok Hi) in Ha. lia.
  - pose proof (block_facts _ _ _ _ _ Hok Hblk).
    destruct (chain_disjoint _ _ _ _ _ _ _ _ _ _ (ok_chain _ _ Hok) Hblk Hc)
      as [E|[?|?]]; [discriminate E|lia|lia].
Qed.

Lemma node_free st bs fl hole x :
  inv st bs fl hole -> node st fl x ->
  (exists i, 0 <= i < 15 /\ x = bucket st i) \/ (exists sz, In (x, sz, false) bs).
Proof.
  intros Hinv (i & Hi & [<-|Hin]).
  - left. exists i. auto.
  - right. destruct (member_block _ _ _ _ _ _ Hinv Hi Hin) as (sz & H & _).
    exists sz. exact H.
Qed.

Lemma keeps_alloc_refl st bs x : keeps_alloc st bs st bs x.
Proof. intros b sz Hin _. auto. Qed.

Lemma keeps_alloc_trans st1 bs1 st2 bs2 st3 bs3 x :
  keeps_alloc st1 bs1 st2 bs2 x -> keeps_alloc st2 bs2 st3 bs3 x ->
  keeps_alloc st1 bs1 st3 bs3 x.
Proof.
  intros H12 H23 b sz Hin Hx.
  destruct (H12 b sz Hin Hx) as [Hin2 E12].
  destruct (H23 b sz Hin2 Hx) as [Hin3 E23].
  split; [exact Hin3|]. intros a Ha. rewrite E23, E12 by exact Ha. reflexivity.
Qed.

Lemma wp_remove_circular_lists st bs fl hole b sz (Q : unit -> state -> Prop) :
  inv st bs fl hole -> In (b, sz, false) bs -> ~ In b hole ->
  (forall st' fl',
     inv st' bs fl' (b :: hole) -> same_globals st st' ->
     (forall x, keeps_alloc st bs st' bs x) ->
     (exists l1 l2, fl (classof sz) = l1 ++ b :: l2
                    /\ fl' = fl_set fl (classof sz) (l1 ++ l2)) ->
     mem st' b = NULL /\ mem st' (b + WSIZE) = NULL ->
     Q tt st') ->
  wp (remove_circular b) Q st.
Proof.
  intros Hinv Hblk Hbh HQ. pose proof Hinv as (Hok & Hl & Hadj).
  pose proof (heap_ok_bounds _ _ Hok) as Hb.
  pose proof (classof_range sz) as Hi.
  pose proof (ok_linked _ _ _ _ Hl b sz Hblk Hbh) as Hin.
  destruct (in_split _ _ Hin) as (l1 & l2 & Efl).
  pose proof (ok_ring _ _ _ _ Hl _ Hi) as Hring. rewrite Efl in Hring.
  destruct (ring_prev_next _ _ _ _ _ Hring) as [Ep En].
  set (s := bucket st (classof sz)) in *.
  assert (Nb : node st fl b) by (exists (classof sz); split; [exact Hi|right; exact Hin]).
  assert (Np : node st fl (last l1 s)).
  { exists (classof sz). split; [exact Hi|].
    destruct (last_In l1 s) as [<-|H]; [left; reflexivity|].
    right. rewrite Efl. apply in_or_app. left. exact H. }
  assert (Nn : node st fl (hd s l2)).
  { exists (classof sz). split; [exact Hi|].
    destruct l2 as [|n r]; [left; reflexivity|].
    right. rewrite Efl. apply in_or_app. right. right. left. reflexivity. }
  pose proof (slot_valid _ _ _ Hok (node_slot _ _ _ _ _ Hinv Nb)) as Vb.
  pose proof (slot_valid _ _ _ Hok (node_slot _ _ _ _ _ Hinv Np)) as Vp.
  pose proof (slot_valid _ _ _ Hok (node_slot _ _ _ _ _ Hinv Nn)) as Vn.
  assert (Hpb : last l1 s <> b).
  { pose proof (bucket_nodup _ _ _ _ (classof sz) Hinv Hi) as Hnd.
    fold s in Hnd. rewrite Efl in Hnd.
    change (s :: l1 ++ b :: l2) with ((s :: l1) ++ b :: l2) in Hnd.
    apply NoDup_remove_2 in Hnd. intros E. apply Hnd.
    apply in_or_app. left. rewrite <- E. apply last_In. }
  assert (Spb : sep (last l1 s) b).
  { destruct (node_sep _ _ _ _ _ _ Hinv Np Nb); [contradiction|assumption]. }
  assert (Snb : hd s l2 = b \/ sep (hd s l2) b) by (eapply node_sep; eassumption).
  assert (Spn : last l1 s = hd s l2 \/ sep (last l1 s) (hd s l2))
    by (eapply node_sep; eassumption).
  assert (Hnb : hd s l2 <> b).
  { pose proof (bucket_nodup _ _ _ _ (classof sz) Hinv Hi) as Hnd.
    fold s in Hnd. rewrite Efl in Hnd.
    change (s :: l1 ++ b :: l2) with ((s :: l1) ++ b :: l2) in Hnd.
    apply NoDup_remove_2 in Hnd. intros E. apply Hnd.
    apply in_or_app. rewrite <- E.
    destruct l2 as [|n r]; [left; left; reflexivity|right; left; reflexivity]. }
  unfold sep in *.
  unfold remove_circular, prev_of, next_of. consts.
  rewrite !(wrap_small (b + 8)) by lia.
  wp_step. wp_step; [valid_tac|]. rewrite Ep.
  wp_step. wp_step; [valid_tac|]. rewrite En.
  wp_step. wp_step; [valid_tac|].
  wp_step. wp_step; [valid_tac|]. rewrite upd_other by lia. rewrite En.
  wp_step. wp_step; [valid_tac|]. rewrite upd_other by lia. rewrite Ep.
  rewrite (wrap_small (hd s l2 + 8)) by lia.
  wp_step. wp_step; [valid_tac|].
  wp_step. wp_step; [valid_tac|].
  wp_step; [valid_tac|].
  match goal with |- Q tt ?st4 => set (st' := st4) end.
  assert (Hf : forall a, a <> last l1 s -> a <> hd s l2 + 8 -> a <> b ->
                         a <> b + 8 -> mem st' a = mem st a).
  { intros a A1 A2 A3 A4. subst st'. cbn [mem set_mem].
    rewrite !upd_other by assumption. reflexivity. }
  apply (HQ st' (fl_set fl (classof sz) (l1 ++ l2))).
  - eapply inv_remove; try eassumption.
    + subst st'. unfold same_globals. cbn. tauto.
    + subst st'. cbn [mem set_mem]. fold s.
      rewrite !upd_other by lia. apply upd_same.
    + subst st'. cbn [mem set_mem]. fold s.
      rewrite !upd_other by lia. apply upd_same.
  - subst st'. unfold same_globals. cbn. tauto.
  - intros x c sc Hc _. split; [exact Hc|]. intros a Ha.
    pose proof (node_free _ _ _ _ _ Hinv Np) as Fp.
    pose proof (node_free _ _ _ _ _ Hinv Nn) as Fn.
    pose proof (node_free _ _ _ _ _ Hinv Nb) as Fb.
    apply Hf; intros ->; revert Ha.
    + exact (free_cell_not_alloc st bs _ _ c sc Hok Fp (or_introl eq_refl) Hc).
    + exact (free_cell_not_alloc st bs _ _ c sc Hok Fn (or_intror eq_refl) Hc).
    + exact (free_cell_not_alloc st bs _ _ c sc Hok Fb (or_introl eq_refl) Hc).
    + exact (free_cell_not_alloc st bs _ _ c sc Hok Fb (or_intror eq_refl) Hc).
  - exists l1, l2. split; [exact Efl|reflexivity].
  - subst st'. cbn [mem set_mem]. unfold NULL. split.
    + rewrite upd_other by lia. apply upd_same.
    + apply upd_same.
Qed.

Lemma wp_remove_circular st bs fl hole b sz (Q : unit -> state -> Prop) :
  inv st bs fl hole -> In (b, sz, false) bs -> ~ In b hole ->
  (forall st' fl',
     inv st' bs fl' (b :: hole) -> same_globals st st' ->
     (forall x, keeps_alloc st bs st' bs x) -> Q tt st') ->
  wp (remove_circular b) Q st.
Proof.
  intros Hinv Hblk Hbh HQ.
  eapply wp_remove_circular_lists; [exact Hinv|exact Hblk|exact Hbh|].
  intros st' fl' H1 H2 H3 _ _. exact (HQ st' fl' H1 H2 H3).
Qed.

Lemma wp_insert_circular_lists st bs fl hole b sz (Q : unit -> state -> Prop) :
  inv st bs fl (b :: hole) -> In (b, sz, false) bs -> ~ In b hole ->
  no_adjacent_free hole bs ->
  (forall st' fl',
     inv st' bs fl' hole -> same_globals st st' ->
     (forall x, keeps_alloc st bs st' bs x) ->
     fl' = fl_set fl (classof sz) (fl (classof sz) ++ [b]) ->
     Q tt st') ->
  wp (insert_circular b (bucket st (classof sz))) Q st.
Proof.
  intros Hinv Hblk Hbh Hadj' HQ. pose proof Hinv as (Hok & Hl & Hadj).
  pose proof (heap_ok_bounds _ _ Hok) as Hb.
  pose proof (classof_range sz) as Hi.
  pose proof (ok_ring _ _ _ _ Hl _ Hi) as (_ & _ & Eq).
  set (s := bucket st (classof sz)) in *.
  set (q := last (fl (classof sz)) s) in *.
  assert (Ns : node st fl s)
    by (exists (classof sz); split; [exact Hi|left; reflexivity]).
  assert (Nq : node st fl q) by (exists (classof sz); split; [exact Hi|apply last_In]).
  assert (Sb : slot st bs b) by (right; exists sz, false; exact Hblk).
  pose proof (slot_valid _ _ _ Hok Sb) as Vb.
  pose proof (slot_valid _ _ _ Hok (node_slot _ _ _ _ _ Hinv Ns)) as Vs.
  pose proof (slot_valid _ _ _ Hok (node_slot _ _ _ _ _ Hinv Nq)) as Vq.
  assert (Hbn : forall x, node st fl x -> sep x b).
  { intros x Nx.
    destruct (slot_sep _ _ x b Hok (node_slot _ _ _ _ _ Hinv Nx) Sb) as [->|?];
      [|assumption].
    exfalso. destruct Nx as (j & Hj & [E|Hin]).
    - pose proof (block_facts _ _ _ _ _ Hok Hblk).
      rewrite (bucket_eq _ _ _ Hok Hj) in E. lia.
    - destruct (ok_member _ _ _ _ Hl j b Hj Hin) as (? & _ & _ & Hn).
      apply Hn. left. reflexivity. }
  pose proof (Hbn _ Ns) as Ssb. pose proof (Hbn _ Nq) as Sqb.
  assert (Sqs : q = s \/ sep q s) by (eapply node_sep; eassumption).
  unfold sep in *.
  unfold insert_circular, prev_of, next_of. consts.
  rewrite !(wrap_small (s + 8)) by lia.
  rewrite !(wrap_small (b + 8)) by lia.
  wp_step. wp_step; [valid_tac|]. rewrite Eq.
  wp_step. wp_step; [valid_tac|].
  wp_step. wp_step; [valid_tac|].
  wp_step. wp_step; [valid_tac|]. rewrite !upd_other by lia. rewrite Eq.
  wp_step. wp_step; [valid_tac|].
  wp_step; [valid_tac|].
  match goal with |- Q tt ?st4 => set (st' := st4) end.
  assert (Hf : forall a, a <> b + 8 -> a <> b -> a <> q -> a <> s + 8 ->
                         mem st' a = mem st a).
  { intros a A1 A2 A3 A4. subst st'. cbn [mem set_mem].
    rewrite !upd_other by assumption. reflexivity. }
  apply (HQ st' (fl_set fl (classof sz) (fl (classof sz) ++ [b]))).
  - eapply inv_insert; try eassumption.
    + subst st'. unfold same_globals. cbn. tauto.
    + subst st'. cbn [mem set_mem]. fold s. fold q.
      rewrite !upd_other by lia. apply upd_same.
    + subst st'. cbn [mem set_mem]. fold s.
      rewrite !upd_other by lia. apply upd_same.
    + subst st'. cbn [mem set_mem]. fold s. fold q.
      rewrite !upd_other by lia. apply upd_same.
    + subst st'. cbn [mem set_mem]. fold s. apply upd_same.
  - subst st'. unfold same_globals. cbn. tauto.
  - intros x c sc Hc _. split; [exact Hc|]. intros a Ha.
    pose proof (node_free _ _ _ _ _ Hinv Ns) as Fs.
    pose proof (node_free _ _ _ _ _ Hinv Nq) as Fq.
    assert (Fb : (exists i, 0 <= i < 15 /\ b = bucket st i)
                 \/ (exists sz, In (b, sz, false) bs))
      by (right; exists sz; exact Hblk).
    apply Hf; intros ->; revert Ha.
    + exact (free_cell_not_alloc st bs _ _ c sc Hok Fb (or_intror eq_refl) Hc).
    + exact (free_cell_not_alloc st bs _ _ c sc Hok Fb (or_introl eq_refl) Hc).
    + exact (free_cell_not_alloc st bs _ _ c sc Hok Fq (or_introl eq_refl) Hc).
    + exact (free_cell_not_alloc st bs _ _ c sc Hok Fs (or_intror eq_refl) Hc).
  - reflexivity.
Qed.

Lemma wp_insert_circular st bs fl hole b sz (Q : unit -> state -> Prop) :
  inv st bs fl (b :: hole) -> In (b, sz, false) bs -> ~ In b hole ->
  no_adjacent_free hole bs ->
  (forall st' fl',
     inv st' bs fl' hole -> same_globals st st' ->
     (forall x, keeps_alloc st bs st' bs x) -> Q tt st') ->
  wp (insert_circular b (bucket st (classof sz))) Q st.
Proof.
  intros Hinv Hblk Hbh Hadj HQ.
  eapply wp_insert_circular_lists; [exact Hinv|exact Hblk|exact Hbh|exact Hadj|].
  intros st' fl' H1 H2 H3 _. exact (HQ st' fl' H1 H2 H3).
Qed.

(** ** The neighbours of a block *)

Lemma blk_eq_dec (x y : blk) : {x = y} + {x <> y}.
Proof.
  decide equality; [apply Bool.bool_dec|decide equality; apply Z.eq_dec].
Qed.

Lemma next_info st L b sz al R :
  heap_ok st (L ++ (b, sz, al) :: R) ->
  exists ns na,
    mem st (b + sz - 8) = PACK ns (b2z na) /\ 0 <= ns /\ ns mod 8 = 0
    /\ (na = false -> 32 <= ns /\ exists R', R = (b + sz, ns, false) :: R')
    /\ (na = true -> forall s2, ~ In (b + sz, s2, false) (L ++ (b, sz, al) :: R)).
Proof.
  intros Hok. pose proof (ok_chain _ _ Hok) as Hc.
  pose proof (ok_epilogue _ _ Hok) as He. consts.
  apply chain_app in Hc as (mid & HL & Hc). cbn [chain] in Hc. consts.
  destruct Hc as (<- & H1 & H2 & H3 & H4 & HR).
  destruct R as [|[[b' ns] na] R']; cbn [chain] in HR; consts.
  - exists 0, true. rewrite HR. split; [exact He|]. split; [lia|].
    split; [reflexivity|]. split; [discriminate|].
    intros _ s2 Hin2.
    pose proof (block_facts _ _ _ _ _ Hok Hin2). lia.
  - destruct HR as (Eb & G1 & G2 & G3 & G4 & HR). subst b'.
    exists ns, na.
    split; [exact G3|]. split; [lia|]. split; [exact G2|]. split.
    + intros ->. split; [lia|]. exists R'. reflexivity.
    + intros -> s2 Hin2.
      assert (Hin' : In (b + sz, ns, true) (L ++ (b, sz, al) :: (b + sz, ns, true) :: R'))
        by (apply in_or_app; right; right; left; reflexivity).
      destruct (chain_unique _ _ _ _ _ _ _ _ _ (ok_chain _ _ Hok) Hin2 Hin')
        as [_ E]. discriminate E.
Qed.

Lemma prev_info st L b sz al R :
  heap_ok st (L ++ (b, sz, al) :: R) ->
  exists ps pa,
    mem st (b - 16) = PACK ps (b2z pa)
    /\ mem st (b - ps - 8) = PACK ps (b2z pa)
    /\ 16 <= ps /\ ps mod 8 = 0 /\ heap_listp st <= b - ps
    /\ (pa = false -> 32 <= ps /\ exists L', L = L' ++ [(b - ps, ps, false)])
    /\ (pa = true -> forall b1 s1,
          In (b1, s1, false) (L ++ (b, sz, al) :: R) -> b1 + s1 <> b).
Proof.
  intros Hok. pose proof (ok_chain _ _ Hok) as Hc.
  pose proof (ok_prologue_hdr _ _ Hok) as Hph.
  pose proof (ok_prologue_ftr _ _ Hok) as Hpf. consts.
  apply chain_app in Hc as (mid & HL & Hc). cbn [chain] in Hc. consts.
  destruct Hc as (<- & H1 & H2 & H3 & H4 & HR).
  destruct (list_eq_dec blk_eq_dec L []) as [->|Hne].
  - cbn [chain] in HL. subst b. exists 16, true.
    replace (heap_listp st + 16 - 16) with (heap_listp st) by lia.
    replace (heap_listp st - 16 - 8) with (heap_listp st - 24) by lia.
    replace (heap_listp st + 16 - 16 - 8) with (heap_listp st - 8) by lia.
    cbn [b2z]. repeat split; try assumption; try lia; try discriminate.
    intros _ b1 s1 Hin.
    pose proof (block_facts _ _ _ _ _ Hok Hin). lia.
  - destruct (exists_last Hne) as (L' & [[p ps] pa] & ->).
    apply chain_app in HL as (mid & HL' & Hp). cbn [chain] in Hp. consts.
    destruct Hp as (Ep & G1 & G2 & G3 & G4 & Eb). subst mid.
    assert (Ep : p = b - ps) by lia. subst p.
    exists ps, pa.
    replace (b - ps + ps - 16) with (b - 16) in G4 by lia.
    assert (Hinp : In (b - ps, ps, pa)
              ((L' ++ [(b - ps, ps, pa)]) ++ (b, sz, al) :: R)).
    { apply in_or_app. left. apply in_or_app. right. left. reflexivity. }
    pose proof (block_facts _ _ _ _ _ Hok Hinp).
    split; [exact G4|]. split; [exact G3|]. split; [lia|]. split; [exact G2|].
    split; [lia|]. split.
    + intros ->. split; [lia|]. exists L'. reflexivity.
    + intros -> b1 s1 Hin E.
      assert (Hin' : In (b - ps, ps, true)
                ((L' ++ [(b - ps, ps, true)]) ++ (b, sz, al) :: R)).
      { apply in_or_app. left. apply in_or_app. right. left. reflexivity. }
      pose proof (block_facts _ _ _ _ _ Hok Hin).
      destruct (chain_disjoint _ _ _ _ _ _ _ _ _ _ (ok_chain _ _ Hok) Hin Hin')
        as [E'|[?|?]]; [discriminate E'|lia|lia].
Qed.

(** ** [place] *)

Lemma retag_keeps_alloc st st' L run run' R s0 e0 x :
  heap_ok st (L ++ run ++ R) ->
  chain (mem st) (heap_listp st + 16) L s0 ->
  chain (mem st) s0 run e0 ->
  (forall a, ~ (s0 - 8 <= a < e0 - 8) -> mem st' a = mem st a) ->
  (forall b sz, In (b, sz, true) run -> b = x) ->
  keeps_alloc st (L ++ run ++ R) st' (L ++ run' ++ R) x.
Proof.
  intros Hok HL Hrun Hf Hx b sz Hin Hbx.
  pose proof (ok_chain _ _ Hok) as Hc. consts.
  apply chain_app in Hc as (mid1 & HL' & Hc).
  apply chain_app in Hc as (mid2 & Hrun0 & HR).
  assert (mid1 = s0) by (eapply chain_end_unique; eassumption). subst mid1.
  assert (mid2 = e0) by (eapply chain_end_unique; eassumption). subst mid2.
  apply in_app_or in Hin as [B|B].
  - split; [apply in_or_app; left; exact B|].
    pose proof (chain_In _ _ _ _ _ _ _ HL B). intros a Ha. apply Hf. lia.
  - apply in_app_or in B as [B|B].
    + exfalso. apply Hbx. eapply Hx. exact B.
    + split; [apply in_or_app; right; apply in_or_app; right; exact B|].
      pose proof (chain_In _ _ _ _ _ _ _ HR B). intros a Ha. apply Hf. lia.
Qed.

Lemma same_globals_sym st st' : same_globals st st' -> same_globals st' st.
Proof. unfold same_globals. intuition congruence. Qed.

Lemma wp_bucket_of_size size (Q : Z -> state -> Prop) st :
  Q (bucket st (classof size)) st -> wp (bucket_of_size size) Q st.
Proof.
  intros H. unfold bucket_of_size. apply wp_bind, wp_get_state, wp_ret. exact H.
Qed.

Lemma wp_place_exact st bs fl bp csize asize (Q : unit -> state -> Prop) :
  inv st bs fl [] -> In (bp, csize, false) bs ->
  32 <= asize -> asize mod 8 = 0 -> asize <= csize ->
  (forall st' bs' fl' sz',
     inv st' bs' fl' [] -> same_globals st st' ->
     In (bp, sz', true) bs' -> asize <= sz' ->
     (exists L R, bs = L ++ (bp, csize, false) :: R
                  /\ bs' = L ++ split_block bp csize asize ++ R) ->
     (forall x, keeps_alloc st bs st' bs' x) -> Q tt st') ->
  wp (place bp asize) Q st.
Proof.
  intros Hinv Hblk Ha32 Ha8 Hle HQ. pose proof Hinv as (Hok & Hl & Hadj).
  pose proof (heap_ok_bounds _ _ Hok) as Hb.
  pose proof (block_facts _ _ _ _ _ Hok Hblk) as Fb.
  destruct Fb as (F1 & F2 & F3 & F4 & F5 & F6 & F7).
  unfold place, HDRP. consts.
  rewrite !(wrap_small (bp - 8)) by lia.
  wp_step. wp_step; [valid_tac|]. rewrite F6, size_of_PACK by lia.
  wp_step.
  eapply wp_remove_circular; [exact Hinv|exact Hblk|intros []|].
  intros st1 fl1 Hinv1 Hg1 Hk1. pose proof Hinv1 as (Hok1 & Hl1 & Hadj1).
  pose proof (heap_ok_bounds _ _ Hok1) as Hb1.
  pose proof (block_facts _ _ _ _ _ Hok1 Hblk) as Fb1.
  destruct Fb1 as (F1' & F2' & F3' & F4' & F5' & F6' & F7').
  destruct (chain_split _ _ _ _ _ _ _ (ok_chain _ _ Hok1) Hblk)
    as (L & R & Ebs & HL & HR).
  consts.
  rewrite (wrap_small (csize - asize)) by lia.
  change (2 * 16) with 32.
  destruct (32 <=? csize - asize) eqn:Hsplit.
  - (* split *)
    apply Z.leb_le in Hsplit.
    wp_step. wp_step; [valid_tac|].
    wp_step. unfold FTRP, HDRP. consts. rewrite !(wrap_small (bp - 8)) by lia.
    wp_step. wp_step; [valid_tac|]. rewrite upd_same.
    rewrite size_of_PACK with (al := true) by lia.
    rewrite (wrap_small (bp + asize)) by lia.
    rewrite (wrap_small (bp + asize - 16)) by lia.
    wp_step. wp_step. wp_step; [valid_tac|].
    wp_step. unfold NEXT_BLKP. consts. rewrite !(wrap_small (bp - 8)) by lia.
    wp_step. wp_step; [valid_tac|].
    rewrite upd_other by lia. rewrite upd_same.
    rewrite size_of_PACK with (al := true) by lia.
    rewrite (wrap_small (bp + asize)) by lia.
    wp_step. wp_step.
    rewrite !(wrap_small (bp + asize - 8)) by lia.
    wp_step; [valid_tac|].
    wp_step.
    wp_step. wp_step; [valid_tac|]. rewrite upd_same.
    rewrite size_of_PACK with (al := false) by zlia.
    rewrite (wrap_small (bp + asize + (csize - asize))) by lia.
    rewrite (wrap_small (bp + asize + (csize - asize) - 16)) by lia.
    wp_step. wp_step. wp_step; [valid_tac|].
    wp_step. apply wp_bucket_of_size.
    match goal with |- wp _ _ ?s => set (st2 := s) end.
    set (r := bp + asize) in *. set (rem := csize - asize) in *.
    assert (Hg2 : same_globals st1 st2)
      by (subst st2; unfold same_globals; cbn; tauto).
    assert (Hinv2 : inv st2 (L ++ [(bp, asize, true); (r, rem, false)] ++ R)
                      fl1 [bp; r]).
    { eapply (inv_retag st1 st2 L [(bp, csize, false)]
                [(bp, asize, true); (r, rem, false)] R fl1 [bp] [bp; r] bp (bp + csize)).
      - rewrite Ebs in Hinv1. exact Hinv1.
      - exact Hg2.
      - exact HL.
      - cbn [chain]. consts. repeat split; auto.
      - subst st2. cbn [chain mem set_mem b2z]. consts. subst r rem.
        repeat split; try lia; try zlia.
        + rewrite !upd_other by lia. apply upd_same.
        + rewrite !upd_other by lia. apply upd_same.
        + rewrite !upd_other by lia. apply upd_same.
        + replace (bp + asize + (csize - asize) - 16)
            with (bp + asize + (csize - asize) - 16) by lia.
          apply upd_same.
      - intros a Ha. subst st2 r rem. cbn [mem set_mem].
        rewrite !upd_other by lia. reflexivity.
      - intros b sz [E|[]]. inversion E. left. reflexivity.
      - intros b sz [E|[E|[]]]; inversion E. right. left. reflexivity.
      - intros x [<-|[]]. left. reflexivity.
      - intros x [<-|[<-|[]]].
        + left. left. reflexivity.
        + right. subst r rem. lia. }
    set (bs' := L ++ [(bp, asize, true); (r, rem, false)] ++ R) in *.
    assert (Hbp' : In (bp, asize, true) bs')
      by (apply in_or_app; right; left; reflexivity).
    assert (Hr' : In (r, rem, false) bs')
      by (apply in_or_app; right; right; left; reflexivity).
    assert (Hfree' : forall b s, In (b, s, false) bs' ->
              (b = r /\ s = rem) \/ (In (b, s, false) bs /\ b <> bp)).
    { intros b s Hin. apply in_app_or in Hin as [B|[E|[E|B]]].
      - right. assert (Hin : In (b, s, false) bs)
          by (rewrite Ebs; apply in_or_app; left; exact B).
        split; [exact Hin|]. pose proof (chain_In _ _ _ _ _ _ _ HL B). lia.
      - discriminate E.
      - inversion E. left. auto.
      - right. assert (Hin : In (b, s, false) bs)
          by (rewrite Ebs; apply in_or_app; right; right; exact B).
        split; [exact Hin|]. pose proof (chain_In _ _ _ _ _ _ _ HR B). lia. }
    apply inv_hole_drop in Hinv2.
    2:{ intros s Hin.
        destruct (chain_unique _ _ _ _ _ _ _ _ _
                    (ok_chain _ _ (proj1 Hinv2)) Hin Hbp') as [_ E].
        discriminate E. }
    assert (Hadj2 : no_adjacent_free [] bs').
    { intros b1 s1 b2 s2 B1 B2 E. exfalso.
      destruct (Hfree' _ _ B1) as [[-> ->]|[B1' N1]];
      destruct (Hfree' _ _ B2) as [[-> ->]|[B2' N2]].
      - subst r rem. lia.
      - destruct (Hadj bp csize b2 s2 Hblk B2') as [[]|[]]. subst r rem. lia.
      - pose proof (block_facts _ _ _ _ _ Hok B1').
        destruct (chain_disjoint _ _ _ _ _ _ _ _ _ _ (ok_chain _ _ Hok) B1' Hblk)
          as [E'|[?|?]]; [inversion E'; contradiction|subst r; lia|subst r; lia].
      - destruct (Hadj _ _ _ _ B1' B2' E) as [[]|[]]. }
    eapply wp_insert_circular; [exact Hinv2|exact Hr'|intros []|exact Hadj2|].
    intros st3 fl3 Hinv3 Hg3 Hk3.
    apply (HQ st3 bs' fl3 asize);
      [exact Hinv3
      |eapply same_globals_trans; [exact Hg1|];
       eapply same_globals_trans; [exact Hg2|exact Hg3]
      |exact Hbp'|lia
      |exists L, R; split; [exact Ebs|]; unfold split_block, DSIZE, WSIZE;
       change (2 * (2 * 8)) with 32;
       replace (32 <=? csize - asize) with true
         by (symmetry; apply Z.leb_le; exact Hsplit);
       reflexivity|].
    intros x. eapply keeps_alloc_trans; [apply Hk1|].
    eapply keeps_alloc_trans; [|apply Hk3].
    rewrite Ebs. subst bs'.
    eapply (retag_keeps_alloc st1 st2 L [(bp, csize, false)] _ R bp (bp + csize)).
    + rewrite Ebs in Hok1. exact Hok1.
    + exact HL.
    + cbn [chain]. consts. repeat split; auto.
    + intros a Ha. subst st2 r rem. cbn [mem set_mem].
      rewrite !upd_other by lia. reflexivity.
    + intros b sz [E|[]]. discriminate E.
  - (* no split *)
    apply Z.leb_gt in Hsplit.
    wp_step. wp_step; [valid_tac|].
    wp_step. unfold FTRP, HDRP. consts. rewrite !(wrap_small (bp - 8)) by lia.
    wp_step. wp_step; [valid_tac|]. rewrite upd_same.
    rewrite size_of_PACK with (al := true) by lia.
    rewrite (wrap_small (bp + csize)) by lia.
    rewrite (wrap_small (bp + csize - 16)) by lia.
    wp_step. wp_step; [valid_tac|].
    match goal with |- Q tt ?s => set (st2 := s) end.
    assert (Hg2 : same_globals st1 st2)
      by (subst st2; unfold same_globals; cbn; tauto).
    assert (Hinv2 : inv st2 (L ++ [(bp, csize, true)] ++ R) fl1 [bp]).
    { eapply (inv_retag st1 st2 L [(bp, csize, false)]
                [(bp, csize, true)] R fl1 [bp] [bp] bp (bp + csize)).
      - rewrite Ebs in Hinv1. exact Hinv1.
      - exact Hg2.
      - exact HL.
      - cbn [chain]. consts. repeat split; auto.
      - subst st2. cbn [chain mem set_mem b2z]. consts.
        repeat split; try lia.
        + rewrite !upd_other by lia. apply upd_same.
        + apply upd_same.
      - intros a Ha. subst st2. cbn [mem set_mem].
        rewrite !upd_other by lia. reflexivity.
      - intros b sz [E|[]]. inversion E. left. reflexivity.
      - intros b sz [E|[]]; inversion E.
      - auto.
      - auto. }
    set (bs' := L ++ [(bp, csize, true)] ++ R) in *.
    assert (Hbp' : In (bp, csize, true) bs')
      by (apply in_or_app; right; left; reflexivity).
    assert (Hfree' : forall b s, In (b, s, false) bs' -> In (b, s, false) bs).
    { intros b s Hin. rewrite Ebs. apply in_app_or in Hin as [B|[E|B]].
      - apply in_or_app; left; exact B.
      - discriminate E.
      - apply in_or_app; right; right; exact B. }
    apply inv_hole_drop in Hinv2.
    2:{ intros s Hin.
        destruct (chain_unique _ _ _ _ _ _ _ _ _
                    (ok_chain _ _ (proj1 Hinv2)) Hin Hbp') as [_ E].
        discriminate E. }
    apply (HQ st2 bs' fl1 csize);
      [exact Hinv2|eapply same_globals_trans; [exact Hg1|exact Hg2]
      |exact Hbp'|exact Hle
      |exists L, R; split; [exact Ebs|]; unfold split_block, DSIZE, WSIZE;
       change (2 * (2 * 8)) with 32;
       replace (32 <=? csize - asize) with false
         by (symmetry; apply Z.leb_gt; exact Hsplit);
       reflexivity|].
    intros x. eapply keeps_alloc_trans; [apply Hk1|].
    rewrite Ebs. subst bs'.
    eapply (retag_keeps_alloc st1 st2 L [(bp, csize, false)] _ R bp (bp + csize)).
    + rewrite Ebs in Hok1. exact Hok1.
    + exact HL.
    + cbn [chain]. consts. repeat split; auto.
    + intros a Ha. subst st2. cbn [mem set_mem].
      rewrite !upd_other by lia. reflexivity.
    + intros b sz [E|[]]. discriminate E.
Qed.

Lemma wp_place st bs fl bp csize asize (Q : unit -> state -> Prop) :
  inv st bs fl [] -> In (bp, csize, false) bs ->
  32 <= asize -> asize mod 8 = 0 -> asize <= csize ->
  (forall st' bs' fl' sz',
     inv st' bs' fl' [] -> same_globals st st' ->
     In (bp, sz', true) bs' -> asize <= sz' ->
     (forall x, keeps_alloc st bs st' bs' x) -> Q tt st') ->
  wp (place bp asize) Q st.
Proof.
  intros Hinv Hblk Ha32 Ha8 Hle HQ.
  eapply wp_place_exact; try eassumption.
  intros st' bs' fl' sz' H1 H2 H3 H4 _ H5. exact (HQ st' bs' fl' sz' H1 H2 H3 H4 H5).
Qed.

(** ** [coalesce] *)

Lemma no_adjacent_merge bs bs' bp m total :
  no_adjacent_free [bp] bs ->
  (forall b s, In (b, s, false) bs' ->
     (b = m /\ s = total) \/ (In (b, s, false) bs /\ b <> bp)) ->
  0 < total ->
  (forall b1 s1, In (b1, s1, false) bs -> b1 <> bp -> b1 + s1 <> m) ->
  (forall b2 s2, In (b2, s2, false) bs -> b2 <> bp -> b2 <> m + total) ->
  no_adjacent_free [] bs'.
Proof.
  intros Hadj Hfree Hpos Hbefore Hafter b1 s1 b2 s2 B1 B2 E. exfalso.
  destruct (Hfree _ _ B1) as [[-> ->]|[B1' N1]];
  destruct (Hfree _ _ B2) as [[E2 ->]|[B2' N2]].
  - lia.
  - eapply Hafter; [exact B2'|exact N2|]. lia.
  - eapply Hbefore; [exact B1'|exact N1|]. lia.
  - destruct (Hadj _ _ _ _ B1' B2' E) as [[?|[]]|[?|[]]]; congruence.
Qed.

Lemma truthy_b2z a : truthy (b2z a) = a.
Proof. destruct a; reflexivity. Qed.

Lemma inv_hole_shrink st bs fl hole hole' :
  inv st bs fl hole ->
  (forall x, In x hole' -> In x hole) ->
  (forall x s, In x hole -> In (x, s, false) bs -> In x hole') ->
  inv st bs fl hole'.
Proof.
  intros (Hok & Hl & Hadj) Hsub Hfree. split; [exact Hok|split].
  - constructor.
    + apply (ok_ring _ _ _ _ Hl).
    + apply (ok_nodup _ _ _ _ Hl).
    + intros j y Hj Hin.
      destruct (ok_member _ _ _ _ Hl j y Hj Hin) as (sy & B & Cy & Nh).
      exists sy. repeat split; try assumption.
      intros Hh. apply Nh, Hsub, Hh.
    + intros c sc Hc Hnh. apply (ok_linked _ _ _ _ Hl c sc Hc).
      intros Hh. apply Hnh. eapply Hfree; eassumption.
  - intros b1 s1 b2 s2 B1 B2 E.
    destruct (Hadj _ _ _ _ B1 B2 E) as [Hh|Hh]; [left|right];
      eapply Hfree; eassumption.
Qed.

Lemma wp_coalesce_finish st bs fl m total (Q : Z -> state -> Prop) :
  inv st bs fl [m] -> In (m, total, false) bs -> no_adjacent_free [] bs ->
  (forall st' fl',
     inv st' bs fl' [] -> same_globals st st' ->
     (forall x, keeps_alloc st bs st' bs x) -> Q m st') ->
  wp (dummy <- bucket_of_size total ;; insert_circular m dummy ;;; ret m) Q st.
Proof.
  intros Hinv Hblk Hadj HQ.
  wp_step. apply wp_bucket_of_size. wp_step.
  eapply wp_insert_circular; [exact Hinv|exact Hblk|intros []|exact Hadj|].
  intros st' fl' Hinv' Hg' Hk'. wp_step. eapply HQ; eassumption.
Qed.

(** The tags of the run of free blocks [run], all unlinked, have been
    rewritten into those of one block. *)
Lemma wp_merge_finish bs st1 st3 L run R fl1 hole1 bp sz s0 e0
    (Q : Z -> state -> Prop) :
  bs = L ++ run ++ R ->
  inv st1 bs fl1 hole1 -> same_globals st1 st3 ->
  chain (mem st1) (heap_listp st1 + 16) L s0 -> chain (mem st1) s0 run e0 ->
  (forall b s al, In (b, s, al) run -> al = false /\ In b hole1) ->
  (forall x, In x hole1 -> s0 <= x < e0) -> In s0 hole1 ->
  In (bp, sz, false) run ->
  mem st3 (s0 - 8) = PACK (e0 - s0) 0 ->
  mem st3 (e0 - 16) = PACK (e0 - s0) 0 ->
  (forall a, a <> s0 - 8 -> a <> e0 - 16 -> mem st3 a = mem st1 a) ->
  no_adjacent_free [bp] bs ->
  (forall b1 s1, In (b1, s1, false) bs -> b1 <> bp -> b1 + s1 <> s0) ->
  (forall b2 s2, In (b2, s2, false) bs -> b2 <> bp -> b2 <> e0) ->
  (forall st' fl',
     inv st' (L ++ [(s0, e0 - s0, false)] ++ R) fl' [] ->
     same_globals st1 st' ->
     (forall x, keeps_alloc st1 bs st' (L ++ [(s0, e0 - s0, false)] ++ R) x) ->
     Q s0 st') ->
  wp (dummy <- bucket_of_size (e0 - s0) ;; insert_circular s0 dummy ;;; ret s0)
     Q st3.
Proof.
  intros Ebs Hinv1 Hg HL Hrun Hfree Hrange Hs0 Hbp T1 T2 Hf Hadj Hbefore Hafter HQ.
  subst bs. pose proof Hinv1 as (Hok1 & Hl1 & Hadj1).
  pose proof (heap_ok_bounds _ _ Hok1) as Hb1.
  pose proof (chain_In _ _ _ _ _ _ _ Hrun Hbp) as (C1 & C2 & C3 & _).
  pose proof (chain_le _ _ _ _ HL) as HleL.
  assert (As0 : s0 mod 8 = 0).
  { eapply chain_end_aligned; [|exact HL]. zlia. }
  assert (Ae0 : e0 mod 8 = 0).
  { eapply chain_end_aligned; [|exact Hrun]. exact As0. }
  set (total := e0 - s0) in *.
  set (bs' := L ++ [(s0, total, false)] ++ R) in *.
  assert (Hrun' : chain (mem st3) s0 [(s0, total, false)] e0).
  { cbn [chain b2z]. consts. subst total.
    replace (s0 + (e0 - s0) - 16) with (e0 - 16) by lia.
    repeat split; try assumption; try lia; zlia. }
  assert (Hframe : forall a, ~ (s0 - 8 <= a < e0 - 8) -> mem st3 a = mem st1 a).
  { intros a Ha. apply Hf; lia. }
  assert (Hinv3 : inv st3 bs' fl1 hole1).
  { eapply (inv_retag st1 st3 L run [(s0, total, false)] R fl1 hole1 hole1 s0 e0);
      try eassumption; auto.
    - intros b s Hin. apply (Hfree _ _ _ Hin).
    - intros b s [E|[]]. inversion E. subst. exact Hs0. }
  pose proof Hinv3 as (Hok3 & _ & _).
  assert (Hm : In (s0, total, false) bs')
    by (apply in_or_app; right; left; reflexivity).
  assert (Hinv3' : inv st3 bs' fl1 [s0]).
  { eapply inv_hole_shrink; [exact Hinv3| |].
    - intros x [<-|[]]. exact Hs0.
    - intros x s Hx Hin. left. pose proof (Hrange x Hx).
      pose proof (block_facts _ _ _ _ _ Hok3 Hin).
      destruct (chain_disjoint _ _ _ _ _ _ _ _ _ _ (ok_chain _ _ Hok3) Hm Hin)
        as [E|[?|?]]; [inversion E; reflexivity|subst total; lia|lia]. }
  pose proof (ok_chain _ _ Hok1) as Hc. consts.
  apply chain_app in Hc as (mid1 & HL' & Hc).
  apply chain_app in Hc as (mid2 & Hrun0 & HR).
  assert (mid1 = s0) by (eapply chain_end_unique; eassumption). subst mid1.
  assert (mid2 = e0) by (eapply chain_end_unique; eassumption). subst mid2.
  assert (Hadj3 : no_adjacent_free [] bs').
  { eapply (no_adjacent_merge (L ++ run ++ R) bs' bp s0 total); try eassumption.
    - intros b s Hin. apply in_app_or in Hin as [B|[E|B]].
      + right. split; [apply in_or_app; left; exact B|].
        pose proof (chain_In _ _ _ _ _ _ _ HL B). lia.
      + inversion E. left. auto.
      + right. split; [apply in_or_app; right; apply in_or_app; right; exact B|].
        pose proof (chain_In _ _ _ _ _ _ _ HR B). lia.
    - subst total. lia.
    - subst total. intros b2 s2 B2 N2.
      replace (s0 + (e0 - s0)) with e0 by lia. eapply Hafter; eassumption. }
  eapply wp_coalesce_finish; [exact Hinv3'|exact Hm|exact Hadj3|].
  intros st' fl' Hinv' Hg' Hk'. apply (HQ st' fl'); [exact Hinv'| |].
  - eapply same_globals_trans; eassumption.
  - intros x. eapply keeps_alloc_trans; [|apply Hk'].
    eapply (retag_keeps_alloc st1 st3 L run _ R s0 e0); try eassumption.
    intros b s Hin. destruct (Hfree _ _ _ Hin) as [E _]. discriminate E.
Qed.

Lemma chain_mid m L b sz al R s e :
  chain m s (L ++ (b, sz, al) :: R) e -> chain m s L b.
Proof.
  intros H. apply chain_app in H as (mid & HL & Hc). cbn [chain] in Hc.
  destruct Hc as (<- & _). exact HL.
Qed.

Ltac unwrap :=
  repeat match goal with
         | |- context [wrap ?x] => rewrite (wrap_small x) by lia
         end.

Ltac wps := unwrap; wp_step.

Lemma wp_coalesce_exact st bs fl bp sz (Q : Z -> state -> Prop) :
  inv st bs fl [bp] -> In (bp, sz, false) bs ->
  (forall st' bs' fl' bp' sz',
     inv st' bs' fl' [] -> same_globals st st' ->
     In (bp', sz', false) bs' -> sz <= sz' ->
     bp' <= bp /\ bp + sz <= bp' + sz' ->
     merged bs bp sz false bs' bp' sz' ->
     (forall x, keeps_alloc st bs st' bs' x) -> Q bp' st') ->
  wp (coalesce bp) Q st.
Proof.
  intros Hinv Hblk HQ. pose proof Hinv as (Hok & Hl & Hadj).
  pose proof (heap_ok_bounds _ _ Hok) as Hb.
  pose proof (block_facts _ _ _ _ _ Hok Hblk) as (F1 & F2 & F3 & F4 & F5 & F6 & F7).
  destruct (chain_split _ _ _ _ _ _ _ (ok_chain _ _ Hok) Hblk)
    as (L & R & Ebs & HL & HR).
  assert (Hok' : heap_ok st (L ++ (bp, sz, false) :: R)) by (rewrite <- Ebs; exact Hok).
  destruct (prev_info _ _ _ _ _ _ Hok') as (ps & pa & P1 & P2 & P3 & P4 & P5 & P6 & P7).
  destruct (next_info _ _ _ _ _ _ Hok') as (ns & na & N1 & N2 & N3 & N4 & N5).
  rewrite <- Ebs in P7, N5. consts.
  unfold coalesce, PREV_BLKP, NEXT_BLKP, FTRP, HDRP. consts.
  unwrap.
  unwrap.
  wps. wps; [valid_tac|]. rewrite F6, size_of_PACK by lia.
  wps. wps. wps; [valid_tac|]. rewrite P1, size_of_PACK by lia.
  wps. unwrap.
  unwrap.
  wps. wps. wps; [valid_tac|]. rewrite P2, size_of_PACK by lia.
  wps. replace (bp - ps + ps) with bp by lia.
  unwrap. unwrap.
  wps. wps; [valid_tac|]. rewrite P1, alloc_of_PACK by lia.
  wps. wps. wps; [valid_tac|]. rewrite F6, size_of_PACK by lia.
  wps. unwrap.
  unwrap.
  wps. wps; [valid_tac|]. rewrite N1, alloc_of_PACK by lia.
  rewrite !truthy_b2z.
  wps.
  destruct pa, na; cbn [andb negb].
  - (* Case 1 *)
    wps. cbn beta iota.
    replace sz with (bp + sz - bp) at 1 by lia.
    eapply (wp_merge_finish bs st st L [(bp, sz, false)] R fl [bp] bp sz bp (bp + sz));
      try eassumption; auto using same_globals_refl.
    + cbn [chain b2z]. consts. repeat split; auto.
    + intros b s al [E|[]]. inversion E. split; [reflexivity|left; reflexivity].
    + intros x [<-|[]]. lia.
    + left. reflexivity.
    + left. reflexivity.
    + replace (bp + sz - bp) with sz by lia. exact F6.
    + replace (bp + sz - bp) with sz by lia. exact F7.
    + intros b2 s2 B2 _ E. subst b2. eapply N5; [reflexivity|exact B2].
    + intros st' fl' Hinv' Hg' Hk'.
      eapply (HQ st' _ fl' bp (bp + sz - bp));
        [exact Hinv'|exact Hg'| |lia|lia
        |exists L, [], [], R; split; [exact Ebs|split; [reflexivity|split; [intros x []|split; [cbn [app length]; lia|split; [cbn [app length]; lia|split; cbn [total_size fold_right fst snd]; lia]]]]]
        |exact Hk'].
      apply in_or_app. right. left. reflexivity.
  - (* Case 2 *)
    destruct (N4 eq_refl) as (Hns & R' & ER).
    assert (Hn : In (bp + sz, ns, false) bs).
    { rewrite Ebs, ER. apply in_or_app. right. right. left. reflexivity. }
    pose proof (block_facts _ _ _ _ _ Hok Hn) as (G1 & G2 & G3 & G4 & G5 & G6 & G7).
    wps. wps. wps; [valid_tac|]. rewrite F6, size_of_PACK by lia.
    wps. unwrap.
    wps.
    eapply wp_remove_circular; [exact Hinv|exact Hn|intros [E|[]]; lia|].
    intros st1 fl1 Hinv1 Hg1 Hk1. pose proof Hinv1 as (Hok1 & _ & _).
    pose proof (heap_ok_bounds _ _ Hok1) as Hb1.
    pose proof (block_facts _ _ _ _ _ Hok1 Hblk) as (F1' & F2' & _ & _ & _ & F6' & F7').
    pose proof (block_facts _ _ _ _ _ Hok1 Hn) as (_ & G2' & _ & _ & _ & G6' & G7').
    replace (bp + sz - 8) with (bp + sz - 8) in G6' by lia.
    wps. wps. wps; [valid_tac|]. rewrite F6', size_of_PACK by lia.
    wps. unwrap.
    unwrap.
    wps. wps; [valid_tac|]. rewrite G6', size_of_PACK by lia.
    unwrap.
    wps. wps; [valid_tac|].
    wps. wps. wps; [valid_tac|]. rewrite upd_same.
    rewrite size_of_PACK with (al := false) by zlia.
    unwrap.
    unwrap.
    wps. wps. wps; [valid_tac|].
    wps. cbn beta iota.
    replace (sz + ns) with (bp + sz + ns - bp) by lia.
    eapply (wp_merge_finish bs st1 _ L [(bp, sz, false); (bp + sz, ns, false)] R'
              fl1 [bp + sz; bp] bp sz bp (bp + sz + ns)).
    + rewrite Ebs, ER. reflexivity.
    + exact Hinv1.
    + unfold same_globals. cbn. tauto.
    + pose proof (ok_chain _ _ Hok1) as Hc1. rewrite Ebs in Hc1.
      apply chain_mid in Hc1. exact Hc1.
    + cbn [chain b2z]. consts. repeat split; auto; lia.
    + intros b s al [E|[E|[]]]; inversion E; subst; split; auto.
      * right. left. reflexivity.
      * left. reflexivity.
    + intros x [<-|[<-|[]]]; lia.
    + right. left. reflexivity.
    + left. reflexivity.
    + cbn [mem set_mem]. rewrite upd_other by lia. apply upd_same.
    + cbn [mem set_mem].
      replace (bp + (bp + sz + ns - bp) - 16) with (bp + sz + ns - 16) by lia.
      apply upd_same.
    + intros a A1 A2. cbn [mem set_mem].
      replace (bp + (bp + sz + ns - bp) - 16) with (bp + sz + ns - 16) by lia.
      rewrite !upd_other by assumption. reflexivity.
    + exact Hadj.
    + intros b1 s1 B1 _. apply (P7 eq_refl _ _ B1).
    + intros b2 s2 B2 Nb E.
      destruct (Hadj _ _ _ _ Hn B2) as [[?|[]]|[?|[]]]; lia.
    + intros st' fl' Hinv' Hg' Hk'.
      eapply (HQ st' _ fl' bp (bp + sz + ns - bp));
        [exact Hinv'|eapply same_globals_trans; eassumption| |lia|lia
        |exists L, [], [(bp + sz, ns, false)], R'; split; [rewrite Ebs, ER; reflexivity|split; [reflexivity|split; [intros x [<-|[]]; reflexivity|split; [cbn [app length]; lia|split; [cbn [app length]; lia|split; cbn [total_size fold_right fst snd]; lia]]]]]
        |].
      * apply in_or_app. right. left. reflexivity.
      * intros x. eapply keeps_alloc_trans; [apply Hk1|apply Hk'].
  - (* Case 3 *)
    destruct (P6 eq_refl) as (Hps & L' & EL).
    assert (Hp : In (bp - ps, ps, false) bs).
    { rewrite Ebs, EL. apply in_or_app. left. apply in_or_app. right.
      left. reflexivity. }
    pose proof (block_facts _ _ _ _ _ Hok Hp) as (G1 & G2 & G3 & G4 & G5 & G6 & G7).
    wps. wps. wps; [valid_tac|]. rewrite P1, size_of_PACK by lia.
    wps. unwrap.
    wps.
    eapply wp_remove_circular; [exact Hinv|exact Hp|intros [E|[]]; lia|].
    intros st1 fl1 Hinv1 Hg1 Hk1. pose proof Hinv1 as (Hok1 & _ & _).
    pose proof (heap_ok_bounds _ _ Hok1) as Hb1.
    pose proof (block_facts _ _ _ _ _ Hok1 Hblk) as (F1' & F2' & _ & _ & _ & F6' & F7').
    pose proof (block_facts _ _ _ _ _ Hok1 Hp) as (G1' & G2' & _ & _ & _ & G6' & G7').
    replace (bp - ps + ps - 16) with (bp - 16) in G7' by lia.
    wps. wps. wps; [valid_tac|]. rewrite G7', size_of_PACK by lia.
    wps. unwrap.
    unwrap.
    wps. wps; [valid_tac|]. rewrite G6', size_of_PACK by lia.
    unwrap.
    wps. wps. wps; [valid_tac|]. rewrite F6', size_of_PACK by lia.
    unwrap.
    unwrap.
    wps. wps. wps; [valid_tac|].
    wps. wps. wps; [valid_tac|].
    rewrite upd_other by lia. rewrite G7', size_of_PACK by lia. unwrap.
    wps. wps. wps; [valid_tac|].
    wps. wps. wps; [valid_tac|].
    rewrite !upd_other by lia. rewrite G7', size_of_PACK by lia. unwrap.
    wps. wps. cbn beta iota.
    replace (sz + ps) with (bp + sz - (bp - ps)) by lia.
    eapply (wp_merge_finish bs st1 _ L' [(bp - ps, ps, false); (bp, sz, false)] R
              fl1 [bp - ps; bp] bp sz (bp - ps) (bp + sz)).
    + rewrite Ebs, EL, <- app_assoc. reflexivity.
    + exact Hinv1.
    + unfold same_globals. cbn. tauto.
    + pose proof (ok_chain _ _ Hok1) as Hc1. rewrite Ebs, EL, <- app_assoc in Hc1.
      apply chain_mid in Hc1. exact Hc1.
    + cbn [chain b2z]. consts.
      replace (bp - ps + ps) with bp by lia.
      repeat split; auto; lia.
    + intros b s al [E|[E|[]]]; inversion E; subst; split; auto.
      * left. reflexivity.
      * right. left. reflexivity.
    + intros x [<-|[<-|[]]]; lia.
    + left. reflexivity.
    + right. left. reflexivity.
    + cbn [mem set_mem]. apply upd_same.
    + cbn [mem set_mem]. rewrite upd_other by lia. apply upd_same.
    + intros a A1 A2. cbn [mem set_mem].
      rewrite !upd_other by assumption. reflexivity.
    + exact Hadj.
    + intros b1 s1 B1 Nb E.
      destruct (Hadj _ _ _ _ B1 Hp E) as [[?|[]]|[?|[]]]; lia.
    + intros b2 s2 B2 _ E. subst b2. eapply N5; [reflexivity|exact B2].
    + intros st' fl' Hinv' Hg' Hk'.
      eapply (HQ st' _ fl' (bp - ps) (bp + sz - (bp - ps)));
        [exact Hinv'|eapply same_globals_trans; eassumption| |lia|lia
        |exists L', [(bp - ps, ps, false)], [], R; split; [rewrite Ebs, EL, <- app_assoc; reflexivity|split; [reflexivity|split; [intros x [<-|[]]; reflexivity|split; [cbn [app length]; lia|split; [cbn [app length]; lia|split; cbn [total_size fold_right fst snd]; lia]]]]]
        |].
      * apply in_or_app. right. left. reflexivity.
      * intros x. eapply keeps_alloc_trans; [apply Hk1|apply Hk'].
  - (* Case 4 *)
    destruct (P6 eq_refl) as (Hps & L' & EL).
    destruct (N4 eq_refl) as (Hns & R' & ER).
    assert (Hp : In (bp - ps, ps, false) bs).
    { rewrite Ebs, EL. apply in_or_app. left. apply in_or_app. right.
      left. reflexivity. }
    assert (Hn : In (bp + sz, ns, false) bs).
    { rewrite Ebs, ER. apply in_or_app. right. right. left. reflexivity. }
    pose proof (block_facts _ _ _ _ _ Hok Hp) as (G1 & G2 & G3 & G4 & G5 & G6 & G7).
    pose proof (block_facts _ _ _ _ _ Hok Hn) as (K1 & K2 & K3 & K4 & K5 & K6 & K7).
    wps. wps. wps; [valid_tac|]. rewrite P1, size_of_PACK by lia.
    wps. unwrap.
    wps.
    eapply wp_remove_circular; [exact Hinv|exact Hp|intros [E|[]]; lia|].
    intros st1 fl1 Hinv1 Hg1 Hk1. pose proof Hinv1 as (Hok1 & _ & _).
    pose proof (heap_ok_bounds _ _ Hok1) as Hb1.
    pose proof (block_facts _ _ _ _ _ Hok1 Hblk) as (F1' & F2' & _ & _ & _ & F6' & _).
    wps. wps. wps; [valid_tac|]. rewrite F6', size_of_PACK by lia.
    wps. unwrap.
    wps.
    eapply wp_remove_circular;
      [exact Hinv1|exact Hn|intros [E|[E|[]]]; lia|].
    intros st2 fl2 Hinv2 Hg2 Hk2. pose proof Hinv2 as (Hok2 & _ & _).
    pose proof (heap_ok_bounds _ _ Hok2) as Hb2.
    pose proof (block_facts _ _ _ _ _ Hok2 Hblk) as (F1'' & F2'' & _ & _ & _ & F6'' & F7'').
    pose proof (block_facts _ _ _ _ _ Hok2 Hp) as (G1'' & G2'' & _ & _ & _ & G6'' & G7'').
    pose proof (block_facts _ _ _ _ _ Hok2 Hn) as (K1'' & K2'' & _ & _ & _ & K6'' & K7'').
    replace (bp - ps + ps - 16) with (bp - 16) in G7'' by lia.
    wps. wps. wps; [valid_tac|]. rewrite G7'', size_of_PACK by lia.
    wps. unwrap.
    unwrap.
    wps. wps; [valid_tac|]. rewrite G6'', size_of_PACK by lia.
    wps. wps. wps; [valid_tac|]. rewrite F6'', size_of_PACK by lia.
    wps. unwrap.
    unwrap.
    wps. wps. wps; [valid_tac|]. rewrite K6'', size_of_PACK by lia.
    unwrap.
    unwrap.
    wps. wps. wps; [valid_tac|]. rewrite K7'', size_of_PACK by lia.
    unwrap.
    unwrap.
    wps. wps. wps; [valid_tac|]. rewrite G7'', size_of_PACK by lia.
    unwrap.
    wps. wps. wps; [valid_tac|].
    wps. wps. wps; [valid_tac|].
    rewrite upd_other by lia. rewrite F6'', size_of_PACK by lia. unwrap.
    wps. wps. wps. wps; [valid_tac|].
    rewrite upd_other by lia. rewrite K6'', size_of_PACK by lia. unwrap.
    wps. wps. wps; [valid_tac|].
    wps. wps. wps; [valid_tac|].
    rewrite !upd_other by lia. rewrite G7'', size_of_PACK by lia. unwrap.
    wps. wps. cbn beta iota.
    replace (sz + (ps + ns)) with (bp + sz + ns - (bp - ps)) by lia.
    eapply (wp_merge_finish bs st2 _ L'
              [(bp - ps, ps, false); (bp, sz, false); (bp + sz, ns, false)] R'
              fl2 [bp + sz; bp - ps; bp] bp sz (bp - ps) (bp + sz + ns)).
    + rewrite Ebs, EL, ER, <- app_assoc. reflexivity.
    + exact Hinv2.
    + unfold same_globals. cbn. tauto.
    + pose proof (ok_chain _ _ Hok2) as Hc2. rewrite Ebs, EL, <- app_assoc in Hc2.
      apply chain_mid in Hc2. exact Hc2.
    + cbn [chain b2z]. consts.
      replace (bp - ps + ps) with bp by lia.
      repeat split; auto; lia.
    + intros b s al [E|[E|[E|[]]]]; inversion E; subst; split; auto.
      * right. left. reflexivity.
      * right. right. left. reflexivity.
      * left. reflexivity.
    + intros x [<-|[<-|[<-|[]]]]; lia.
    + right. left. reflexivity.
    + right. left. reflexivity.
    + cbn [mem set_mem]. rewrite upd_other by lia. apply upd_same.
    + cbn [mem set_mem]. apply upd_same.
    + intros a A1 A2. cbn [mem set_mem].
      rewrite !upd_other by assumption. reflexivity.
    + exact Hadj.
    + intros b1 s1 B1 Nb E.
      destruct (Hadj _ _ _ _ B1 Hp E) as [[?|[]]|[?|[]]]; lia.
    + intros b2 s2 B2 Nb E.
      destruct (Hadj _ _ _ _ Hn B2) as [[?|[]]|[?|[]]]; lia.
    + intros st' fl' Hinv' Hg' Hk'.
      eapply (HQ st' _ fl' (bp - ps) (bp + sz + ns - (bp - ps)));
        [exact Hinv'
        |eapply same_globals_trans; [exact Hg1|];
         eapply same_globals_trans; eassumption
        | |lia|lia
        |exists L', [(bp - ps, ps, false)], [(bp + sz, ns, false)], R'; split; [rewrite Ebs, EL, ER, <- app_assoc; reflexivity|split; [reflexivity|split; [intros x [<-|[<-|[]]]; reflexivity|split; [cbn [app length]; lia|split; [cbn [app length]; lia|split; cbn [total_size fold_right fst snd]; lia]]]]]
        |].
      * apply in_or_app. right. left. reflexivity.
      * intros x. eapply keeps_alloc_trans; [apply Hk1|].
        eapply keeps_alloc_trans; [apply Hk2|apply Hk'].
Qed.

Lemma wp_coalesce st bs fl bp sz (Q : Z -> state -> Prop) :
  inv st bs fl [bp] -> In (bp, sz, false) bs ->
  (forall st' bs' fl' bp' sz',
     inv st' bs' fl' [] -> same_globals st st' ->
     In (bp', sz', false) bs' -> sz <= sz' ->
     bp' <= bp /\ bp + sz <= bp' + sz' ->
     (forall x, keeps_alloc st bs st' bs' x) -> Q bp' st') ->
  wp (coalesce bp) Q st.
Proof.
  intros Hinv Hblk HQ. eapply wp_coalesce_exact; [exact Hinv|exact Hblk|].
  intros st' bs' fl' bp' sz' H1 H2 H3 H4 H5 _ H6.
  exact (HQ st' bs' fl' bp' sz' H1 H2 H3 H4 H5 H6).
Qed.

(** ** [mm_free] and [extend_heap] *)

Lemma chain_split_unique m A : forall s e x B A' B',
  chain m s (A ++ x :: B) e -> A ++ x :: B = A' ++ x :: B' ->
  A = A' /\ B = B'.
Proof.
  induction A as [|a A IH]; intros s e x B A' B' Hc E.
  - destruct A' as [|a' A']; cbn [app] in *.
    + inversion E. auto.
    + exfalso. inversion E as [[Ea EB]]. subst a'.
      rewrite EB in Hc.
      destruct x as [[b sz] al]. cbn [chain] in Hc.
      destruct Hc as (-> & H1 & _ & _ & _ & H5).
      apply chain_mid in H5. apply chain_le in H5. consts. lia.
  - destruct A' as [|a' A']; cbn [app] in *.
    + exfalso. inversion E as [[Ea EB]]. subst a.
      destruct x as [[b sz] al]. cbn [chain] in Hc.
      destruct Hc as (-> & H1 & _ & _ & _ & H5).
      apply chain_mid in H5. apply chain_le in H5. consts. lia.
    + inversion E as [[Ea EB]]. subst a'. destruct a as [[b sz] al].
      cbn [chain] in Hc.
      destruct Hc as (_ & _ & _ & _ & _ & H5).
      destruct (IH _ _ _ _ _ _ H5 EB) as [-> ->]. auto.
Qed.

Lemma wp_mm_free_exact st bs fl ptr sz (Q : unit -> state -> Prop) :
  inv st bs fl [] -> In (ptr, sz, true) bs ->
  (forall st' bs' fl',
     inv st' bs' fl' [] -> same_globals st st' ->
     (forall s, ~ In (ptr, s, true) bs') ->
     (exists bp' sz', In (bp', sz', false) bs'
                      /\ merged bs ptr sz true bs' bp' sz') ->
     keeps_alloc st bs st' bs' ptr -> Q tt st') ->
  wp (mm_free ptr) Q st.
Proof.
  intros Hinv Hblk HQ. pose proof Hinv as (Hok & Hl & Hadj).
  pose proof (heap_ok_bounds _ _ Hok) as Hb.
  pose proof (block_facts _ _ _ _ _ Hok Hblk) as (F1 & F2 & F3 & F4 & F5 & F6 & F7).
  destruct (chain_split _ _ _ _ _ _ _ (ok_chain _ _ Hok) Hblk)
    as (L & R & Ebs & HL & HR).
  unfold mm_free, FTRP, HDRP. consts.
  replace (ptr =? 0) with false by (symmetry; apply Z.eqb_neq; lia).
  wps. wps; [valid_tac|]. rewrite F6, size_of_PACK by lia.
  wps. wps; [valid_tac|].
  wps. wps. wps; [valid_tac|]. rewrite upd_same.
  rewrite size_of_PACK with (al := false) by lia.
  wps. wps. wps; [valid_tac|].
  match goal with |- wp _ _ ?s => set (st2 := s) end.
  assert (Hg2 : same_globals st st2)
    by (subst st2; unfold same_globals; cbn; tauto).
  assert (Hf2 : forall a, ~ (ptr - 8 <= a < ptr + sz - 8) -> mem st2 a = mem st a).
  { intros a Ha. subst st2. cbn [mem set_mem].
    rewrite !upd_other by lia. reflexivity. }
  assert (Hrun : chain (mem st) ptr [(ptr, sz, true)] (ptr + sz)).
  { cbn [chain b2z]. consts. repeat split; auto. }
  assert (Hinv2 : inv st2 (L ++ [(ptr, sz, false)] ++ R) fl [ptr]).
  { eapply (inv_retag st st2 L [(ptr, sz, true)] [(ptr, sz, false)] R fl [] [ptr]
              ptr (ptr + sz)); try eassumption.
    - rewrite Ebs in Hinv. exact Hinv.
    - subst st2. cbn [chain mem set_mem b2z]. consts. repeat split; try lia.
      + rewrite upd_other by lia. apply upd_same.
      + apply upd_same.
    - intros b s [E|[]]. discriminate E.
    - intros b s [E|[]]. inversion E. left. reflexivity.
    - intros x [].
    - intros x [<-|[]]. right. lia. }
  wps.
  eapply wp_coalesce_exact; [exact Hinv2|apply in_or_app; right; left; reflexivity|].
  intros st3 bs3 fl3 bp3 sz3 Hinv3 Hg3 Hin3 Hle3 Hcov3 Hm3 Hk3. wps.
  apply (HQ st3 bs3 fl3); [exact Hinv3|exact (same_globals_trans _ _ _ Hg2 Hg3)| | |].
  { intros s Hs.
    pose proof (block_facts _ _ _ _ _ (proj1 Hinv3) Hs).
    pose proof (block_facts _ _ _ _ _ (proj1 Hinv3) Hin3).
    destruct (chain_disjoint _ _ _ _ _ _ _ _ _ _
                (ok_chain _ _ (proj1 Hinv3)) Hs Hin3) as [E|[?|?]];
      [discriminate E|lia|lia]. }
  { exists bp3, sz3. split; [exact Hin3|].
    destruct Hm3 as (L1 & pre & post & R1 & E2 & E3 & M3 & M4 & M5 & M6 & M7).
    exists L1, pre, post, R1. repeat (split; [|assumption || split]); try assumption.
    pose proof (ok_chain _ _ (proj1 Hinv2)) as Hc2.
    change (L ++ [(ptr, sz, false)] ++ R) with (L ++ (ptr, sz, false) :: R) in E2, Hc2.
    rewrite app_assoc in E2.
    destruct (chain_split_unique _ _ _ _ _ _ _ _ Hc2 E2) as [EL ER].
    rewrite Ebs, EL, ER, <- app_assoc. reflexivity. }
  eapply keeps_alloc_trans; [|apply Hk3].
  rewrite Ebs.
  eapply (retag_keeps_alloc st st2 L [(ptr, sz, true)] _ R ptr (ptr + sz));
    try eassumption.
  - rewrite Ebs in Hok. exact Hok.
  - intros b s [E|[]]. inversion E. reflexivity.
Qed.

Lemma wp_mm_free st bs fl ptr sz (Q : unit -> state -> Prop) :
  inv st bs fl [] -> In (ptr, sz, true) bs ->
  (forall st' bs' fl',
     inv st' bs' fl' [] -> same_globals st st' ->
     (forall s, ~ In (ptr, s, true) bs') ->
     keeps_alloc st bs st' bs' ptr -> Q tt st') ->
  wp (mm_free ptr) Q st.
Proof.
  intros Hinv Hblk HQ. eapply wp_mm_free_exact; [exact Hinv|exact Hblk|].
  intros st' bs' fl' H1 H2 H3 _ H4. exact (HQ st' bs' fl' H1 H2 H3 H4).
Qed.


Lemma same_globals_arena st st' : same_globals st st' -> same_arena st st'.
Proof. unfold same_globals, same_arena. intuition lia. Qed.

Lemma same_arena_trans st1 st2 st3 :
  same_arena st1 st2 -> same_arena st2 st3 -> same_arena st1 st3.
Proof. unfold same_arena. intuition (try congruence; try lia). Qed.

Lemma same_arena_refl st : same_arena st st.
Proof. unfold same_arena. intuition lia. Qed.

Lemma wp_extend_heap_exact st bs fl words (Q : Z -> state -> Prop) :
  inv st bs fl [] -> 0 <= words ->
  32 <= extend_size words -> extend_size words < 2 ^ 64 ->
  (mem_max_addr st < mem_brk st + extend_size words -> Q NULL st) ->
  (forall st' bs' fl' bp' sz',
     inv st' bs' fl' [] -> same_arena st st' ->
     In (bp', sz', false) bs' -> extend_size words <= sz' ->
     mem_brk st + extend_size words <= mem_max_addr st ->
     mem_brk st' = mem_brk st + extend_size words ->
     merged (bs ++ [(mem_brk st, extend_size words, false)])
       (mem_brk st) (extend_size words) false bs' bp' sz' ->
     (forall x, keeps_alloc st bs st' bs' x) -> Q bp' st') ->
  wp (extend_heap words) Q st.
Proof.
  intros Hinv Hw Hlo Hhi Hfail HQ. pose proof Hinv as (Hok & Hl & Hadj).
  pose proof (heap_ok_bounds _ _ Hok) as Hb.
  unfold extend_heap. consts.
  assert (Esz : (if words mod 2 =? 0 then wrap (words * 8)
                 else wrap (wrap (words + 1) * 8)) = extend_size words).
  { unfold extend_size in *. destruct (words mod 2 =? 0).
    - apply wrap_small. lia.
    - rewrite (wrap_small (words + 1)) by lia. apply wrap_small. lia. }
  rewrite Esz. set (size := extend_size words) in *.
  assert (Asz : size mod 8 = 0).
  { subst size. unfold extend_size. destruct (words mod 2 =? 0); zlia. }
  apply wp_bind. unfold wp at 1. unfold mem_sbrk.
  destruct ((0 <=? size) && (mem_brk st + size <=? mem_max_addr st)) eqn:Hgrow.
  - apply andb_prop in Hgrow as [_ Hroom]. apply Z.leb_le in Hroom.
    replace (mem_brk st =? wrap (-1)) with false.
    2:{ symmetry. apply Z.eqb_neq. change (wrap (-1)) with (2 ^ 64 - 1). lia. }
    set (brk := mem_brk st) in *.
    unfold FTRP, NEXT_BLKP, HDRP. consts.
    assert (V : forall p, mem_start_brk st <= p -> p + 8 <= mem_max_addr st ->
                          valid_addr (set_brk st (brk + size)) p = true).
    { intros p V1 V2. apply valid_addr_intro; cbn; assumption. }
    wps. wps; [apply V; lia|].
    wps. wps. wps; [apply V; lia|]. rewrite upd_same.
    rewrite size_of_PACK with (al := false) by lia.
    wps. wps. wps; [apply V; lia|].
    wps. wps. wps; [apply V; lia|].
    rewrite upd_other by lia. rewrite upd_same.
    rewrite size_of_PACK with (al := false) by lia.
    wps. wps. wps; [apply V; lia|].
    match goal with |- wp _ _ ?s => set (st3 := s) end.
    assert (Hinv3 : inv st3 (bs ++ [(brk, size, false)]) fl [brk]).
    { subst st3 brk. eapply inv_extend; try eassumption; cbn; try reflexivity.
      - rewrite !upd_other by lia. apply upd_same.
      - rewrite !upd_other by lia. apply upd_same.
      - apply upd_same.
      - intros a Ha. rewrite !upd_other by lia. reflexivity. }
    eapply wp_coalesce_exact;
      [exact Hinv3|apply in_or_app; right; left; reflexivity|].
    intros st4 bs4 fl4 bp4 sz4 Hinv4 Hg4 Hin4 Hle4 _ Hm4 Hk4.
    apply (HQ st4 bs4 fl4 bp4 sz4); try assumption.
    + apply same_globals_arena in Hg4. eapply same_arena_trans; [|exact Hg4].
      subst st3. unfold same_arena. cbn. fold brk. intuition lia.
    + destruct Hg4 as (_ & G2 & _). rewrite G2. subst st3. reflexivity.
    + intros x. eapply keeps_alloc_trans; [|apply Hk4].
      intros b s Hin _. split; [apply in_or_app; left; exact Hin|].
      intros a Ha. pose proof (block_facts _ _ _ _ _ Hok Hin).
      subst st3 brk. cbn [mem set_mem set_brk]. consts.
      rewrite !upd_other by lia. reflexivity.
  - rewrite Z.eqb_refl. apply wp_ret. apply Hfail.
    apply andb_false_iff in Hgrow as [H|H].
    + apply Z.leb_gt in H. lia.
    + apply Z.leb_gt in H. lia.
Qed.

Lemma wp_extend_heap st bs fl words (Q : Z -> state -> Prop) :
  inv st bs fl [] -> 0 <= words ->
  32 <= extend_size words -> extend_size words < 2 ^ 64 ->
  (mem_max_addr st < mem_brk st + extend_size words -> Q NULL st) ->
  (forall st' bs' fl' bp' sz',
     inv st' bs' fl' [] -> same_arena st st' ->
     In (bp', sz', false) bs' -> extend_size words <= sz' ->
     (forall x, keeps_alloc st bs st' bs' x) -> Q bp' st') ->
  wp (extend_heap words) Q st.
Proof.
  intros Hinv Hw Hlo Hhi Hfail HQ.
  eapply wp_extend_heap_exact; try eassumption.
  intros st' bs' fl' bp' sz' H1 H2 H3 H4 _ _ _ H5.
  exact (HQ st' bs' fl' bp' sz' H1 H2 H3 H4 H5).
Qed.

(** ** [find_fit] *)

Lemma wp_wpg {A} t (c : M A) Q st : wp c Q st -> wpg t c Q st.
Proof. unfold wp, wpg. destruct (c st) as [[a st']| |]; tauto. Qed.

Lemma wpg_wp {A} (c : M A) Q st : wpg true c Q st -> wp c Q st.
Proof. unfold wp, wpg. destruct (c st) as [[a st']| |]; tauto. Qed.

Lemma wpg_ret {A} t (a : A) Q st : Q a st -> wpg t (ret a) Q st.
Proof. intros H. exact H. Qed.

Lemma wpg_bind {A B} t (c : M A) (k : A -> M B) Q st :
  wpg t c (fun a st' => wpg t (k a) Q st') st -> wpg t (bind c k) Q st.
Proof.
  unfold wpg, bind. destruct (c st) as [[a st']| |]; auto.
Qed.

Lemma wpg_conseq {A} t (c : M A) (Q Q' : A -> state -> Prop) st :
  wpg t c Q st -> (forall a st', Q a st' -> Q' a st') -> wpg t c Q' st.
Proof.
  unfold wpg. destruct (c st) as [[a st']| |]; auto.
Qed.

Lemma wpg_Ok {A} t (c : M A) Q st a st' :
  wpg t c Q st -> c st = Ok (a, st') -> Q a st'.
Proof. unfold wpg. intros H E. rewrite E in H. exact H. Qed.

Lemma scan_list_spec t st asize s q l : forall p fuel,
  seg (mem st) p l q -> mem st q = s ->
  (forall x, In x l ->
     x <> s /\ valid_addr st (HDRP x) = true /\ valid_addr st x = true) ->
  (t = true -> (length l < fuel)%nat) ->
  wpg t (scan_list fuel asize s (mem st p))
    (fun r st' => st' = st /\ r = first_fit st asize l) st.
Proof.
  induction l as [|x r IH]; intros p fuel Hseg Hq Hl Hfuel.
  - cbn [seg] in Hseg. subst q. rewrite Hq.
    destruct fuel as [|fuel].
    + destruct t; [|exact I]. specialize (Hfuel eq_refl). cbn in Hfuel. lia.
    + cbn [scan_list]. rewrite Z.eqb_refl. apply wpg_ret. auto.
  - cbn [seg] in Hseg. destruct Hseg as (Ex & _ & Hseg). rewrite Ex.
    destruct (Hl x (or_introl eq_refl)) as (Hxs & Vh & Vx).
    destruct fuel as [|fuel].
    + destruct t; [|exact I]. specialize (Hfuel eq_refl). cbn in Hfuel. lia.
    + cbn [scan_list].
      replace (x =? s) with false by (symmetry; apply Z.eqb_neq; exact Hxs).
      apply wpg_bind, wp_wpg, wp_GET_SIZE; [exact Vh|].
      unfold first_fit. cbn [find]. fold (hdr_size st x).
      destruct (asize <=? hdr_size st x).
      * apply wpg_ret. auto.
      * apply wpg_bind, wp_wpg, wp_GET; [exact Vx|]. unfold next_of.
        apply (IH x fuel Hseg Hq).
        -- intros y Hy. apply Hl. right. exact Hy.
        -- intros Ht. specialize (Hfuel Ht). cbn in Hfuel. lia.
Qed.

Lemma find_app {A} (f : A -> bool) (l1 l2 : list A) :
  find f (l1 ++ l2) = match find f l1 with
                      | Some a => Some a
                      | None => find f l2
                      end.
Proof.
  induction l1 as [|a l1 IH]; cbn [app find]; [reflexivity|].
  destruct (f a); [reflexivity|exact IH].
Qed.

Lemma scan_buckets_spec t st asize fl fuel n : forall i,
  (forall j, In j (indices n i) ->
     ring (mem st) (bucket st j) (fl j) /\ readable st (bucket st j) (fl j)
     /\ (t = true -> (length (fl j) < fuel)%nat)) ->
  wpg t (scan_buckets fuel n asize i)
    (fun r st' =>
       st' = st
       /\ r = match first_fit st asize (flat_map fl (indices n i)) with
              | Some b => b
              | None => NULL
              end) st.
Proof.
  induction n as [|n IH]; intros i Hb; cbn [scan_buckets indices flat_map].
  - apply wpg_ret. auto.
  - destruct (Hb i (or_introl eq_refl)) as ((Hseg & Hq & _) & (Vs & Hl) & Hfuel).
    apply wpg_bind, wp_wpg, wp_get_state.
    apply wpg_bind, wp_wpg, wp_GET; [exact Vs|]. unfold next_of.
    apply wpg_bind.
    eapply wpg_conseq;
      [apply (scan_list_spec t st asize _ _ _ _ fuel Hseg Hq Hl Hfuel)|].
    intros r st' [-> ->]. unfold first_fit. rewrite find_app.
    fold (first_fit st asize (fl i)).
    destruct (first_fit st asize (fl i)) as [b|].
    + apply wpg_ret. auto.
    + apply IH. intros j Hj. apply Hb. right. exact Hj.
Qed.

Lemma find_fit_first_fit t st asize fl fuel :
  (forall j, In j (indices (Z.to_nat (MAX_SIZE st
                              - first_bucket (MAX_SIZE st) (classof asize)))
                    (first_bucket (MAX_SIZE st) (classof asize))) ->
     ring (mem st) (bucket st j) (fl j) /\ readable st (bucket st j) (fl j)
     /\ (t = true -> (length (fl j) < fuel)%nat)) ->
  wpg t (find_fit fuel asize)
    (fun r st' =>
       st' = st
       /\ r = match first_fit st asize
                      (flat_map fl
                         (indices (Z.to_nat (MAX_SIZE st
                              - first_bucket (MAX_SIZE st) (classof asize)))
                            (first_bucket (MAX_SIZE st) (classof asize)))) with
              | Some b => b
              | None => NULL
              end) st.
Proof.
  intros Hb. unfold find_fit. apply wpg_bind, wp_wpg, wp_get_state.
  fold (classof asize). apply scan_buckets_spec. exact Hb.
Qed.

Lemma indices_In n : forall i j, In j (indices n i) -> i <= j < i + Z.of_nat n.
Proof.
  induction n as [|n IH]; intros i j; cbn [indices].
  - intros [].
  - intros [<-|Hin]; [lia|]. apply IH in Hin. lia.
Qed.

Lemma bucket_length st bs fl hole i :
  inv st bs fl hole -> 0 <= i < 15 -> (length (fl i) <= length bs)%nat.
Proof.
  intros Hinv Hi. pose proof Hinv as (_ & Hl & _).
  rewrite <- (length_map (fun x : blk => fst (fst x)) bs).
  apply NoDup_incl_length; [apply (ok_nodup _ _ _ _ Hl); exact Hi|].
  intros x Hx.
  destruct (ok_member _ _ _ _ Hl i x Hi Hx) as (sz & B & _).
  apply in_map_iff. exists (x, sz, false). auto.
Qed.

Lemma bucket_readable st bs fl hole i :
  inv st bs fl hole -> 0 <= i < 15 -> readable st (bucket st i) (fl i).
Proof.
  intros Hinv Hi. pose proof Hinv as (Hok & Hl & _).
  pose proof (heap_ok_bounds _ _ Hok) as Hb.
  split.
  - rewrite (bucket_eq _ _ _ Hok Hi). apply valid_addr_intro; lia.
  - intros x Hx. split; [eapply member_not_sentinel; eassumption|].
    destruct (ok_member _ _ _ _ Hl i x Hi Hx) as (sz & B & _).
    pose proof (block_facts _ _ _ _ _ Hok B).
    unfold HDRP. consts. rewrite (wrap_small (x - 8)) by lia.
    split; apply valid_addr_intro; lia.
Qed.

Lemma first_bucket_range h : 0 <= h < 15 -> 0 <= first_bucket 15 h < 15.
Proof. unfold first_bucket. intros H. destruct (h + 1 =? 15) eqn:E; lia. Qed.

Lemma find_fit_inv t st bs fl asize fuel :
  inv st bs fl [] -> (t = true -> (length bs < fuel)%nat) ->
  wpg t (find_fit fuel asize)
    (fun r st' =>
       st' = st
       /\ (r = NULL \/ exists sz, In (r, sz, false) bs /\ asize <= sz)) st.
Proof.
  intros Hinv Hfuel. pose proof Hinv as (Hok & Hl & _).
  pose proof (ok_MAX_SIZE _ _ Hok) as HM.
  pose proof (first_bucket_range _ (classof_range asize)) as Hfb.
  assert (Hidx : forall j,
            In j (indices (Z.to_nat (MAX_SIZE st
                             - first_bucket (MAX_SIZE st) (classof asize)))
                    (first_bucket (MAX_SIZE st) (classof asize))) ->
            0 <= j < 15).
  { intros j Hj. rewrite HM in Hj. apply indices_In in Hj. lia. }
  eapply wpg_conseq; [apply (find_fit_first_fit t st asize fl fuel)|].
  - intros j Hj. specialize (Hidx j Hj).
    split; [apply (ok_ring _ _ _ _ Hl); exact Hidx|].
    split; [eapply bucket_readable; eassumption|].
    intros Ht. specialize (Hfuel Ht).
    pose proof (bucket_length _ _ _ _ j Hinv Hidx). lia.
  - intros r st' [-> ->]. split; [reflexivity|].
    destruct (first_fit _ _ _) as [b|] eqn:Ef; [|left; reflexivity].
    right. unfold first_fit in Ef. apply find_some in Ef as [Hin Hsz].
    apply in_flat_map in Hin as (j & Hj & Hin). specialize (Hidx j Hj).
    destruct (ok_member _ _ _ _ Hl j b Hidx Hin) as (sz & B & _).
    exists sz. split; [exact B|].
    pose proof (block_facts _ _ _ _ _ Hok B) as (F1 & F2 & F3 & F4 & F5 & F6 & F7).
    pose proof (heap_ok_bounds _ _ Hok) as Hb.
    unfold hdr_size, HDRP in Hsz. consts.
    rewrite (wrap_small (b - 8)) in Hsz by lia.
    rewrite F6, size_of_PACK in Hsz by lia. apply Z.leb_le. exact Hsz.
Qed.

(** ** [mm_malloc] *)

Lemma adjust_facts n :
  0 < n -> n + 40 <= 2 ^ 64 ->
  32 <= adjust n /\ adjust n mod 8 = 0 /\ n + 16 <= adjust n
  /\ adjust n <= n + 31.
Proof.
  intros Hn Hhi. unfold adjust. consts.
  destruct (n <=? 16) eqn:E.
  - apply Z.leb_le in E. repeat split; try lia.
  - apply Z.leb_gt in E.
    rewrite (wrap_small (n + 16 + (8 - 1))) by lia.
    rewrite wrap_small by zlia. repeat split; zlia.
Qed.

Lemma wpg_mm_malloc t st bs fl n fuel (Q : Z -> state -> Prop) :
  inv st bs fl [] -> 0 < n -> n + 40 <= 2 ^ 64 ->
  (t = true -> (length bs < fuel)%nat) ->
  Q NULL st ->
  (forall st' bs' fl' p sz,
     inv st' bs' fl' [] -> same_arena st st' ->
     In (p, sz, true) bs' -> adjust n <= sz ->
     (forall s, ~ In (p, s, true) bs) ->
     (forall x, keeps_alloc st bs st' bs' x) -> Q p st') ->
  wpg t (mm_malloc fuel n) Q st.
Proof.
  intros Hinv Hn Hhi Hfuel Hfail HQ. pose proof Hinv as (Hok & Hl & Hadj).
  pose proof (heap_ok_bounds _ _ Hok) as Hb.
  destruct (adjust_facts n Hn Hhi) as (A1 & A2 & A3 & A4).
  unfold mm_malloc.
  replace (n =? 0) with false by (symmetry; apply Z.eqb_neq; lia).
  apply wpg_bind.
  eapply wpg_conseq; [apply (find_fit_inv t st bs fl _ fuel Hinv Hfuel)|].
  intros r st' [-> [->|(sz & B & Hsz)]].
  - (* no fit *)
    cbn [negb Z.eqb NULL]. apply wp_wpg. apply wp_bind.
    assert (Hext : MAX (adjust n) CHUNKSIZE mod 8 = 0
                   /\ adjust n <= MAX (adjust n) CHUNKSIZE
                   /\ 4096 <= MAX (adjust n) CHUNKSIZE
                   /\ MAX (adjust n) CHUNKSIZE <= 2 ^ 64 - 16).
    { unfold MAX. change CHUNKSIZE with 4096.
      destruct (adjust n >? 4096) eqn:E.
      - apply Z.gtb_lt in E. repeat split; try lia. zlia.
      - rewrite Z.gtb_ltb in E. apply Z.ltb_ge in E. repeat split; lia. }
    destruct Hext as (E1 & E2 & E3 & E4).
    set (es := MAX (adjust n) CHUNKSIZE) in *. consts.
    assert (Hes : es <= extend_size (es / 8) /\ extend_size (es / 8) < 2 ^ 64).
    { unfold extend_size. destruct (es / 8 mod 2 =? 0) eqn:Ev.
      - split; zlia.
      - apply Z.eqb_neq in Ev. split; zlia. }
    eapply wp_extend_heap; [exact Hinv|zlia|lia|lia| |].
    + intros _. cbn [Z.eqb NULL]. apply wp_ret. exact Hfail.
    + intros st1 bs1 fl1 bp1 sz1 Hinv1 Ha1 Hin1 Hle1 Hk1.
      pose proof (block_facts _ _ _ _ _ (proj1 Hinv1) Hin1) as F.
      pose proof (heap_ok_bounds _ _ (proj1 Hinv1)) as Hb1.
      replace (bp1 =? 0) with false by (symmetry; apply Z.eqb_neq; lia).
      apply wp_bind.
      eapply wp_place; [exact Hinv1|exact Hin1|lia|exact A2|lia|].
      intros st2 bs2 fl2 sz2 Hinv2 Hg2 Hin2 Hle2 Hk2. apply wp_ret.
      apply (HQ st2 bs2 fl2 bp1 sz2); try assumption.
      * eapply same_arena_trans; [exact Ha1|apply same_globals_arena; exact Hg2].
      * intros s Hs.
        destruct (Hk1 0 bp1 s Hs) as [Hs1 _]; [lia|].
        destruct (chain_unique _ _ _ _ _ _ _ _ _
                    (ok_chain _ _ (proj1 Hinv1)) Hs1 Hin1) as [_ E].
        discriminate E.
      * intros x. eapply keeps_alloc_trans; [apply Hk1|apply Hk2].
  - (* fit *)
    pose proof (block_facts _ _ _ _ _ Hok B) as F.
    replace (r =? NULL) with false by (symmetry; apply Z.eqb_neq; unfold NULL; lia).
    cbn [negb]. apply wp_wpg. apply wp_bind.
    eapply wp_place; [exact Hinv|exact B|lia|exact A2|lia|].
    intros st2 bs2 fl2 sz2 Hinv2 Hg2 Hin2 Hle2 Hk2. apply wp_ret.
    apply (HQ st2 bs2 fl2 r sz2); try assumption.
    + apply same_globals_arena. exact Hg2.
    + intros s Hs.
      destruct (chain_unique _ _ _ _ _ _ _ _ _ (ok_chain _ _ Hok) Hs B) as [_ E].
      discriminate E.
Qed.

(** ** [mm_init] *)

Lemma wp_init_heads f (Q : unit -> state -> Prop) : forall n i st0,
  free_listp st0 = f -> 0 < mem_start_brk st0 -> mem_start_brk st0 <= f ->
  f mod 8 = 0 ->
  f + 240 <= mem_max_addr st0 -> mem_max_addr st0 < 2 ^ 64 ->
  0 <= i -> i + Z.of_nat n <= 15 ->
  (forall st', same_globals st0 st' ->
     (forall j, i <= j < i + Z.of_nat n ->
        mem st' (f + 16 * j) = f + 16 * j
        /\ mem st' (f + 16 * j + 8) = f + 16 * j) ->
     (forall a, a < f + 16 * i \/ f + 16 * (i + Z.of_nat n) <= a ->
        mem st' a = mem st0 a) ->
     Q tt st') ->
  wp (init_heads n i) Q st0.
Proof.
  induction n as [|n IH]; intros i st0 Hf Hpos Hlo Hal Hhi Hmax Hi Hn HQ;
    cbn [init_heads].
  - apply wp_ret. apply HQ.
    + apply same_globals_refl.
    + intros j Hj. lia.
    + intros a _. reflexivity.
  - wp_step. wp_step. wp_step. unfold init_head, bucket, next_of, prev_of.
    rewrite Hf. consts. rewrite (wrap_small (f + 16 * i)) by lia.
    wps. wps; [valid_tac|]. wps; [valid_tac|].
    match goal with |- wp _ _ ?s => set (st1 := s) end.
    apply (IH (i + 1) st1); subst st1;
      cbn [free_listp mem_start_brk mem_max_addr set_mem mem];
      try assumption; try lia.
    intros st' Hg Hj Ha. apply HQ.
    + eapply same_globals_trans; [|exact Hg].
      unfold same_globals. cbn. tauto.
    + intros j Hr. destruct (Z.eq_dec j i) as [->|Hne].
      * rewrite (Ha (f + 16 * i)), (Ha (f + 16 * i + 8)) by lia. cbn [mem set_mem].
        rewrite upd_other by lia. rewrite !upd_same. auto.
      * apply Hj. lia.
    + intros a Hr. rewrite Ha by lia. cbn [mem set_mem].
      rewrite !upd_other by lia. reflexivity.
Qed.

Lemma wp_mem_sbrk incr (Q : Z -> state -> Prop) st :
  0 <= incr ->
  (mem_brk st + incr <= mem_max_addr st ->
   Q (mem_brk st) (set_brk st (mem_brk st + incr))) ->
  (mem_max_addr st < mem_brk st + incr -> Q (wrap (-1)) st) ->
  wp (mem_sbrk incr) Q st.
Proof.
  intros Hi Hok Hfail. unfold wp, mem_sbrk.
  replace (0 <=? incr) with true by (symmetry; apply Z.leb_le; exact Hi).
  cbn [andb]. destruct (mem_brk st + incr <=? mem_max_addr st) eqn:E.
  - apply Hok. apply Z.leb_le. exact E.
  - apply Hfail. apply Z.leb_gt. exact E.
Qed.

Lemma wp_put_state s (Q : unit -> state -> Prop) st :
  Q tt s -> wp (put_state s) Q st.
Proof. intros H. exact H. Qed.

Lemma merged_single bp sz al bs' bp' sz' :
  merged [(bp, sz, al)] bp sz al bs' bp' sz' ->
  bs' = [(bp, sz, false)] /\ bp' = bp /\ sz' = sz.
Proof.
  intros (L & pre & post & R & E & -> & _ & _ & _ & -> & ->).
  destruct L as [|l L].
  - destruct pre as [|x pre].
    + cbn [app] in E. inversion E as [E']. symmetry in E'.
      apply app_eq_nil in E'. destruct E' as [-> ->].
      cbn [total_size fold_right app].
      repeat split; f_equal; try f_equal; try f_equal; lia.
    + cbn [app] in E. inversion E as [[Ex E']]. symmetry in E'.
      apply app_eq_nil in E'. destruct E' as [_ E']. discriminate E'.
  - cbn [app] in E. inversion E as [[El E']]. symmetry in E'.
    apply app_eq_nil in E'. destruct E' as [_ E'].
    apply app_eq_nil in E'. destruct E' as [_ E']. discriminate E'.
Qed.

Lemma wp_mm_init_exact st (Q : Z -> state -> Prop) :
  0 < mem_start_brk st -> mem_start_brk st <= mem_brk st ->
  mem_brk st mod 8 = 0 -> mem_max_addr st < 2 ^ 64 ->
  (forall st', mem_max_addr st < mem_brk st + 4360 -> Q (-1) st') ->
  (forall st' bs fl, inv st' bs fl [] ->
     mem_start_brk st' = mem_start_brk st ->
     mem_max_addr st' = mem_max_addr st ->
     free_listp st' = mem_brk st -> heap_listp st' = mem_brk st + 248 ->
     mem_brk st + 4360 <= mem_max_addr st ->
     mem_brk st' = mem_brk st + 4360 ->
     bs = [(mem_brk st + 264, 4096, false)] ->
     Q 0 st') ->
  wp mm_init Q st.
Proof.
  intros Hs Hb Hal Hmax Hfail HQ. unfold mm_init.
  set (f := mem_brk st) in *.
  wp_step. wp_step. wp_step. apply wp_put_state.
  wp_step. wp_step. wp_step.
  cbn [MAX_SIZE set_MAX_SIZE]. consts. change (wrap (15 * 16)) with 240.
  apply wp_mem_sbrk; [lia| |];
    cbn [mem_brk mem_max_addr set_MAX_SIZE set_brk]; fold f; intros Hroom1.
  2:{ wp_step. wp_step. wp_step. apply wp_put_state.
      rewrite Z.eqb_refl. apply wp_ret. apply Hfail. lia. }
  wp_step. wp_step. wp_step. apply wp_put_state.
  replace (f =? wrap (-1)) with false.
  2:{ symmetry. apply Z.eqb_neq. change (wrap (-1)) with (2 ^ 64 - 1). lia. }
  wp_step. change (3 * 8) with 24.
  apply wp_mem_sbrk; [lia| |];
    cbn [mem_brk mem_max_addr set_MAX_SIZE set_brk set_free_listp];
    intros Hroom2.
  2:{ wp_step. wp_step. wp_step. apply wp_put_state.
      rewrite Z.eqb_refl. apply wp_ret. apply Hfail. lia. }
  wp_step. wp_step. wp_step. apply wp_put_state.
  replace (f + 240 =? wrap (-1)) with false.
  2:{ symmetry. apply Z.eqb_neq. change (wrap (-1)) with (2 ^ 64 - 1). lia. }
  cbn [MAX_SIZE set_free_listp set_brk set_MAX_SIZE].
  wp_step.
  change (Z.to_nat 15) with 15%nat.
  apply (wp_init_heads f);
    cbn [free_listp mem_start_brk mem_max_addr set_heap_listp set_brk
         set_free_listp set_MAX_SIZE];
    try assumption; try lia.
  intros st1 (G1 & G2 & G3 & G4 & G5 & G6) Hj Ha.
  cbn [free_listp mem_start_brk mem_max_addr mem_brk heap_listp MAX_SIZE
       set_heap_listp set_brk set_free_listp set_MAX_SIZE] in G1, G2, G3, G4, G5, G6.
  change (Z.of_nat 15) with 15 in *.
  change (PACK 16 1) with 17. change (PACK 0 1) with 1.
  assert (V : forall p, f <= p -> p + 8 <= f + 264 -> valid_addr st1 p = true).
  { intros p V1 V2. apply valid_addr_intro; lia. }
  wps. wps; [apply V; lia|].
  wps. wps; [apply V; lia|].
  wps. wps; [apply V; lia|].
  wps. wps. wps. apply wp_put_state.
  match goal with |- wp _ _ ?s => set (st2 := s) end.
  assert (Hinv2 : inv st2 [] (fun _ => []) []).
  { subst st2. split; [|split].
    - constructor;
        cbn [mem mem_start_brk mem_brk mem_max_addr heap_listp free_listp
             MAX_SIZE set_mem set_heap_listp chain]; consts;
        rewrite ?G1, ?G2, ?G3, ?G4, ?G5, ?G6; try lia; try assumption.
      + zlia.
      + replace (f + 240 + 8 - 8) with (f + 240) by lia.
        rewrite !upd_other by lia. apply upd_same.
      + rewrite upd_other by lia. apply upd_same.
      + replace (f + 240 + 24 - 8) with (f + 240 + 16) by lia. apply upd_same.
    - constructor.
      + intros i Hi. unfold ring, bucket.
        cbn [last seg mem free_listp set_mem set_heap_listp]. rewrite G5.
        consts. rewrite (wrap_small (f + 16 * i)) by lia.
        destruct (Hj i Hi) as [H1 H2].
        rewrite !upd_other by lia. auto.
      + intros i _. constructor.
      + intros i b _ [].
      + intros b sz [].
    - intros b1 s1 b2 s2 []. }
  wp_step. change (CHUNKSIZE / 8) with 512.
  eapply wp_extend_heap_exact;
    [exact Hinv2|lia|vm_compute; discriminate|reflexivity| |].
  - intros Hroom3. rewrite Z.eqb_refl. apply wp_ret. apply Hfail.
    subst st2. cbn in Hroom3. rewrite G2, G3 in Hroom3.
    change (extend_size 512) with 4096 in Hroom3. lia.
  - intros st3 bs3 fl3 bp3 sz3 Hinv3 (A1 & A2 & A3 & A4 & A5 & A6) Hin3 _
      Hroom3 Hbrk3 Hm3 _.
    pose proof (block_facts _ _ _ _ _ (proj1 Hinv3) Hin3) as F.
    pose proof (heap_ok_bounds _ _ (proj1 Hinv3)) as Hb3.
    replace (bp3 =? 0) with false by (symmetry; apply Z.eqb_neq; lia).
    apply wp_ret. cbn [app] in Hm3.
    apply merged_single in Hm3. destruct Hm3 as (Hbs3 & _ & _).
    change (extend_size 512) with 4096 in *.
    subst st2. cbn in A1, A3, A4, A5, Hroom3, Hbrk3, Hbs3.
    apply (HQ st3 bs3 fl3 Hinv3); try lia.
    rewrite Hbs3, G2. f_equal. f_equal. f_equal. lia.
Qed.

Lemma wp_mm_init st (Q : Z -> state -> Prop) :
  0 < mem_start_brk st -> mem_start_brk st <= mem_brk st ->
  mem_brk st mod 8 = 0 -> mem_max_addr st < 2 ^ 64 ->
  (forall st', mem_max_addr st < mem_brk st + 4360 -> Q (-1) st') ->
  (forall st' bs fl, inv st' bs fl [] ->
     mem_start_brk st' = mem_start_brk st ->
     mem_max_addr st' = mem_max_addr st ->
     free_listp st' = mem_brk st -> heap_listp st' = mem_brk st + 248 ->
     Q 0 st') ->
  wp mm_init Q st.
Proof.
  intros H1 H2 H3 H4 Hfail HQ. apply wp_mm_init_exact; try assumption.
  intros st' bs fl Hinv E1 E2 E3 E4 _ _ _. exact (HQ st' bs fl Hinv E1 E2 E3 E4).
Qed.

(** After a successful [mm_init] the heap is well formed. *)
Lemma mm_init_wf st st' :
  0 < mem_start_brk st -> mem_start_brk st <= mem_brk st ->
  mem_brk st mod 8 = 0 -> mem_max_addr st < 2 ^ 64 ->
  mm_init st = Ok (0, st') -> wf st'.
Proof.
  intros H1 H2 H3 H4 E.
  assert (W : wp mm_init (fun r s => r = 0 -> wf s) st).
  { apply wp_mm_init; try assumption.
    - intros s _ Hr. discriminate Hr.
    - intros s bs fl Hinv _ _ _ _ _. exists bs, fl. exact Hinv. }
  unfold wp in W. rewrite E in W. apply W. reflexivity.
Qed.

(** [mm_init] returns; it fails only when the arena cannot hold the bucket
    array, the prologue and epilogue, and the first chunk. *)
Lemma mm_init_returns st :
  0 < mem_start_brk st -> mem_start_brk st <= mem_brk st ->
  mem_brk st mod 8 = 0 -> mem_max_addr st < 2 ^ 64 ->
  mem_brk st + 4360 <= mem_max_addr st ->
  exists st', mm_init st = Ok (0, st') /\ wf st'.
Proof.
  intros H1 H2 H3 H4 H5.
  assert (W : wp mm_init (fun r s => r = 0 /\ wf s) st).
  { apply wp_mm_init; try assumption.
    - intros s Hlt. lia.
    - intros s bs fl Hinv _ _ _ _. split; [reflexivity|]. exists bs, fl. exact Hinv. }
  unfold wp in W. destruct (mm_init st) as [[r s]| |]; try contradiction.
  destruct W as [-> W]. exists s. auto.
Qed.

(** ** [memcpy] *)

Lemma wp_copy_words (Q : unit -> state -> Prop) : forall k st dst src,
  0 < mem_start_brk st -> mem_max_addr st < 2 ^ 64 ->
  mem_start_brk st <= dst -> mem_start_brk st <= src ->
  dst + 8 * Z.of_nat k <= mem_max_addr st ->
  src + 8 * Z.of_nat k <= mem_max_addr st ->
  dst mod 8 = 0 -> src mod 8 = 0 ->
  dst + 8 * Z.of_nat k <= src \/ src + 8 * Z.of_nat k <= dst ->
  (forall st', same_globals st st' ->
     (forall j, 0 <= j < Z.of_nat k ->
        mem st' (dst + 8 * j) = mem st (src + 8 * j)) ->
     (forall a, a < dst \/ dst + 8 * Z.of_nat k <= a -> mem st' a = mem st a) ->
     Q tt st') ->
  wp (copy_words k dst src) Q st.
Proof.
  induction k as [|k IH]; intros st dst src Hs Hmax Hd Hsr Hde Hse Had Has Hdis HQ;
    cbn [copy_words].
  - apply wp_ret. apply HQ.
    + apply same_globals_refl.
    + intros j Hj. lia.
    + intros a _. reflexivity.
  - consts. wps. wps; [valid_tac|]. wps. wps; [valid_tac|].
    unwrap.
    apply IH; cbn [mem_start_brk mem_max_addr set_mem]; try lia; try zlia.
    intros st' Hg Hj Ha. apply HQ.
    + eapply same_globals_trans; [apply same_globals_set_mem|exact Hg].
    + intros j Hr. destruct (Z.eq_dec j 0) as [->|Hne].
      * rewrite Z.mul_0_r, !Z.add_0_r. rewrite Ha by lia.
        cbn [mem set_mem]. apply upd_same.
      * replace (dst + 8 * j) with (dst + 8 + 8 * (j - 1)) by lia.
        rewrite Hj by lia. cbn [mem set_mem].
        rewrite upd_other by lia. f_equal. lia.
    + intros a Hr. rewrite Ha by lia. cbn [mem set_mem].
      apply upd_other. lia.
Qed.

(** Writing the payload of an allocated block keeps the heap well formed and
    the other allocated blocks as they are. *)
Lemma inv_payload st st' bs fl b sz :
  inv st bs fl [] -> In (b, sz, true) bs -> same_globals st st' ->
  (forall a, ~ (b <= a < b + sz - 16) -> mem st' a = mem st a) ->
  inv st' bs fl [] /\ keeps_alloc st bs st' bs b.
Proof.
  intros Hinv Hin Hg Hf. pose proof Hinv as (Hok & _).
  pose proof (block_facts _ _ _ _ _ Hok Hin) as (F1 & F2 & F3 & F4 & F5 & F6 & F7).
  destruct (chain_split _ _ _ _ _ _ _ (ok_chain _ _ Hok) Hin)
    as (L & R & Ebs & HL & HR).
  assert (Hrun : chain (mem st) b [(b, sz, true)] (b + sz)).
  { cbn [chain]. consts. repeat split; try assumption; lia. }
  assert (Hrun' : chain (mem st') b [(b, sz, true)] (b + sz)).
  { cbn [chain]. consts. rewrite !Hf by lia. repeat split; try assumption; lia. }
  assert (Hf' : forall a, ~ (b - 8 <= a < b + sz - 8) -> mem st' a = mem st a).
  { intros a Ha. apply Hf. lia. }
  consts. subst bs. change ((b, sz, true) :: R) with ([(b, sz, true)] ++ R) in *.
  split.
  - eapply (inv_retag st st' L [(b, sz, true)] [(b, sz, true)] R fl [] [] b (b + sz));
      try eassumption.
    + intros c sc [E|[]]. discriminate E.
    + intros c sc [E|[]]. discriminate E.
    + intros x Hx. exact Hx.
    + intros x Hx. left. exact Hx.
  - eapply (retag_keeps_alloc st st' L [(b, sz, true)] [(b, sz, true)] R b (b + sz));
      try eassumption.
    intros c sc [E|[]]. inversion E. reflexivity.
Qed.

(** ** [mm_realloc] *)

Lemma adjust_mono_double n oldsize :
  0 < n -> 2 * n + 40 <= 2 ^ 64 -> 32 <= oldsize -> oldsize mod 8 = 0 ->
  oldsize <= adjust n -> oldsize < adjust n ->
  oldsize + 16 <= adjust (2 * n).
Proof.
  intros Hn Hhi Ho Hm _ Hlt. unfold adjust in *. consts.
  destruct (n <=? 16) eqn:E1; destruct (2 * n <=? 16) eqn:E2;
    try apply Z.leb_le in E1; try apply Z.leb_gt in E1;
    try apply Z.leb_le in E2; try apply Z.leb_gt in E2; try lia.
  rewrite (wrap_small (n + 16 + (8 - 1))) in Hlt by lia.
  rewrite wrap_small in Hlt by zlia.
  rewrite (wrap_small (2 * n + 16 + (8 - 1))) by lia.
  rewrite wrap_small by zlia. zlia.
Qed.

Lemma wpg_mm_realloc_grow t st bs fl ptr n oldsize fuel (Q : Z -> state -> Prop) :
  inv st bs fl [] -> In (ptr, oldsize, true) bs ->
  0 < n -> 2 * n + 40 <= 2 ^ 64 -> oldsize < adjust n ->
  (t = true -> (length bs < fuel)%nat) ->
  Q NULL st ->
  (forall st' bs' fl' p sz,
     inv st' bs' fl' [] -> same_arena st st' ->
     In (p, sz, true) bs' -> adjust (2 * n) <= sz -> p <> ptr ->
     (forall s, ~ In (ptr, s, true) bs') ->
     content_preserved st st' ptr p (oldsize - WSIZE) ->
     (forall b s, In (b, s, true) bs -> b <> ptr ->
        In (b, s, true) bs'
        /\ forall a, b - WSIZE <= a < b + s - WSIZE -> mem st' a = mem st a) ->
     Q p st') ->
  wpg t (mm_realloc fuel ptr n) Q st.
Proof.
  intros Hinv Hin Hn Hhi Hgrow Hfuel Hfail HQ.
  pose proof Hinv as (Hok & _).
  pose proof (heap_ok_bounds _ _ Hok) as Hb.
  pose proof (block_facts _ _ _ _ _ Hok Hin) as (F1 & F2 & F3 & F4 & F5 & F6 & F7).
  unfold mm_realloc, HDRP. consts.
  rewrite (wrap_small (ptr - 8)) by lia.
  apply wpg_bind, wp_wpg, wp_GET_SIZE; [valid_tac|].
  rewrite F6, size_of_PACK by lia.
  replace (n =? 0) with false by (symmetry; apply Z.eqb_neq; lia).
  replace (ptr =? 0) with false by (symmetry; apply Z.eqb_neq; lia).
  replace (adjust n <? oldsize) with false by (symmetry; apply Z.ltb_ge; lia).
  rewrite (wrap_small (2 * n)) by lia.
  apply wpg_bind.
  apply (wpg_mm_malloc t st bs fl (2 * n) fuel); try assumption; try lia.
  intros st1 bs1 fl1 p sz1 Hinv1 Ha1 Hin1 Hsz1 Hnew Hk1.
  pose proof Hinv1 as (Hok1 & _).
  pose proof (heap_ok_bounds _ _ Hok1) as Hb1.
  pose proof (block_facts _ _ _ _ _ Hok1 Hin1) as (P1 & P2 & P3 & P4 & P5 & P6 & P7).
  assert (Hpp : p <> ptr).
  { intros ->. exact (Hnew _ Hin). }
  destruct (Hk1 p ptr oldsize Hin (not_eq_sym Hpp)) as [Hin1' Hmem1].
  pose proof (adjust_mono_double n oldsize Hn Hhi F3 F4 (Z.lt_le_incl _ _ Hgrow) Hgrow)
    as Hfit.
  assert (Hdis : p + sz1 <= ptr \/ ptr + oldsize <= p).
  { destruct (chain_disjoint _ _ _ _ _ _ _ _ _ _ (ok_chain _ _ Hok1) Hin1 Hin1')
      as [E|[?|?]]; [inversion E; contradiction|lia|lia]. }
  replace (p =? 0) with false by (symmetry; apply Z.eqb_neq; lia).
  apply wp_wpg. apply wp_bind. unfold memcpy. consts.
  replace ((p + oldsize <=? ptr) || (ptr + oldsize <=? p)) with true.
  2:{ symmetry. apply orb_true_iff. rewrite !Z.leb_le. lia. }
  destruct Ha1 as (A1 & A2 & A3 & A4 & A5 & A6).
  assert (Ek : 8 * Z.of_nat (Z.to_nat (oldsize / 8)) = oldsize) by zlia.
  apply wp_copy_words; rewrite ?Ek; try lia.
  intros st2 Hg2 Hcopy Hrest.
  destruct (inv_payload st1 st2 bs1 fl1 p sz1 Hinv1 Hin1 Hg2) as [Hinv2 Hk2].
  { intros a Ha. apply Hrest. lia. }
  destruct (Hk2 ptr oldsize Hin1' (not_eq_sym Hpp)) as [_ Hmem2].
  apply wp_bind.
  apply (wp_mm_free st2 bs1 fl1 ptr oldsize _ Hinv2 Hin1').
  intros st3 bs3 fl3 Hinv3 Hg3 Hfreed Hk3. apply wp_ret.
  destruct (Hk3 p sz1 Hin1 Hpp) as [Hin3 Hmem3].
  apply (HQ st3 bs3 fl3 p sz1); try assumption.
  - eapply same_arena_trans; [|apply same_globals_arena; exact Hg3].
    eapply same_arena_trans; [|apply same_globals_arena; exact Hg2].
    unfold same_arena. repeat split; assumption.
  - intros a Ha Hm. consts.
    rewrite Hmem3 by lia.
    replace a with (8 * (a / 8)) by zlia.
    rewrite Hcopy by zlia. apply Hmem1. zlia.
  - intros b s Hb0 Hne.
    assert (Hbp : b <> p) by (intros ->; exact (Hnew _ Hb0)).
    destruct (Hk1 ptr b s Hb0 Hne) as [B1 M1].
    destruct (Hk2 b s B1 Hbp) as [_ M2].
    destruct (Hk3 b s B1 Hne) as [B3 M3].
    split; [exact B3|]. intros a Ha.
    rewrite M3, M2, M1 by exact Ha. reflexivity.
Qed.

(** ** Consequences for the interface *)

(** The boundary tags determine the blocks of the heap. *)
Lemma chain_deterministic m bs : forall bs' s e,
  chain m s bs e -> chain m s bs' e -> bs = bs'.
Proof.
  induction bs as [|[[b sz] al] bs IH]; intros [|[[b' sz'] al'] bs'] s e;
    cbn [chain]; consts.
  - reflexivity.
  - intros -> (_ & H1 & _ & _ & _ & H5). apply chain_le in H5. lia.
  - intros (_ & H1 & _ & _ & _ & H5) ->. apply chain_le in H5. lia.
  - intros (-> & H1 & H2 & H3 & H4 & H5) (-> & H1' & H2' & H3' & H4' & H5').
    assert (Es : sz = sz').
    { rewrite <- (size_of_PACK sz al), <- (size_of_PACK sz' al') by lia.
      congruence. }
    subst sz'.
    assert (Ea : al = al').
    { assert (E : b2z al = b2z al').
      { rewrite <- (alloc_of_PACK sz al), <- (alloc_of_PACK sz al') by lia.
        congruence. }
      destruct al, al'; cbn in E; congruence. }
    subst al'. f_equal. eapply IH; eassumption.
Qed.

Lemma inv_blocks_unique st bs fl bs' fl' :
  inv st bs fl [] -> inv st bs' fl' [] -> bs = bs'.
Proof.
  intros (Hok & _) (Hok' & _).
  eapply chain_deterministic; apply ok_chain; eassumption.
Qed.

Lemma allocated_wf st ptr sz : allocated st ptr sz -> wf st.
Proof. intros (bs & fl & Hinv & _). exists bs, fl. exact Hinv. Qed.

Lemma allocated_GET_SIZE st ptr sz :
  allocated st ptr sz -> GET_SIZE (HDRP ptr) st = Ok (sz, st).
Proof.
  intros (bs & fl & Hinv & Hin). pose proof Hinv as (Hok & _).
  pose proof (heap_ok_bounds _ _ Hok) as Hb.
  pose proof (block_facts _ _ _ _ _ Hok Hin) as (F1 & F2 & F3 & F4 & F5 & F6 & F7).
  assert (W : wp (GET_SIZE (HDRP ptr)) (fun r s => r = sz /\ s = st) st).
  { unfold HDRP. consts. rewrite (wrap_small (ptr - 8)) by lia.
    apply wp_GET_SIZE; [valid_tac|]. rewrite F6, size_of_PACK by lia. auto. }
  unfold wp in W. destruct (GET_SIZE (HDRP ptr) st) as [[r s]| |];
    try contradiction.
  destruct W as [-> ->]. reflexivity.
Qed.

(** A successful [mm_malloc] on a well-formed heap returns an allocated
    block that holds the request. *)
Lemma mm_malloc_allocated fuel st n p st' :
  wf st -> 0 < n -> n + 40 <= 2 ^ 64 ->
  mm_malloc fuel n st = Ok (p, st') -> p <> NULL ->
  exists sz, allocated st' p sz /\ n + DSIZE <= sz /\ p mod ALIGN_SIZE = 0.
Proof.
  intros (bs & fl & Hinv) Hn Hhi E Hp.
  assert (W : wpg false (mm_malloc fuel n)
                (fun r s => r <> NULL ->
                   exists sz, allocated s r sz /\ n + DSIZE <= sz
                              /\ r mod ALIGN_SIZE = 0) st).
  { apply (wpg_mm_malloc false st bs fl n fuel); try assumption.
    - discriminate.
    - intros H. contradiction.
    - intros s bs' fl' r sz Hinv' _ Hin Hsz _ _ _.
      pose proof (block_facts _ _ _ _ _ (proj1 Hinv') Hin) as F.
      destruct (adjust_facts n Hn Hhi) as (A1 & A2 & A3 & A4).
      exists sz. split; [exists bs', fl'; auto|]. consts. split; [lia|tauto]. }
  apply (wpg_Ok _ _ _ _ _ _ W E). exact Hp.
Qed.

Lemma mm_malloc_wf fuel st n p st' :
  wf st -> 0 <= n -> n + 40 <= 2 ^ 64 ->
  mm_malloc fuel n st = Ok (p, st') -> wf st'.
Proof.
  intros Hwf Hn Hhi E. destruct (Z.eq_dec n 0) as [->|Hne].
  - unfold mm_malloc in E. cbn in E. inversion E. subst. exact Hwf.
  - pose proof Hwf as (bs & fl & Hinv).
    assert (W : wpg false (mm_malloc fuel n) (fun _ s => wf s) st).
    { apply (wpg_mm_malloc false st bs fl n fuel);
        try assumption; try lia; try discriminate.
      intros s bs' fl' r sz Hinv' _ _ _ _ _. exists bs', fl'. exact Hinv'. }
    apply (wpg_Ok _ _ _ _ _ _ W E).
Qed.

Lemma mm_malloc_aligned fuel st n p st' :
  wf st -> 0 < n -> n + 40 <= 2 ^ 64 ->
  mm_malloc fuel n st = Ok (p, st') -> p mod ALIGN_SIZE = 0.
Proof.
  intros Hwf Hn Hhi E. destruct (Z.eq_dec p NULL) as [->|Hp].
  - reflexivity.
  - destruct (mm_malloc_allocated fuel st n p st' Hwf Hn Hhi E Hp)
      as (sz & _ & _ & H). exact H.
Qed.

(** The value that [mm_realloc] returns is [NULL], [ptr] itself, or the
    block that its call of [mm_malloc] returned. *)
Lemma mm_realloc_result fuel st ptr n p st' :
  mm_realloc fuel ptr n st = Ok (p, st') -> ptr <> NULL ->
  p = NULL \/ p = ptr
  \/ exists st1, mm_malloc fuel (wrap (2 * n)) st = Ok (p, st1).
Proof.
  unfold mm_realloc. intros E Hptr.
  apply bind_Ok in E as (oldsize & s0 & E0 & E).
  apply GET_SIZE_Ok in E0 as (_ & ->).
  destruct (n =? 0).
  { apply bind_Ok in E as (u & s1 & _ & E). inversion E. auto. }
  replace (ptr =? NULL) with false in E by (symmetry; apply Z.eqb_neq; exact Hptr).
  destruct (adjust n <? oldsize).
  { inversion E. auto. }
  apply bind_Ok in E as (q & s1 & Em & E).
  destruct (q =? NULL) eqn:Eq.
  { inversion E. auto. }
  apply bind_Ok in E as (u & s2 & _ & E).
  apply bind_Ok in E as (u' & s3 & _ & E).
  inversion E. subst. right. right. exists s1. exact Em.
Qed.

(** ** Example states *)

Lemma wf_after_init : wf (state_after [OInit] fresh).
Proof.
  apply (mm_init_wf fresh (state_after [OInit] fresh)).
  - vm_compute. reflexivity.
  - vm_compute. discriminate.
  - vm_compute. reflexivity.
  - vm_compute. reflexivity.
  - vm_compute. reflexivity.
Qed.

Lemma mm_malloc_allocated_size fuel st n p st' sz :
  wf st -> 0 < n -> n + 40 <= 2 ^ 64 ->
  mm_malloc fuel n st = Ok (p, st') -> p <> NULL ->
  GET_SIZE (HDRP p) st' = Ok (sz, st') -> allocated st' p sz.
Proof.
  intros Hwf Hn Hhi E Hp Hsz.
  destruct (mm_malloc_allocated fuel st n p st' Hwf Hn Hhi E Hp)
    as (sz' & Ha & _).
  pose proof (allocated_GET_SIZE _ _ _ Ha) as E'.
  rewrite Hsz in E'. inversion E'. subst sz'. exact Ha.
Qed.

Lemma allocated_after_malloc :
  allocated (state_after [OInit; OMalloc 4072] fresh) 65800 4096.
Proof.
  apply (mm_malloc_allocated_size 100 (state_after [OInit] fresh) 4072).
  - exact wf_after_init.
  - lia.
  - vm_compute. discriminate.
  - vm_compute. reflexivity.
  - discriminate.
  - vm_compute. reflexivity.
Qed.

(** ** The claims about [mm_realloc] and alignment *)

(** C5, amended.  On a well-formed heap, for an allocated block [ptr] of
    size [oldsize] and a request [n] (with [2 * n] representable) whose
    adjusted size exceeds [oldsize], a successful [mm_realloc] returns
    another address [p]; the first [oldsize - WSIZE] bytes at [p] (the whole
    payload of the old block and its footer word) hold what was at [ptr]
    before the call; [p] is an allocated block that is large enough and
    [ptr] is no longer allocated; and the result is that of [mm_malloc],
    then [memcpy], then [mm_free], in this order.  With enough fuel the
    call returns. *)
Theorem realloc_moves_content st ptr n oldsize :
  allocated st ptr oldsize -> 0 < n -> 2 * n + 40 <= 2 ^ 64 ->
  oldsize < adjust n ->
  (forall fuel p st',
     mm_realloc fuel ptr n st = Ok (p, st') -> p <> NULL ->
     p <> ptr
     /\ content_preserved st st' ptr p (oldsize - WSIZE)
     /\ (exists sz, allocated st' p sz /\ oldsize + DSIZE <= sz)
     /\ (forall sz, ~ allocated st' ptr sz)
     /\ exists st1 st2,
          mm_malloc fuel (2 * n) st = Ok (p, st1)
          /\ memcpy p ptr oldsize st1 = Ok (tt, st2)
          /\ mm_free ptr st2 = Ok (tt, st'))
  /\ exists fuel0, forall fuel, (fuel0 <= fuel)%nat ->
       exists p st', mm_realloc fuel ptr n st = Ok (p, st').
Proof.
  intros (bs & fl & Hinv & Hin) Hn Hhi Hgrow.
  pose proof (block_facts _ _ _ _ _ (proj1 Hinv) Hin) as (F1 & F2 & F3 & F4 & F5 & F6 & F7).
  pose proof (heap_ok_bounds _ _ (proj1 Hinv)) as Hb.
  split.
  - intros fuel p st' E Hp.
    assert (W : wpg false (mm_realloc fuel ptr n)
              (fun r s => r <> NULL ->
                 r <> ptr
                 /\ content_preserved st s ptr r (oldsize - WSIZE)
                 /\ (exists sz, allocated s r sz /\ oldsize + DSIZE <= sz)
                 /\ forall sz, ~ allocated s ptr sz) st).
    { apply (wpg_mm_realloc_grow false st bs fl ptr n oldsize fuel);
        try assumption; try discriminate.
      - intros H. contradiction.
      - intros s bs' fl' r sz Hinv' _ Hr Hsz Hne Hfreed Hc _ _.
        repeat split; try assumption.
        + exists sz. split; [exists bs', fl'; auto|].
          pose proof (adjust_mono_double n oldsize Hn Hhi F3 F4
                        (Z.lt_le_incl _ _ Hgrow) Hgrow). unfold DSIZE, WSIZE. lia.
        + intros sz' (bs'' & fl'' & Hinv'' & Hin'').
          rewrite <- (inv_blocks_unique _ _ _ _ _ Hinv' Hinv'') in Hin''.
          exact (Hfreed _ Hin''). }
    destruct (wpg_Ok _ _ _ _ _ _ W E Hp) as (R1 & R2 & R3 & R4).
    repeat (split; [assumption|]).
    unfold mm_realloc in E.
    rewrite (bind_eq _ _ _ _ _ (allocated_GET_SIZE st ptr oldsize
               (ex_intro _ bs (ex_intro _ fl (conj Hinv Hin))))) in E.
    replace (n =? 0) with false in E by (symmetry; apply Z.eqb_neq; lia).
    replace (ptr =? NULL) with false in E
      by (symmetry; apply Z.eqb_neq; unfold NULL; lia).
    replace (adjust n <? oldsize) with false in E
      by (symmetry; apply Z.ltb_ge; lia).
    rewrite (wrap_small (2 * n)) in E by lia.
    apply bind_Ok in E as (q & s1 & Em & E).
    destruct (q =? NULL) eqn:Eq.
    { inversion E. subst. contradiction. }
    apply bind_Ok in E as ([] & s2 & Ec & E).
    apply bind_Ok in E as ([] & s3 & Ef & E).
    inversion E. subst. exists s1, s2. auto.
  - exists (S (length bs)). intros fuel Hfuel.
    assert (W : wpg true (mm_realloc fuel ptr n) (fun _ _ => True) st).
    { apply (wpg_mm_realloc_grow true st bs fl ptr n oldsize fuel);
        try assumption; auto. }
    unfold wpg in W.
    destruct (mm_realloc fuel ptr n st) as [[p st']| |]; try contradiction.
    exists p, st'. reflexivity.
Qed.

Lemma realloc_moves_content_witness :
  (forall fuel p st',
     mm_realloc fuel 65800 5000 (state_after [OInit; OMalloc 4072] fresh)
     = Ok (p, st') -> p <> NULL ->
     p <> 65800
     /\ content_preserved (state_after [OInit; OMalloc 4072] fresh) st'
          65800 p (4096 - WSIZE)
     /\ (exists sz, allocated st' p sz /\ 4096 + DSIZE <= sz)
     /\ (forall sz, ~ allocated st' 65800 sz)
     /\ exists st1 st2,
          mm_malloc fuel (2 * 5000) (state_after [OInit; OMalloc 4072] fresh)
          = Ok (p, st1)
          /\ memcpy p 65800 4096 st1 = Ok (tt, st2)
          /\ mm_free 65800 st2 = Ok (tt, st'))
  /\ exists fuel0, forall fuel, (fuel0 <= fuel)%nat ->
       exists p st',
         mm_realloc fuel 65800 5000 (state_after [OInit; OMalloc 4072] fresh)
         = Ok (p, st').
Proof.
  apply (realloc_moves_content (state_after [OInit; OMalloc 4072] fresh)
           65800 5000 4096).
  - exact allocated_after_malloc.
  - lia.
  - vm_compute. discriminate.
  - vm_compute. reflexivity.
Defined.

(** C5 as stated fails on the last word of the copy.  The block at 65800
    has size 4096 and is the last block of the heap; a request of 5000
    bytes moves it to 69896, and the word at offset 4088, the epilogue
    header when [mm_realloc] is called, has by the time of the copy become
    the header of the new block. *)
Lemma realloc_last_word_not_preserved :
  let st := state_after [OInit; OMalloc 4072] fresh in
  let st' := state_after [OInit; OMalloc 4072; ORealloc 0 5000] fresh in
  result (GET_SIZE (HDRP 65800) st) = Some 4096
  /\ 4096 < adjust 5000
  /\ mm_realloc 100 65800 5000 st = Ok (69896, st')
  /\ mem st (65800 + 4088) = 1
  /\ mem st' (69896 + 4088) = 10017
  /\ ~ content_preserved st st' 65800 69896 4096.
Proof.
  assert (E1 : mem (state_after [OInit; OMalloc 4072] fresh) (65800 + 4088) = 1)
    by (vm_compute; reflexivity).
  assert (E2 : mem (state_after [OInit; OMalloc 4072; ORealloc 0 5000] fresh)
                 (69896 + 4088) = 10017)
    by (vm_compute; reflexivity).
  split; [vm_compute; reflexivity|].
  split; [vm_compute; reflexivity|].
  split; [vm_compute; reflexivity|].
  split; [exact E1|]. split; [exact E2|].
  intros H. specialize (H 4088). rewrite E1, E2 in H.
  assert (E : 10017 = 1) by (apply H; [lia|reflexivity]).
  discriminate E.
Qed.

(** C7, amended.  On a well-formed heap, for a request [n] with [2 * n]
    representable, every address that [mm_malloc] returns, and every
    address that [mm_realloc] of an allocated block returns, is a multiple
    of [ALIGN_SIZE], that is of 8, the size of one word.  The addresses are
    multiples of 8 because the heap starts at one and every block size is
    one: no access checks the alignment. *)
Theorem returned_address_aligned fuel st n :
  wf st -> 0 < n -> 2 * n + 40 <= 2 ^ 64 ->
  (forall p st', mm_malloc fuel n st = Ok (p, st') -> p mod ALIGN_SIZE = 0)
  /\ (forall ptr sz p st', allocated st ptr sz ->
        mm_realloc fuel ptr n st = Ok (p, st') -> p mod ALIGN_SIZE = 0).
Proof.
  intros Hwf Hn Hhi. split.
  - intros p st'. apply mm_malloc_aligned; try assumption. lia.
  - intros ptr sz p st' (bs & fl & Hinv & Hin) E.
    pose proof (block_facts _ _ _ _ _ (proj1 Hinv) Hin) as (F1 & F2 & F3 & F4 & F5 & _).
    pose proof (heap_ok_bounds _ _ (proj1 Hinv)) as Hb.
    destruct (mm_realloc_result _ _ _ _ _ _ E) as [->|[->|(s1 & Em)]].
    + unfold NULL. lia.
    + reflexivity.
    + exact F5.
    + rewrite (wrap_small (2 * n)) in Em by lia.
      eapply mm_malloc_aligned; [exact Hwf| | |exact Em]; lia.
Qed.

Lemma allocated_after_malloc_1 :
  allocated (state_after [OInit; OMalloc 1] fresh) 65800 32.
Proof.
  apply (mm_malloc_allocated_size 100 (state_after [OInit] fresh) 1).
  - exact wf_after_init.
  - lia.
  - vm_compute. discriminate.
  - vm_compute. reflexivity.
  - discriminate.
  - vm_compute. reflexivity.
Qed.

(** The theorem at the heap after [mm_init] and [mm_malloc(1)], which has
    the allocated block 65800: there both [mm_malloc(100)] and
    [mm_realloc(65800, 100)] return the address 65832. *)
Lemma returned_address_aligned_witness :
  allocated (state_after [OInit; OMalloc 1] fresh) 65800 32
  /\ result (mm_malloc 100 100 (state_after [OInit; OMalloc 1] fresh))
     = Some 65832
  /\ result (mm_realloc 100 65800 100 (state_after [OInit; OMalloc 1] fresh))
     = Some 65832
  /\ (forall p st',
        mm_malloc 100 100 (state_after [OInit; OMalloc 1] fresh) = Ok (p, st') ->
        p mod ALIGN_SIZE = 0)
  /\ (forall ptr sz p st',
        allocated (state_after [OInit; OMalloc 1] fresh) ptr sz ->
        mm_realloc 100 ptr 100 (state_after [OInit; OMalloc 1] fresh)
        = Ok (p, st') ->
        p mod ALIGN_SIZE = 0).
Proof.
  split; [exact allocated_after_malloc_1|].
  split; [vm_compute; reflexivity|].
  split; [vm_compute; reflexivity|].
  apply (returned_address_aligned 100 (state_after [OInit; OMalloc 1] fresh) 100).
  - exact (allocated_wf _ _ _ allocated_after_malloc_1).
  - lia.
  - vm_compute. discriminate.
Defined.

(** The hypothesis of a well-formed heap is needed: on a heap whose list
    of class 12 links the address 65804, [mm_malloc] returns that address,
    which is not a multiple of 8. *)
Lemma malloc_misaligned_on_ill_formed_heap :
  result (mm_malloc 100 1 state_misaligned) = Some 65804
  /\ 65804 mod ALIGN_SIZE <> 0
  /\ ~ wf state_misaligned.
Proof.
  split; [vm_compute; reflexivity|].
  split; [vm_compute; discriminate|].
  intros Hwf.
  destruct (mm_malloc 100 1 state_misaligned) as [[p st']| |] eqn:E.
  - assert (Hp : p = 65804).
    { assert (R : result (mm_malloc 100 1 state_misaligned) = Some 65804)
        by (vm_compute; reflexivity).
      rewrite E in R. cbn [result] in R. inversion R. reflexivity. }
    subst p.
    assert (H : 65804 mod ALIGN_SIZE = 0).
    { apply (mm_malloc_aligned 100 state_misaligned 1 65804 st' Hwf);
        [lia|vm_compute; discriminate|exact E]. }
    vm_compute in H. discriminate H.
  - assert (R : result (mm_malloc 100 1 state_misaligned) = Some 65804)
      by (vm_compute; reflexivity).
    rewrite E in R. discriminate R.
  - assert (R : result (mm_malloc 100 1 state_misaligned) = Some 65804)
      by (vm_compute; reflexivity).
    rewrite E in R. discriminate R.
Qed.

(** C7 as stated fails: the arena starts at a multiple of 16, and the first
    block that [mm_malloc] returns is at 65800, which is 8 modulo 16. *)
Lemma malloc_result_not_double_word_aligned :
  mem_start_brk fresh mod DSIZE = 0
  /\ mm_malloc 100 1 (state_after [OInit] fresh)
     = Ok (65800, state_after [OInit; OMalloc 1] fresh)
  /\ 65800 mod DSIZE <> 0.
Proof.
  split; [vm_compute; reflexivity|].
  split; [vm_compute; reflexivity|].
  vm_compute. discriminate.
Qed.

(** ** The claim about [find_fit] *)

(** C3, amended.  [find_fit] starts at the class after the class of the
    request, and at the class of the request only when this is the last
    class; from there it scans the classes in ascending order, each list
    from its first member on, and returns the first member whose size is at
    least the request, or [NULL] when these classes hold none.  The lists
    that it reads must be well formed; it changes nothing and, with fuel
    above the length of these lists, it returns. *)
Theorem find_fit_scans_from_next_class st asize fl fuel :
  MAX_SIZE st = 15 ->
  (forall j, first_bucket 15 (classof asize) <= j < 15 ->
     ring (mem st) (bucket st j) (fl j) /\ readable st (bucket st j) (fl j)
     /\ (length (fl j) < fuel)%nat) ->
  first_bucket 15 (classof asize)
  = (if classof asize =? 14 then 14 else classof asize + 1)
  /\ find_fit fuel asize st
     = Ok (match first_fit st asize
                   (flat_map fl
                      (indices (Z.to_nat (15 - first_bucket 15 (classof asize)))
                         (first_bucket 15 (classof asize)))) with
           | Some b => b
           | None => NULL
           end, st).
Proof.
  intros HM Hfl. split.
  - unfold first_bucket.
    destruct (Z.eqb_spec (classof asize + 1) 15);
      destruct (Z.eqb_spec (classof asize) 14); lia.
  - assert (W : wpg true (find_fit fuel asize)
              (fun r st' =>
                 st' = st
                 /\ r = match first_fit st asize
                             (flat_map fl
                                (indices (Z.to_nat (15 - first_bucket 15 (classof asize)))
                                   (first_bucket 15 (classof asize)))) with
                        | Some b => b
                        | None => NULL
                        end) st).
    { rewrite <- HM. apply find_fit_first_fit. rewrite HM.
      intros j Hj. apply indices_In in Hj.
      pose proof (first_bucket_range _ (classof_range asize)).
      destruct (Hfl j) as (H1 & H2 & H3); [lia|]. auto. }
    unfold wpg in W.
    destruct (find_fit fuel asize st) as [[r st']| |]; try contradiction.
    destruct W as [-> ->]. reflexivity.
Qed.

Lemma find_fit_scans_from_next_class_witness :
  first_bucket 15 (classof 32) = (if classof 32 =? 14 then 14 else classof 32 + 1)
  /\ find_fit 100 32 (state_after [OInit; OMalloc 1; OMalloc 1; OFree 0] fresh)
     = Ok (match first_fit
                   (state_after [OInit; OMalloc 1; OMalloc 1; OFree 0] fresh) 32
                   (flat_map lists_after_free
                      (indices (Z.to_nat (15 - first_bucket 15 (classof 32)))
                         (first_bucket 15 (classof 32)))) with
           | Some b => b
           | None => NULL
           end, state_after [OInit; OMalloc 1; OMalloc 1; OFree 0] fresh).
Proof.
  apply (find_fit_scans_from_next_class
           (state_after [OInit; OMalloc 1; OMalloc 1; OFree 0] fresh) 32
           lists_after_free 100).
  - vm_compute. reflexivity.
  - intros j Hj.
    change (first_bucket 15 (classof 32)) with 6 in Hj.
    assert (Hc : j = 6 \/ j = 7 \/ j = 8 \/ j = 9 \/ j = 10 \/ j = 11
                 \/ j = 12 \/ j = 13 \/ j = 14) by lia.
    destruct Hc as [->|[->|[->|[->|[->|[->|[->|[->| ->]]]]]]]];
      (split; [vm_compute; auto|]);
      (split; [|vm_compute; lia]);
      (split; [vm_compute; reflexivity|]);
      intros x Hx; vm_compute in Hx;
      repeat match goal with
             | H : _ \/ _ |- _ => destruct H as [<-|H]
             | H : False |- _ => destruct H
             end;
      (split; [vm_compute; discriminate|]);
      (split; vm_compute; reflexivity).
Defined.

(** C3 as stated fails: the block at 65800 has size 32 and is the only
    member of class 5, the class of a request of 32 bytes; the scan the
    claim describes returns it, [find_fit] returns the block at 65864 of
    class 11. *)
Lemma find_fit_skips_class_of_request :
  let st := state_after [OInit; OMalloc 1; OMalloc 1; OFree 0] fresh in
  find_list_head (to_uint 32) = 5
  /\ result (bucket_members 100 5 st) = Some [65800]
  /\ result (GET_SIZE (HDRP 65800) st) = Some 32
  /\ result (find_fit_spec 100 32 st) = Some 65800
  /\ result (find_fit 100 32 st) = Some 65864.
Proof.
  split; [vm_compute; reflexivity|].
  split; [vm_compute; reflexivity|].
  split; [vm_compute; reflexivity|].
  split; [vm_compute; reflexivity|].
  vm_compute. reflexivity.
Qed.

(** ** The checker in quiet mode *)

Lemma cbind_Ok_app {A B} (c : C A) (k : A -> C B) st a t1 b t2 :
  c st = Ok (a, t1) -> k a st = Ok (b, t2) -> cbind c k st = Ok (b, t1 ++ t2).
Proof. unfold cbind. intros -> ->. reflexivity. Qed.

Lemma creturns_cbind {A B} (c : C A) (k : A -> C B) st a b :
  creturns c st a -> creturns (k a) st b -> creturns (cbind c k) st b.
Proof.
  intros [t1 H1] [t2 H2]. exists (t1 ++ t2). eapply cbind_Ok_app; eassumption.
Qed.

Lemma creturns_cret {A} (a : A) st : creturns (cret a) st a.
Proof. exists []. reflexivity. Qed.

Lemma cGET_Ok st p :
  valid_addr st p = true -> cGET p st = Ok (mem st p, [EvRead p]).
Proof. intros H. unfold cGET. rewrite H. reflexivity. Qed.

Lemma cGET_SIZE_Ok st p :
  valid_addr st p = true -> cGET_SIZE p st = Ok (size_of (mem st p), [EvRead p]).
Proof.
  intros H. unfold cGET_SIZE.
  rewrite (cbind_Ok_app _ _ _ _ _ _ _ (cGET_Ok st p H) eq_refl). reflexivity.
Qed.

Lemma cGET_ALLOC_Ok st p :
  valid_addr st p = true -> cGET_ALLOC p st = Ok (Z.land (mem st p) 1, [EvRead p]).
Proof.
  intros H. unfold cGET_ALLOC.
  rewrite (cbind_Ok_app _ _ _ _ _ _ _ (cGET_Ok st p H) eq_refl). reflexivity.
Qed.

Lemma creturns_cGET st p : valid_addr st p = true -> creturns (cGET p) st (mem st p).
Proof. intros H. eexists. apply cGET_Ok. exact H. Qed.

Lemma creturns_cGET_SIZE st p :
  valid_addr st p = true -> creturns (cGET_SIZE p) st (size_of (mem st p)).
Proof. intros H. eexists. apply cGET_SIZE_Ok. exact H. Qed.

Lemma creturns_cGET_ALLOC st p :
  valid_addr st p = true -> creturns (cGET_ALLOC p) st (Z.land (mem st p) 1).
Proof. intros H. eexists. apply cGET_ALLOC_Ok. exact H. Qed.

Lemma creturns_cwhen b d st : creturns (cwhen b (printf d)) st tt.
Proof. destruct b; eexists; reflexivity. Qed.

(** [checkblock] returns on a block whose header and footer can be read. *)
Lemma creturns_checkblock st bp sz al :
  0 < mem_start_brk st -> mem_max_addr st < 2 ^ 64 ->
  mem_start_brk st <= bp - 8 -> bp + sz <= mem_max_addr st ->
  bp mod 8 = 0 -> 16 <= sz -> sz mod 8 = 0 ->
  mem st (bp - 8) = PACK sz (b2z al) ->
  creturns (checkblock bp) st tt.
Proof.
  intros Hs Hm Hlo Hhi Hal Hsz Hmod Hh.
  assert (Vh : valid_addr st (bp - 8) = true) by valid_tac.
  assert (Vf : valid_addr st (bp + sz - 16) = true) by valid_tac.
  unfold checkblock, cFTRP, HDRP. consts.
  rewrite (wrap_small (bp - 8)) by lia.
  eapply creturns_cbind; [apply creturns_cwhen|].
  eapply creturns_cbind; [apply creturns_cGET; exact Vh|].
  eapply creturns_cbind.
  { eapply creturns_cbind; [apply creturns_cGET_SIZE; exact Vh|].
    apply creturns_cret. }
  rewrite Hh, size_of_PACK by lia.
  rewrite (wrap_small (bp + sz)) by lia.
  rewrite (wrap_small (bp + sz - 16)) by lia.
  eapply creturns_cbind; [apply creturns_cGET; exact Vf|].
  destruct (negb _); eexists; reflexivity.
Qed.

Section Walk.

Variable pb : Z -> C unit.

(** One turn of the heap walk, on a block whose tags can be read. *)
Lemma heap_walk_step st fuel bp sz al e :
  0 < mem_start_brk st -> mem_max_addr st < 2 ^ 64 ->
  mem_start_brk st <= bp - 8 -> bp + sz <= mem_max_addr st ->
  bp mod 8 = 0 -> 16 <= sz -> sz mod 8 = 0 ->
  mem st (bp - 8) = PACK sz (b2z al) ->
  valid_addr st (heap_listp st) = true ->
  creturns (heap_walk pb fuel false (bp + sz)) st e ->
  creturns (heap_walk pb (S fuel) false bp) st e.
Proof.
  intros Hs Hm Hlo Hhi Hal Hsz Hmod Hh Vl Hrest.
  assert (Vh : valid_addr st (bp - 8) = true) by valid_tac.
  assert (Vb : valid_addr st bp = true) by valid_tac.
  cbn [heap_walk]. unfold HDRP at 1. consts.
  rewrite (wrap_small (bp - 8)) by lia.
  eapply creturns_cbind; [apply creturns_cGET_SIZE; exact Vh|].
  rewrite Hh, size_of_PACK by lia.
  replace (sz >? 0) with true by (symmetry; apply Z.gtb_lt; lia).
  eapply creturns_cbind; [apply creturns_cret|].
  eapply creturns_cbind;
    [eapply (creturns_checkblock st bp sz al); eassumption|].
  eapply creturns_cbind; [apply creturns_cGET_ALLOC; exact Vb|].
  eapply creturns_cbind; [apply creturns_cGET_SIZE; exact Vl|].
  eapply creturns_cbind; [apply creturns_cwhen|].
  eapply creturns_cbind.
  { unfold cNEXT_BLKP. consts. rewrite (wrap_small (bp - 8)) by lia.
    eapply creturns_cbind; [apply creturns_cGET_SIZE; exact Vh|].
    apply creturns_cret. }
  rewrite Hh, size_of_PACK by lia.
  rewrite (wrap_small (bp + sz)) by lia. exact Hrest.
Qed.

(** The walk over a chain of blocks ends at the end of the chain, when the
    word before it is an epilogue header. *)
Lemma heap_walk_chain st e bs : forall s fuel,
  0 < mem_start_brk st -> mem_max_addr st < 2 ^ 64 ->
  mem_start_brk st <= s - 8 -> e <= mem_max_addr st -> s mod 8 = 0 ->
  valid_addr st (heap_listp st) = true ->
  chain (mem st) s bs e -> mem st (e - 8) = PACK 0 1 ->
  (length bs < fuel)%nat ->
  creturns (heap_walk pb fuel false s) st e.
Proof.
  induction bs as [|[[b sz] al] bs IH]; intros s fuel Hs Hm Hlo Hhi Hal Vl Hc He Hf;
    cbn [chain] in Hc.
  - subst s. destruct fuel as [|fuel]; [cbn in Hf; lia|].
    cbn [heap_walk]. unfold HDRP. consts.
    rewrite (wrap_small (e - 8)) by lia.
    eapply creturns_cbind;
      [apply creturns_cGET_SIZE; apply valid_addr_intro; lia|].
    rewrite He. change (size_of (PACK 0 1)) with 0. cbn. apply creturns_cret.
  - destruct Hc as (-> & H1 & H2 & H3 & H4 & H5). consts.
    pose proof (chain_le _ _ _ _ H5) as Hle.
    destruct fuel as [|fuel]; [cbn in Hf; lia|].
    eapply (heap_walk_step st fuel s sz al); try eassumption; try lia.
    apply IH; try assumption; try lia; try zlia.
    cbn in Hf. lia.
Qed.

End Walk.

Lemma cbind_eq_Ok {A B} (c : C A) (k : A -> C B) st a t1 :
  c st = Ok (a, t1) ->
  cbind c k st = match k a st with
                 | Ok (b, t2) => Ok (b, t1 ++ t2)
                 | Fault => Fault
                 | OutOfFuel => OutOfFuel
                 end.
Proof. unfold cbind. intros ->. reflexivity. Qed.

(** The free-list loop on one list. *)
Lemma check_list_events st bp s q l : forall p fuel,
  seg (mem st) p l q -> mem st q = s ->
  (forall x, In x l -> x <> s /\ valid_addr st x = true) ->
  valid_addr st bp = true ->
  (length l < fuel)%nat ->
  check_list fuel bp s (mem st p) st = Ok (tt, list_events st bp l).
Proof.
  induction l as [|x r IH]; intros p fuel Hseg Hq Hl Vb Hf.
  - cbn [seg] in Hseg. subst q. rewrite Hq.
    destruct fuel as [|fuel]; [cbn in Hf; lia|].
    cbn [check_list]. rewrite Z.eqb_refl. reflexivity.
  - cbn [seg] in Hseg. destruct Hseg as (Ex & _ & Hseg). rewrite Ex.
    destruct (Hl x (or_introl eq_refl)) as (Hxs & Vx).
    destruct fuel as [|fuel]; [cbn in Hf; lia|].
    cbn [check_list].
    replace (x =? s) with false by (symmetry; apply Z.eqb_neq; exact Hxs).
    rewrite (cbind_eq_Ok _ _ _ _ _ (cGET_ALLOC_Ok st bp Vb)).
    assert (Ew : cwhen (truthy (Z.land (mem st bp) 1))
                   (printf (DAllocatedInFreeList x)) st
                 = Ok (tt, if truthy (Z.land (mem st bp) 1)
                           then [EvPrint (DAllocatedInFreeList x)] else [])).
    { destruct (truthy _); reflexivity. }
    rewrite (cbind_eq_Ok _ _ _ _ _ Ew).
    rewrite (cbind_eq_Ok _ _ _ _ _ (cGET_Ok st (next_of x) Vx)).
    unfold next_of at 1. rewrite (IH x fuel Hseg Hq).
    + unfold list_events. cbn [flat_map app].
      rewrite <- app_assoc. reflexivity.
    + intros y Hy. apply Hl. right. exact Hy.
    + exact Vb.
    + cbn in Hf. lia.
Qed.

(** The free-list loops on all buckets. *)
Lemma check_lists_events st bp fl fuel n : forall i,
  (forall j, In j (indices n i) ->
     ring (mem st) (bucket st j) (fl j) /\ readable st (bucket st j) (fl j)
     /\ (length (fl j) < fuel)%nat) ->
  valid_addr st bp = true ->
  check_lists fuel n bp i st = Ok (tt, lists_events st bp fl n i).
Proof.
  induction n as [|n IH]; intros i Hb Vb; cbn [check_lists indices].
  - reflexivity.
  - destruct (Hb i (or_introl eq_refl)) as ((Hseg & Hq & _) & (Vs & Hl) & Hfuel).
    rewrite (cbind_eq_Ok _ _ _ _ _ (cGET_Ok st (next_of (bucket st i)) Vs)).
    unfold next_of at 1.
    rewrite (cbind_eq_Ok _ _ _ _ _
               (check_list_events st bp _ _ _ _ fuel Hseg Hq
                  (fun x Hx => conj (proj1 (Hl x Hx)) (proj2 (proj2 (Hl x Hx))))
                  Vb Hfuel)).
    rewrite IH; [|intros j Hj; apply Hb; right; exact Hj|exact Vb].
    reflexivity.
Qed.

(** What the free-list loops read: the cursor, once for every list member,
    and the [next] fields of the sentinels and of the members. *)
Lemma list_events_reads st bp l p :
  In (EvRead p) (list_events st bp l) -> p = bp \/ In p l.
Proof.
  unfold list_events. intros H. apply in_flat_map in H as (b & Hb & H).
  destruct H as [E|H]; [inversion E; left; reflexivity|].
  apply in_app_or in H as [H|[E|[]]].
  - destruct (truthy _); [destruct H as [E|[]]; discriminate E|destruct H].
  - inversion E as [E']. unfold next_of in E'. subst p. right. exact Hb.
Qed.

Lemma lists_events_reads st bp fl n i p :
  In (EvRead p) (lists_events st bp fl n i) ->
  p = bp \/ exists j, In j (indices n i) /\ In p (bucket st j :: fl j).
Proof.
  unfold lists_events. intros H. apply in_flat_map in H as (j & Hj & H).
  destruct H as [E|H].
  - inversion E. right. exists j. split; [exact Hj|left; reflexivity].
  - apply list_events_reads in H as [->|H]; [left; reflexivity|].
    right. exists j. split; [exact Hj|right; exact H].
Qed.

Lemma lists_events_cursor st bp fl n i j b :
  In j (indices n i) -> In b (fl j) ->
  In (EvRead bp) (lists_events st bp fl n i).
Proof.
  intros Hj Hb. unfold lists_events. apply in_flat_map. exists j.
  split; [exact Hj|]. right. unfold list_events. apply in_flat_map.
  exists b. split; [exact Hb|]. left. reflexivity.
Qed.

Lemma In_indices n : forall i j, i <= j < i + Z.of_nat n -> In j (indices n i).
Proof.
  induction n as [|n IH]; intros i j Hj; cbn [indices].
  - lia.
  - destruct (Z.eq_dec j i) as [->|Hne]; [left; reflexivity|].
    right. apply IH. lia.
Qed.

(** C10, amended.  On a well-formed heap that does not end at the end of
    the arena, [checkheap] in quiet mode returns, and:
    - its walk over the heap leaves the cursor at [mem_brk st], one word
      after the epilogue header and the first address after the heap;
    - its free-list loops read this word once for every list member, and
      besides it only the [next] fields of the sentinels and of the
      members: no boundary tag of any block. *)
Theorem checkheap_lists_test_cursor st bs fl fuel :
  inv st bs fl [] -> mem_brk st + WSIZE <= mem_max_addr st ->
  (length bs < fuel)%nat ->
  mem st (HDRP (mem_brk st)) = PACK 0 1
  /\ creturns (heap_walk (printblock_body (checkheap (S fuel))) (S fuel) false
                 (heap_listp st)) st (mem_brk st)
  /\ check_lists (S fuel) 15 (mem_brk st) 0 st
     = Ok (tt, lists_events st (mem_brk st) fl 15 0)
  /\ (exists t0, checkheap (S (S fuel)) false st
                 = Ok (tt, t0 ++ lists_events st (mem_brk st) fl 15 0))
  /\ (forall i b, 0 <= i < 15 -> In b (fl i) ->
        In (EvRead (mem_brk st)) (lists_events st (mem_brk st) fl 15 0))
  /\ (forall p, In (EvRead p) (lists_events st (mem_brk st) fl 15 0) ->
        (p = mem_brk st \/ node st fl p) /\ ~ tag_cell st bs p).
Proof.
  intros Hinv Hroom Hfuel. pose proof Hinv as (Hok & Hl & _).
  pose proof (heap_ok_bounds _ _ Hok) as Hb.
  pose proof (ok_prologue_hdr _ _ Hok) as Hph.
  pose proof (ok_epilogue _ _ Hok) as Hep.
  pose proof (ok_MAX_SIZE _ _ Hok) as HM.
  consts.
  assert (Vl : valid_addr st (heap_listp st) = true) by valid_tac.
  assert (Vb : valid_addr st (mem_brk st) = true) by valid_tac.
  assert (Hwalk : forall pb,
            creturns (heap_walk pb (S fuel) false (heap_listp st)) st (mem_brk st)).
  { intros pb.
    eapply (heap_walk_step pb st fuel (heap_listp st) 16 true);
      [lia|lia|lia|lia|lia|lia|reflexivity|exact Hph|exact Vl|].
    eapply (heap_walk_chain pb st (mem_brk st) bs);
      [lia|lia|lia|lia|zlia|exact Vl|apply (ok_chain _ _ Hok)|exact Hep|exact Hfuel]. }
  assert (Hlists : check_lists (S fuel) 15 (mem_brk st) 0 st
                   = Ok (tt, lists_events st (mem_brk st) fl 15 0)).
  { apply check_lists_events; [|exact Vb].
    intros j Hj. apply indices_In in Hj.
    split; [apply (ok_ring _ _ _ _ Hl); lia|].
    split; [eapply bucket_readable; [exact Hinv|lia]|].
    pose proof (bucket_length _ _ _ _ j Hinv). lia. }
  split.
  { unfold HDRP. consts. rewrite (wrap_small (mem_brk st - 8)) by lia. exact Hep. }
  split; [apply Hwalk|]. split; [exact Hlists|]. split; [|split].
  - change (checkheap (S (S fuel)) false st)
      with (checkheap_body (printblock_body (checkheap (S fuel))) (S fuel) false st).
    unfold checkheap_body. rewrite HM.
    change (Z.to_nat 15) with 15%nat.
    assert (Hpro : creturns (check_prologue false) st tt).
    { unfold check_prologue. red. cbv beta.
      match goal with
      | |- exists t, ?c st = Ok (?a, t) => change (creturns c st a)
      end.
      unfold HDRP. consts.
      rewrite (wrap_small (heap_listp st - 8)) by lia.
      assert (Vh : valid_addr st (heap_listp st - 8) = true) by valid_tac.
      eapply creturns_cbind; [apply creturns_cret|].
      eapply creturns_cbind; [apply creturns_cGET_SIZE; exact Vh|].
      rewrite Hph. change (size_of (PACK 16 1)) with 16. cbn [Z.eqb Pos.eqb negb].
      eapply creturns_cbind.
      { eapply creturns_cbind; [apply creturns_cGET_ALLOC; exact Vh|].
        apply creturns_cret. }
      eapply creturns_cbind; [apply creturns_cwhen|].
      eapply (creturns_checkblock st (heap_listp st) 16 true);
        [lia|lia|lia|lia|lia|lia|reflexivity|exact Hph]. }
    assert (Hepi : creturns (check_epilogue (mem_brk st)) st tt).
    { unfold check_epilogue, HDRP. consts.
      rewrite (wrap_small (mem_brk st - 8)) by lia.
      assert (Ve : valid_addr st (mem_brk st - 8) = true) by valid_tac.
      eapply creturns_cbind; [apply creturns_cGET_SIZE; exact Ve|].
      rewrite Hep. change (size_of (PACK 0 1)) with 0. cbn [Z.eqb negb].
      eapply creturns_cbind.
      { eapply creturns_cbind; [apply creturns_cGET_ALLOC; exact Ve|].
        apply creturns_cret. }
      apply creturns_cwhen. }
    destruct Hpro as [t1 E1].
    destruct (Hwalk (printblock_body (checkheap (S fuel)))) as [t2 E2].
    destruct Hepi as [t3 E3].
    exists (t1 ++ t2 ++ t3).
    rewrite (cbind_eq_Ok _ _ _ _ _ E1).
    rewrite (cbind_eq_Ok _ _ _ _ _ E2).
    cbn [cwhen].
    rewrite (cbind_eq_Ok (cret tt) _ st tt [] eq_refl).
    rewrite (cbind_eq_Ok _ _ _ _ _ E3).
    rewrite Hlists. cbn [app]. rewrite <- !app_assoc. reflexivity.
  - intros i b Hi Hin. eapply lists_events_cursor; [|exact Hin].
    apply In_indices. lia.
  - intros p Hp. apply lists_events_reads in Hp.
    destruct Hp as [->|(j & Hj & Hp)].
    + split; [left; reflexivity|].
      intros [E|[E|[E|(b & sz & al & Hin & E)]]]; try lia.
      pose proof (block_facts _ _ _ _ _ Hok Hin). lia.
    + apply indices_In in Hj.
      assert (Hn : node st fl p) by (exists j; split; [lia|exact Hp]).
      split; [right; exact Hn|].
      apply (slot_not_tag st bs p p Hok); [|left; reflexivity].
      eapply node_slot; eassumption.
Qed.

(** The heap right after [mm_init], block by block. *)
Lemma inv_after_init :
  inv (state_after [OInit] fresh) [(65800, 4096, false)] lists_after_init [].
Proof.
  assert (Hcases : forall i, 0 <= i < 15 ->
            i = 0 \/ i = 1 \/ i = 2 \/ i = 3 \/ i = 4 \/ i = 5 \/ i = 6 \/ i = 7
            \/ i = 8 \/ i = 9 \/ i = 10 \/ i = 11 \/ i = 12 \/ i = 13 \/ i = 14)
    by (intros; lia).
  split; [|split].
  - constructor.
    + vm_compute. reflexivity.
    + vm_compute. reflexivity.
    + vm_compute. discriminate.
    + vm_compute. reflexivity.
    + vm_compute. discriminate.
    + vm_compute. reflexivity.
    + vm_compute. discriminate.
    + vm_compute. reflexivity.
    + vm_compute. reflexivity.
    + vm_compute. reflexivity.
    + cbn [chain].
      split; [vm_compute; reflexivity|].
      split; [vm_compute; discriminate|].
      split; [vm_compute; reflexivity|].
      split; [vm_compute; reflexivity|].
      split; [vm_compute; reflexivity|].
      vm_compute. reflexivity.
    + vm_compute. reflexivity.
  - constructor.
    + intros i Hi.
      destruct (Hcases i Hi)
        as [->|[->|[->|[->|[->|[->|[->|[->|[->|[->|[->|[->|[->|[->| ->]]]]]]]]]]]]]];
        (split; [vm_compute; auto|]);
        (split; vm_compute; reflexivity).
    + intros i Hi.
      destruct (Hcases i Hi)
        as [->|[->|[->|[->|[->|[->|[->|[->|[->|[->|[->|[->|[->|[->| ->]]]]]]]]]]]]]];
        vm_compute; repeat constructor; intros [].
    + intros i b Hi Hin.
      destruct (Hcases i Hi)
        as [->|[->|[->|[->|[->|[->|[->|[->|[->|[->|[->|[->|[->|[->| ->]]]]]]]]]]]]]];
        vm_compute in Hin; try contradiction.
      destruct Hin as [<-|[]]. exists 4096.
      split; [left; reflexivity|]. split; [vm_compute; reflexivity|intros []].
    + intros b sz [E|[]] _. inversion E. subst. vm_compute. left. reflexivity.
  - intros b1 s1 b2 s2 [E1|[]] [E2|[]] H. inversion E1. inversion E2. subst. lia.
Qed.

Lemma checkheap_lists_test_cursor_witness :
  mem (state_after [OInit] fresh) (HDRP (mem_brk (state_after [OInit] fresh)))
  = PACK 0 1
  /\ creturns (heap_walk (printblock_body (checkheap 2)) 3 false
                 (heap_listp (state_after [OInit] fresh)))
       (state_after [OInit] fresh) (mem_brk (state_after [OInit] fresh))
  /\ check_lists 3 15 (mem_brk (state_after [OInit] fresh)) 0
       (state_after [OInit] fresh)
     = Ok (tt, lists_events (state_after [OInit] fresh)
                 (mem_brk (state_after [OInit] fresh)) lists_after_init 15 0)
  /\ (exists t0, checkheap 4 false (state_after [OInit] fresh)
                 = Ok (tt, t0 ++ lists_events (state_after [OInit] fresh)
                             (mem_brk (state_after [OInit] fresh))
                             lists_after_init 15 0))
  /\ (forall i b, 0 <= i < 15 -> In b (lists_after_init i) ->
        In (EvRead (mem_brk (state_after [OInit] fresh)))
          (lists_events (state_after [OInit] fresh)
             (mem_brk (state_after [OInit] fresh)) lists_after_init 15 0))
  /\ (forall p,
        In (EvRead p)
          (lists_events (state_after [OInit] fresh)
             (mem_brk (state_after [OInit] fresh)) lists_after_init 15 0) ->
        (p = mem_brk (state_after [OInit] fresh)
         \/ node (state_after [OInit] fresh) lists_after_init p)
        /\ ~ tag_cell (state_after [OInit] fresh) [(65800, 4096, false)] p).
Proof.
  apply (checkheap_lists_test_cursor (state_after [OInit] fresh)
           [(65800, 4096, false)] lists_after_init 2).
  - exact inv_after_init.
  - vm_compute. discriminate.
  - cbn. lia.
Defined.

(** C10 as stated fails on a heap whose tags are damaged.  After [mm_init],
    [mm_malloc(1)] and [mm_realloc] of that block to 1 byte (which overruns
    the new block and overwrites the next header), the lists of classes 5
    and 11 have one member each and the heap ends at 69896, but the walk of
    [checkheap] stops at 65896, well inside the heap.  The free-list loops
    then read the word at 65896, once for each of the two members, and they
    do not read the word after the heap. *)
Lemma checkheap_cursor_inside_heap :
  result (bucket_members 10 5 (state_after [OInit; OMalloc 1; ORealloc 0 1] fresh))
  = Some [65800]
  /\ result (bucket_members 10 11
               (state_after [OInit; OMalloc 1; ORealloc 0 1] fresh))
     = Some [65864]
  /\ mem_brk (state_after [OInit; OMalloc 1; ORealloc 0 1] fresh) = 69896
  /\ creturns (heap_walk (printblock_body (checkheap 9)) 9 false
                 (heap_listp (state_after [OInit; OMalloc 1; ORealloc 0 1] fresh)))
       (state_after [OInit; OMalloc 1; ORealloc 0 1] fresh) 65896
  /\ check_lists 9 15 65896 0 (state_after [OInit; OMalloc 1; ORealloc 0 1] fresh)
     = Ok (tt, [EvRead 65536; EvRead 65552; EvRead 65568; EvRead 65584;
                EvRead 65600; EvRead 65616; EvRead 65896; EvRead 65800;
                EvRead 65632; EvRead 65648; EvRead 65664; EvRead 65680;
                EvRead 65696; EvRead 65712; EvRead 65896; EvRead 65864;
                EvRead 65728; EvRead 65744; EvRead 65760])
  /\ creturns (checkheap 10 false)
       (state_after [OInit; OMalloc 1; ORealloc 0 1] fresh) tt.
Proof.
  split; [vm_compute; reflexivity|].
  split; [vm_compute; reflexivity|].
  split; [vm_compute; reflexivity|].
  split.
  { exists (match heap_walk (printblock_body (checkheap 9)) 9 false
                    (heap_listp (state_after [OInit; OMalloc 1; ORealloc 0 1] fresh))
                    (state_after [OInit; OMalloc 1; ORealloc 0 1] fresh) with
            | Ok (_, t) => t
            | _ => []
            end).
    vm_compute. reflexivity. }
  split; [vm_compute; reflexivity|].
  exists (match checkheap 10 false
                  (state_after [OInit; OMalloc 1; ORealloc 0 1] fresh) with
          | Ok (_, t) => t
          | _ => []
          end).
  vm_compute. reflexivity.
Qed.

(** When the heap ends at the end of the arena, the word that the free-list
    loops test lies outside the arena: right after [mm_init] in an arena of
    4360 bytes the list of class 12 has a member, and [checkheap] does not
    return. *)
Lemma checkheap_faults_when_heap_fills_arena :
  mem_brk (state_after [OInit] small) = mem_max_addr (state_after [OInit] small)
  /\ result (bucket_members 10 12 (state_after [OInit] small)) = Some [65800]
  /\ checkheap 10 false (state_after [OInit] small) = Fault.
Proof.
  split; [vm_compute; reflexivity|].
  split; [vm_compute; reflexivity|].
  vm_compute. reflexivity.
Qed.

(** The events of the free-list loops right after [mm_init]: the test of
    the only list member, the block at 65800, reads the word at 69896, the
    end of the heap. *)
Lemma lists_events_after_init :
  lists_events (state_after [OInit] fresh) (mem_brk (state_after [OInit] fresh))
    lists_after_init 15 0
  = [EvRead 65536; EvRead 65552; EvRead 65568; EvRead 65584; EvRead 65600;
     EvRead 65616; EvRead 65632; EvRead 65648; EvRead 65664; EvRead 65680;
     EvRead 65696; EvRead 65712; EvRead 65728; EvRead 69896; EvRead 65800;
     EvRead 65744; EvRead 65760].
Proof. vm_compute. reflexivity. Qed.

(** ** Well-formed heaps as the calls and the scan see them *)

Lemma mm_free_wf st p sz st' :
  allocated st p sz -> mm_free p st = Ok (tt, st') -> wf st'.
Proof.
  intros (bs & fl & Hinv & Hin) E.
  assert (W : wp (mm_free p) (fun _ s => wf s) st).
  { apply (wp_mm_free st bs fl p sz _ Hinv Hin).
    intros s bs' fl' Hinv' _ _ _. exists bs', fl'. exact Hinv'. }
  unfold wp in W. rewrite E in W. exact W.
Qed.

(** The scan of a chain of blocks lists the blocks. *)
Lemma heap_blocks_chain st e bs : forall s fuel,
  0 < mem_start_brk st -> mem_max_addr st < 2 ^ 64 ->
  mem_start_brk st <= s - 8 -> e <= mem_max_addr st -> s mod 8 = 0 ->
  chain (mem st) s bs e -> mem st (e - 8) = PACK 0 1 ->
  (length bs < fuel)%nat ->
  heap_blocks fuel s st
  = Ok (map (fun x : blk => (fst (fst x), snd (fst x), b2z (snd x))) bs, st).
Proof.
  induction bs as [|[[b sz] al] bs IH]; intros s fuel Hs Hm Hlo Hhi Hal Hc He Hf;
    cbn [chain] in Hc.
  - subst s. destruct fuel as [|fuel]; [cbn in Hf; lia|].
    assert (W : wp (heap_blocks (S fuel) e)
                  (fun r s => r = [] /\ s = st) st).
    { cbn [heap_blocks]. unfold HDRP. consts.
      wps. wps; [valid_tac|]. rewrite He. change (size_of (PACK 0 1)) with 0.
      cbn [Z.eqb]. wps. auto. }
    unfold wp in W. destruct (heap_blocks (S fuel) e st) as [[r s]| |];
      try contradiction.
    destruct W as [-> ->]. reflexivity.
  - destruct Hc as (-> & H1 & H2 & H3 & H4 & H5). consts.
    pose proof (chain_le _ _ _ _ H5) as Hle.
    destruct fuel as [|fuel]; [cbn in Hf; lia|].
    assert (Hrest : heap_blocks fuel (s + sz) st
                    = Ok (map (fun x : blk =>
                                 (fst (fst x), snd (fst x), b2z (snd x))) bs, st)).
    { apply IH; try assumption; try lia; try zlia. cbn in Hf. lia. }
    assert (W : wp (heap_blocks (S fuel) s)
                  (fun r s' =>
                     r = (s, sz, b2z al)
                         :: map (fun x : blk =>
                                   (fst (fst x), snd (fst x), b2z (snd x))) bs
                     /\ s' = st) st).
    { cbn [heap_blocks]. unfold HDRP, NEXT_BLKP. consts.
      wps. wps; [valid_tac|]. rewrite H3, size_of_PACK by lia.
      replace (sz =? 0) with false by (symmetry; apply Z.eqb_neq; lia).
      wps. wps; [valid_tac|]. rewrite H3.
      change (Z.land (PACK sz (b2z al)) 1) with (alloc_of (PACK sz (b2z al))).
      rewrite alloc_of_PACK by lia.
      wps. wps. wps; [valid_tac|]. rewrite H3, size_of_PACK by lia.
      wps. wps. unfold wp at 1. rewrite Hrest. apply wp_ret. auto. }
    unfold wp in W. destruct (heap_blocks (S fuel) s st) as [[r s']| |];
      try contradiction.
    destruct W as [-> ->]. reflexivity.
Qed.

(** In a chain where no free block follows a free block, the scan shows no
    two free blocks next to each other. *)
Lemma chain_scan_not_adjacent_free m bs : forall s e a0,
  chain m s bs e ->
  (forall b1 s1 b2 s2, In (b1, s1, false) bs -> In (b2, s2, false) bs ->
     b1 + s1 <> b2) ->
  (a0 = 0 -> forall sz, ~ In (s, sz, false) bs) ->
  adjacent_free
    ((0, 0, a0) :: map (fun x : blk => (fst (fst x), snd (fst x), b2z (snd x))) bs)
  = false.
Proof.
  induction bs as [|[[b sz] al] bs IH]; intros s e a0 Hc Hadj Hfirst.
  - reflexivity.
  - cbn [chain] in Hc. destruct Hc as (-> & H1 & H2 & H3 & H4 & H5).
    cbn [map fst snd].
    change (adjacent_free ((0, 0, a0) :: (s, sz, b2z al) :: ?r))
      with (((a0 =? 0) && (b2z al =? 0))
            || adjacent_free ((s, sz, b2z al) :: r)).
    assert (Hhere : (a0 =? 0) && (b2z al =? 0) = false).
    { destruct (Z.eqb_spec a0 0) as [E0|]; [|reflexivity].
      destruct al; [reflexivity|].
      exfalso. apply (Hfirst E0 sz). left. reflexivity. }
    rewrite Hhere. cbn [orb].
    assert (Hnext : adjacent_free
                      ((0, 0, b2z al)
                       :: map (fun x : blk =>
                                 (fst (fst x), snd (fst x), b2z (snd x))) bs)
                    = false).
    { apply (IH (s + sz) e (b2z al) H5).
      - intros b1 s1 b2 s2 B1 B2. apply (Hadj b1 s1 b2 s2); right; assumption.
      - intros Ea sz' Hin. destruct al; [discriminate Ea|].
        apply (Hadj s sz (s + sz) sz'); [left; reflexivity|right; exact Hin|].
        reflexivity. }
    destruct bs as [|[[b' sz'] al'] bs]; [reflexivity|].
    cbn [map fst snd] in *. exact Hnext.
Qed.

(** On a well-formed heap the scan from the prologue returns the prologue
    and the blocks of the heap, and no two free blocks are next to each
    other in it. *)
Lemma wf_scan_no_adjacent_free st bs fl fuel :
  inv st bs fl [] -> (length bs < fuel)%nat ->
  exists l, scan_heap (S fuel) st = Ok (l, st) /\ adjacent_free l = false.
Proof.
  intros Hinv Hfuel. pose proof Hinv as (Hok & _ & Hadj).
  pose proof (heap_ok_bounds _ _ Hok) as Hb.
  pose proof (ok_prologue_hdr _ _ Hok) as Hph.
  pose proof (ok_epilogue _ _ Hok) as Hep. consts.
  pose proof (heap_blocks_chain st (mem_brk st) bs (heap_listp st + 16) fuel)
    as Hrest.
  assert (Hr : heap_blocks fuel (heap_listp st + 16) st
               = Ok (map (fun x : blk =>
                            (fst (fst x), snd (fst x), b2z (snd x))) bs, st)).
  { apply Hrest; try lia; try zlia; try assumption.
    apply (ok_chain _ _ Hok). }
  exists ((heap_listp st, 16, 1)
          :: map (fun x : blk => (fst (fst x), snd (fst x), b2z (snd x))) bs).
  split.
  - assert (W : wp (scan_heap (S fuel))
                  (fun r s =>
                     r = (heap_listp st, 16, 1)
                         :: map (fun x : blk =>
                                   (fst (fst x), snd (fst x), b2z (snd x))) bs
                     /\ s = st) st).
    { unfold scan_heap. wps. wps. cbn [heap_blocks]. unfold HDRP, NEXT_BLKP. consts.
      wps. wps; [valid_tac|]. rewrite Hph. change (size_of (PACK 16 1)) with 16.
      cbn [Z.eqb]. wps. wps; [valid_tac|]. rewrite Hph.
      change (Z.land (PACK 16 1) 1) with 1.
      wps. wps. wps; [valid_tac|]. rewrite Hph.
      change (size_of (PACK 16 1)) with 16.
      wps. wps. unfold wp at 1. rewrite Hr. apply wp_ret. auto. }
    unfold wp in W. destruct (scan_heap (S fuel) st) as [[r s]| |];
      try contradiction.
    destruct W as [-> ->]. reflexivity.
  - pose proof (chain_scan_not_adjacent_free (mem st) bs (heap_listp st + 16)
                  (mem_brk st) 1 (ok_chain _ _ Hok)) as Hs.
    assert (Hs' : adjacent_free
                    ((0, 0, 1)
                     :: map (fun x : blk =>
                               (fst (fst x), snd (fst x), b2z (snd x))) bs)
                  = false).
    { apply Hs.
      - intros b1 s1 b2 s2 B1 B2 E.
        destruct (Hadj b1 s1 b2 s2 B1 B2 E) as [[]|[]].
      - discriminate. }
    destruct bs as [|[[b' sz'] al'] bs]; [reflexivity|].
    cbn [map fst snd] in *. exact Hs'.
Qed.

(** ** [mm_malloc], block by block *)

Lemma wpg_conseq_eq {A} t (c : M A) (Q Q' : A -> state -> Prop) st :
  wpg t c Q st ->
  (forall a st', c st = Ok (a, st') -> Q a st' -> Q' a st') ->
  wpg t c Q' st.
Proof.
  unfold wpg. destruct (c st) as [[a st']| |]; auto.
Qed.

Lemma chunk_size_facts n :
  0 < n -> n + 40 <= 2 ^ 64 ->
  0 <= MAX (adjust n) CHUNKSIZE / WSIZE
  /\ 4096 <= chunk_size n /\ adjust n <= chunk_size n
  /\ chunk_size n < 2 ^ 64 /\ chunk_size n mod 8 = 0.
Proof.
  intros Hn Hhi. destruct (adjust_facts n Hn Hhi) as (A1 & A2 & A3 & A4).
  unfold chunk_size, extend_size, MAX. change CHUNKSIZE with 4096. consts.
  destruct (adjust n >? 4096) eqn:E.
  - apply Z.gtb_lt in E. destruct (adjust n / 8 mod 2 =? 0) eqn:Ev.
    + repeat split; zlia.
    + apply Z.eqb_neq in Ev. repeat split; zlia.
  - rewrite Z.gtb_ltb in E. apply Z.ltb_ge in E.
    change (4096 / 8 mod 2 =? 0) with true. cbv iota.
    change (4096 / 8 * 8) with 4096. change (4096 / 8) with 512.
    repeat split; lia.
Qed.

Lemma wpg_mm_malloc_exact t st bs fl n fuel (Q : Z -> state -> Prop) :
  inv st bs fl [] -> 0 < n -> n + 40 <= 2 ^ 64 ->
  (t = true -> (length bs < fuel)%nat) ->
  (find_fit fuel (adjust n) st = Ok (NULL, st) ->
   mem_max_addr st < mem_brk st + chunk_size n -> Q NULL st) ->
  (forall st' bs' fl' p sz,
     inv st' bs' fl' [] -> same_arena st st' ->
     In (p, sz, true) bs' -> adjust n <= sz ->
     (forall s, ~ In (p, s, true) bs) ->
     malloc_blocks fuel st bs n p st' bs' ->
     (forall x, keeps_alloc st bs st' bs' x) -> Q p st') ->
  wpg t (mm_malloc fuel n) Q st.
Proof.
  intros Hinv Hn Hhi Hfuel Hfail HQ. pose proof Hinv as (Hok & Hl & Hadj).
  pose proof (heap_ok_bounds _ _ Hok) as Hb.
  destruct (adjust_facts n Hn Hhi) as (A1 & A2 & A3 & A4).
  destruct (chunk_size_facts n Hn Hhi) as (C0 & C1 & C2 & C3 & C4).
  unfold mm_malloc.
  replace (n =? 0) with false by (symmetry; apply Z.eqb_neq; lia).
  apply wpg_bind.
  eapply wpg_conseq_eq; [apply (find_fit_inv t st bs fl _ fuel Hinv Hfuel)|].
  intros r st' Efit [-> [->|(sz & B & Hsz)]].
  - (* no fit *)
    cbn [negb Z.eqb NULL]. apply wp_wpg. apply wp_bind.
    fold (chunk_size n) in *.
    eapply wp_extend_heap_exact; [exact Hinv|exact C0| | | |].
    + fold (chunk_size n). lia.
    + fold (chunk_size n). lia.
    + fold (chunk_size n). intros Hroom. cbn [Z.eqb NULL]. apply wp_ret.
      exact (Hfail Efit Hroom).
    + fold (chunk_size n).
      intros st1 bs1 fl1 bp1 sz1 Hinv1 Ha1 Hin1 Hle1 Hroom Hbrk1 Hm1 Hk1.
      pose proof (block_facts _ _ _ _ _ (proj1 Hinv1) Hin1) as F.
      pose proof (heap_ok_bounds _ _ (proj1 Hinv1)) as Hb1.
      replace (bp1 =? NULL) with false
        by (symmetry; apply Z.eqb_neq; unfold NULL; lia).
      apply wp_bind.
      eapply wp_place_exact; [exact Hinv1|exact Hin1|lia|exact A2|lia|].
      intros st2 bs2 fl2 sz2 Hinv2 Hg2 Hin2 Hle2 Hp2 Hk2. apply wp_ret.
      apply (HQ st2 bs2 fl2 bp1 sz2); try assumption.
      * eapply same_arena_trans; [exact Ha1|apply same_globals_arena; exact Hg2].
      * intros s Hs.
        destruct (Hk1 0 bp1 s Hs) as [Hs1 _]; [lia|].
        destruct (chain_unique _ _ _ _ _ _ _ _ _
                    (ok_chain _ _ (proj1 Hinv1)) Hs1 Hin1) as [_ E].
        discriminate E.
      * right. split; [exact Efit|]. split.
        { destruct Hg2 as (_ & G2 & _). rewrite G2. exact Hbrk1. }
        exists bs1, sz1. split; [exact Hm1|exact Hp2].
      * intros x. eapply keeps_alloc_trans; [apply Hk1|apply Hk2].
  - (* fit *)
    pose proof (block_facts _ _ _ _ _ Hok B) as F.
    replace (r =? NULL) with false by (symmetry; apply Z.eqb_neq; unfold NULL; lia).
    cbn [negb]. apply wp_wpg. apply wp_bind.
    eapply wp_place_exact; [exact Hinv|exact B|lia|exact A2|lia|].
    intros st2 bs2 fl2 sz2 Hinv2 Hg2 Hin2 Hle2 Hp2 Hk2. apply wp_ret.
    apply (HQ st2 bs2 fl2 r sz2); try assumption.
    + apply same_globals_arena. exact Hg2.
    + intros s Hs.
      destruct (chain_unique _ _ _ _ _ _ _ _ _ (ok_chain _ _ Hok) Hs B) as [_ E].
      discriminate E.
    + left. split; [exact Efit|]. split.
      { destruct Hg2 as (_ & G2 & _). exact G2. }
      exists sz. split; [exact Hsz|exact Hp2].
Qed.

(** ** Example heaps, block by block *)

Lemma bucket_cases i :
  0 <= i < 15 ->
  i = 0 \/ i = 1 \/ i = 2 \/ i = 3 \/ i = 4 \/ i = 5 \/ i = 6 \/ i = 7
  \/ i = 8 \/ i = 9 \/ i = 10 \/ i = 11 \/ i = 12 \/ i = 13 \/ i = 14.
Proof. lia. Qed.

Ltac each_bucket i Hi :=
  destruct (bucket_cases i Hi)
    as [->|[->|[->|[->|[->|[->|[->|[->|[->|[->|[->|[->|[->|[->| ->]]]]]]]]]]]]]].

Ltac concrete_chain :=
  cbn [chain];
  repeat match goal with
         | |- _ /\ _ => split
         | |- _ = _ => vm_compute; reflexivity
         | |- _ <= _ => vm_compute; discriminate
         end.

Ltac concrete_heap_ok :=
  constructor;
  [ vm_compute; reflexivity | vm_compute; reflexivity
  | vm_compute; discriminate | vm_compute; reflexivity
  | vm_compute; discriminate | vm_compute; reflexivity
  | vm_compute; discriminate | vm_compute; reflexivity
  | vm_compute; reflexivity | vm_compute; reflexivity
  | concrete_chain | vm_compute; reflexivity ].

Ltac concrete_In :=
  repeat match goal with
         | |- In _ (_ :: _) => first [left; reflexivity|right]
         end.

(** [lists_ok] of a concrete heap. *)
Ltac concrete_lists_ok :=
  constructor;
  [ let i := fresh "i" in let Hi := fresh "Hi" in
    intros i Hi; each_bucket i Hi;
    (split; [vm_compute; auto|split; vm_compute; reflexivity])
  | let i := fresh "i" in let Hi := fresh "Hi" in
    intros i Hi; each_bucket i Hi;
    vm_compute; repeat constructor;
    let H := fresh in intros H; vm_compute in H;
    repeat match goal with
           | H : _ \/ _ |- _ => destruct H as [H|H]
           | H : False |- _ => destruct H
           | H : _ = _ |- _ => discriminate H
           end
  | let i := fresh "i" in let b := fresh "b" in
    let Hi := fresh "Hi" in let Hin := fresh "Hin" in
    intros i b Hi Hin; each_bucket i Hi; vm_compute in Hin;
    repeat match goal with
           | H : _ \/ _ |- _ => destruct H as [H|H]
           | H : False |- _ => destruct H
           end;
    subst;
    eexists; (split; [concrete_In|split; [vm_compute; reflexivity|]]);
    let H := fresh in intros H; vm_compute in H;
    repeat match goal with
           | H : _ \/ _ |- _ => destruct H as [H|H]
           | H : False |- _ => destruct H
           | H : _ = _ |- _ => discriminate H
           end
  | let b := fresh "b" in let sz := fresh "sz" in
    let Hin := fresh "Hin" in let Hh := fresh "Hh" in
    intros b sz Hin Hh; cbn [In] in Hin;
    repeat match goal with
           | H : _ \/ _ |- _ => destruct H as [H|H]
           | H : False |- _ => destruct H
           | H : (_, _, _) = (_, _, _) |- _ => inversion H; clear H; subst
           end;
    first [ exfalso; apply Hh; vm_compute; tauto
          | vm_compute; tauto ] ].

Ltac concrete_no_adjacent :=
  let b1 := fresh "b1" in let s1 := fresh "s1" in
  let b2 := fresh "b2" in let s2 := fresh "s2" in
  let B1 := fresh "B1" in let B2 := fresh "B2" in let E := fresh "E" in
  intros b1 s1 b2 s2 B1 B2 E; cbn [In] in B1, B2;
  repeat match goal with
         | H : _ \/ _ |- _ => destruct H as [H|H]
         | H : False |- _ => destruct H
         | H : (_, _, _) = (_, _, _) |- _ => inversion H; clear H; subst
         end;
  first [ exfalso; lia | vm_compute; tauto ].

Ltac concrete_inv :=
  split; [concrete_heap_ok|split; [concrete_lists_ok|concrete_no_adjacent]].

Lemma inv_after_malloc :
  inv (state_after [OInit; OMalloc 4072] fresh) [(65800, 4096, true)]
    (fun _ => []) [].
Proof. concrete_inv. Qed.

Lemma inv_after_two :
  inv (state_after [OInit; OMalloc 1; OMalloc 1] fresh)
    [(65800, 32, true); (65832, 32, true); (65864, 4032, false)]
    lists_after_two [].
Proof. concrete_inv. Qed.

Lemma inv_after_free :
  inv (state_after [OInit; OMalloc 1; OMalloc 1; OFree 0] fresh)
    [(65800, 32, false); (65832, 32, true); (65864, 4032, false)]
    lists_after_free [].
Proof. concrete_inv. Qed.

(** ** Size classes and size adjustment *)

(** X1.  [find_list_head] maps every size to a class between 0 and 14; a
    size of a class above 0 is at least 2 to the class, a size of a class
    below 14 is below 2 to the class plus one; and the class does not
    decrease when the size grows. *)
Theorem find_list_head_classes s :
  0 <= find_list_head s <= 14
  /\ (0 < find_list_head s -> 2 ^ find_list_head s <= s)
  /\ (find_list_head s < 14 -> s < 2 ^ (find_list_head s + 1))
  /\ forall t, s <= t -> find_list_head s <= find_list_head t.
Proof.
  assert (Hb : forall x,
            0 <= find_list_head x <= 14
            /\ (0 < find_list_head x -> 2 ^ find_list_head x <= x)
            /\ (find_list_head x < 14 -> x < 2 ^ (find_list_head x + 1))).
  { intros x. unfold find_list_head.
    repeat match goal with
           | |- context [?a <? ?b] => destruct (Z.ltb_spec a b)
           end;
      (split; [lia|]);
      repeat match goal with
             | |- context [2 ^ ?k] =>
                 let v := eval vm_compute in (2 ^ k) in change (2 ^ k) with v
             end;
      lia. }
  destruct (Hb s) as (H1 & H2 & H3). repeat (split; [assumption|]).
  intros t Hst. destruct (Hb t) as (T1 & T2 & T3).
  destruct (Z.le_gt_cases (find_list_head s) (find_list_head t)) as [|Hgt];
    [assumption|exfalso].
  assert (Hs : 2 ^ find_list_head s <= s) by (apply H2; lia).
  assert (Ht : t < 2 ^ (find_list_head t + 1)) by (apply T3; lia).
  assert (Hp : 2 ^ (find_list_head t + 1) <= 2 ^ find_list_head s)
    by (apply Z.pow_le_mono_r; lia).
  lia.
Qed.

(** X2.  When the sum [size + DSIZE + (ALIGN_SIZE - 1)] does not wrap, the
    adjusted size of a request is a multiple of [ALIGN_SIZE], at least the
    minimum block size [2 * DSIZE], leaves room for the request and for a
    header and a footer, and, for a request above [DSIZE], exceeds that
    room by less than [ALIGN_SIZE]. *)
Theorem adjust_rounds_up n :
  0 < n -> n + DSIZE + (ALIGN_SIZE - 1) < 2 ^ 64 ->
  adjust n mod ALIGN_SIZE = 0
  /\ 2 * DSIZE <= adjust n
  /\ n + DSIZE <= adjust n
  /\ (DSIZE < n -> adjust n < n + DSIZE + ALIGN_SIZE).
Proof.
  intros Hn Hhi. unfold adjust. consts.
  destruct (n <=? 16) eqn:E.
  - apply Z.leb_le in E.
    split; [reflexivity|split; [lia|split; [lia|intros H; lia]]].
  - apply Z.leb_gt in E.
    rewrite (wrap_small (n + 16 + (8 - 1))) by lia.
    rewrite wrap_small by zlia.
    split; [zlia|split; [zlia|split; [zlia|intros _; zlia]]].
Qed.

Lemma adjust_rounds_up_witness :
  adjust 100 mod ALIGN_SIZE = 0
  /\ 2 * DSIZE <= adjust 100
  /\ 100 + DSIZE <= adjust 100
  /\ (DSIZE < 100 -> adjust 100 < 100 + DSIZE + ALIGN_SIZE).
Proof.
  apply (adjust_rounds_up 100).
  - lia.
  - vm_compute. reflexivity.
Defined.

(** X3.  The sum is not checked for overflow: for a request within 23 bytes
    of [2 ^ 64] it wraps, and the adjusted size is at most 16 bytes, below
    the minimum block size and below the request. *)
Theorem adjust_wraps n :
  2 ^ 64 - 23 <= n < 2 ^ 64 ->
  adjust n = ALIGN_SIZE * ((n + 23 - 2 ^ 64) / ALIGN_SIZE)
  /\ adjust n < 2 * DSIZE /\ adjust n < n.
Proof.
  intros Hn. unfold adjust. consts.
  replace (n <=? 16) with false by (symmetry; apply Z.leb_gt; lia).
  assert (E : wrap (n + 16 + (8 - 1)) = n + 23 - 2 ^ 64).
  { unfold wrap. zlia. }
  rewrite E. rewrite wrap_small by zlia. repeat split; zlia.
Qed.

Lemma adjust_wraps_witness :
  adjust (2 ^ 64 - 1) = ALIGN_SIZE * ((2 ^ 64 - 1 + 23 - 2 ^ 64) / ALIGN_SIZE)
  /\ adjust (2 ^ 64 - 1) < 2 * DSIZE /\ adjust (2 ^ 64 - 1) < 2 ^ 64 - 1.
Proof.
  apply (adjust_wraps (2 ^ 64 - 1)). lia.
Defined.

(** ** The list primitives, [place], [coalesce] and [extend_heap] *)

Lemma inv_unlinked :
  inv state_unlinked [(65800, 4096, false)] (fun _ => []) [65800].
Proof. concrete_inv. Qed.

(** X4.  [remove_circular] on a linked free block [b] returns; it takes [b]
    out of the list of its class and leaves the other members of that list
    in their order and all other lists as they are; it sets both links of
    [b] to [NULL]; it changes no word of an allocated block and no
    global. *)
Theorem remove_circular_unlinks st bs fl hole b sz :
  inv st bs fl hole -> In (b, sz, false) bs -> ~ In b hole ->
  exists st' l1 l2,
    remove_circular b st = Ok (tt, st')
    /\ fl (classof sz) = l1 ++ b :: l2
    /\ inv st' bs (fl_set fl (classof sz) (l1 ++ l2)) (b :: hole)
    /\ mem st' b = NULL /\ mem st' (b + WSIZE) = NULL
    /\ same_globals st st'
    /\ forall x, keeps_alloc st bs st' bs x.
Proof.
  intros Hinv Hin Hh.
  assert (W : wp (remove_circular b)
                (fun _ st' => exists l1 l2,
                   fl (classof sz) = l1 ++ b :: l2
                   /\ inv st' bs (fl_set fl (classof sz) (l1 ++ l2)) (b :: hole)
                   /\ mem st' b = NULL /\ mem st' (b + WSIZE) = NULL
                   /\ same_globals st st'
                   /\ forall x, keeps_alloc st bs st' bs x) st).
  { eapply wp_remove_circular_lists; [exact Hinv|exact Hin|exact Hh|].
    intros st' fl' Hinv' Hg Hk (l1 & l2 & E1 & ->) (N1 & N2).
    exists l1, l2. auto 10. }
  apply wp_Ok in W. destruct W as ([] & st' & E & l1 & l2 & W).
  exists st', l1, l2. split; [exact E|exact W].
Qed.

Lemma remove_circular_unlinks_witness :
  exists st' l1 l2,
    remove_circular 65800 (state_after [OInit] fresh) = Ok (tt, st')
    /\ lists_after_init (classof 4096) = l1 ++ 65800 :: l2
    /\ inv st' [(65800, 4096, false)]
         (fl_set lists_after_init (classof 4096) (l1 ++ l2)) [65800]
    /\ mem st' 65800 = NULL /\ mem st' (65800 + WSIZE) = NULL
    /\ same_globals (state_after [OInit] fresh) st'
    /\ forall x, keeps_alloc (state_after [OInit] fresh) [(65800, 4096, false)]
                   st' [(65800, 4096, false)] x.
Proof.
  apply (remove_circular_unlinks (state_after [OInit] fresh)
           [(65800, 4096, false)] lists_after_init [] 65800 4096).
  - exact inv_after_init.
  - left. reflexivity.
  - intros H. exact H.
Defined.

(** X5.  [insert_circular], called as [coalesce] and [place] call it (with
    the sentinel of the class of the block's size), links an unlinked free
    block [b] at the tail of the list of its class; the other lists, the
    words of the allocated blocks and the globals are as before. *)
Theorem insert_circular_appends st bs fl hole b sz :
  inv st bs fl (b :: hole) -> In (b, sz, false) bs -> ~ In b hole ->
  no_adjacent_free hole bs ->
  exists st',
    insert_circular b (bucket st (classof sz)) st = Ok (tt, st')
    /\ inv st' bs (fl_set fl (classof sz) (fl (classof sz) ++ [b])) hole
    /\ same_globals st st'
    /\ forall x, keeps_alloc st bs st' bs x.
Proof.
  intros Hinv Hin Hh Hadj.
  assert (W : wp (insert_circular b (bucket st (classof sz)))
                (fun _ st' =>
                   inv st' bs (fl_set fl (classof sz) (fl (classof sz) ++ [b])) hole
                   /\ same_globals st st'
                   /\ forall x, keeps_alloc st bs st' bs x) st).
  { eapply wp_insert_circular_lists; [exact Hinv|exact Hin|exact Hh|exact Hadj|].
    intros st' fl' Hinv' Hg Hk ->. auto. }
  apply wp_Ok in W. destruct W as ([] & st' & E & W).
  exists st'. split; [exact E|exact W].
Qed.

Lemma insert_circular_appends_witness :
  exists st',
    insert_circular 65800 (bucket state_unlinked (classof 4096)) state_unlinked
    = Ok (tt, st')
    /\ inv st' [(65800, 4096, false)]
         (fl_set (fun _ => []) (classof 4096) ([] ++ [65800])) []
    /\ same_globals state_unlinked st'
    /\ forall x, keeps_alloc state_unlinked [(65800, 4096, false)]
                   st' [(65800, 4096, false)] x.
Proof.
  apply (insert_circular_appends state_unlinked [(65800, 4096, false)]
           (fun _ => []) [] 65800 4096).
  - exact inv_unlinked.
  - left. reflexivity.
  - intros H. exact H.
  - intros b1 s1 b2 s2 [B1|[]] [B2|[]] E.
    exfalso. inversion B1. inversion B2. lia.
Defined.

(** X6.  [place] of [asize] bytes (a multiple of 8, at least 32) in a free
    block of [csize >= asize] bytes returns and keeps the heap well formed.
    When [csize - asize] is at least 32 the block is split into an allocated
    block of [asize] bytes and a free remainder; otherwise the whole block
    becomes allocated.  All other blocks are as before and no word of
    another allocated block changes. *)
Theorem place_splits st bs fl bp csize asize :
  inv st bs fl [] -> In (bp, csize, false) bs ->
  2 * DSIZE <= asize -> asize mod ALIGN_SIZE = 0 -> asize <= csize ->
  exists st' bs' fl',
    place bp asize st = Ok (tt, st')
    /\ inv st' bs' fl' []
    /\ placed bs bp csize asize bs'
    /\ same_globals st st'
    /\ forall x, keeps_alloc st bs st' bs' x.
Proof.
  intros Hinv Hin H1 H2 H3. consts.
  assert (W : wp (place bp asize)
                (fun _ st' => exists bs' fl',
                   inv st' bs' fl' []
                   /\ placed bs bp csize asize bs'
                   /\ same_globals st st'
                   /\ forall x, keeps_alloc st bs st' bs' x) st).
  { eapply wp_place_exact; [exact Hinv|exact Hin|lia|exact H2|exact H3|].
    intros st' bs' fl' sz' Hinv' Hg _ _ Hp Hk. exists bs', fl'. auto. }
  apply wp_Ok in W. destruct W as ([] & st' & E & bs' & fl' & W).
  exists st', bs', fl'. split; [exact E|exact W].
Qed.

Lemma place_splits_witness :
  exists st' bs' fl',
    place 65800 32 (state_after [OInit] fresh) = Ok (tt, st')
    /\ inv st' bs' fl' []
    /\ placed [(65800, 4096, false)] 65800 4096 32 bs'
    /\ same_globals (state_after [OInit] fresh) st'
    /\ forall x, keeps_alloc (state_after [OInit] fresh) [(65800, 4096, false)]
                   st' bs' x.
Proof.
  apply (place_splits (state_after [OInit] fresh) [(65800, 4096, false)]
           lists_after_init 65800 4096 32).
  - exact inv_after_init.
  - left. reflexivity.
  - vm_compute. discriminate.
  - reflexivity.
  - vm_compute. discriminate.
Defined.

(** X7.  [coalesce] on a free block [bp] that is not linked yet, in a heap
    that is well formed otherwise, returns the address [bp'] of a free block
    that spans [bp] and its free neighbours (the block before it, the block
    after it, both or none).  After the call the heap is well formed: the
    new block is linked and no two free blocks are adjacent.  No word of an
    allocated block changes. *)
Theorem coalesce_merges st bs fl bp sz :
  inv st bs fl [bp] -> In (bp, sz, false) bs ->
  exists bp' st' bs' fl' sz',
    coalesce bp st = Ok (bp', st')
    /\ inv st' bs' fl' []
    /\ In (bp', sz', false) bs'
    /\ merged bs bp sz false bs' bp' sz'
    /\ same_globals st st'
    /\ forall x, keeps_alloc st bs st' bs' x.
Proof.
  intros Hinv Hin.
  assert (W : wp (coalesce bp)
                (fun bp' st' => exists bs' fl' sz',
                   inv st' bs' fl' []
                   /\ In (bp', sz', false) bs'
                   /\ merged bs bp sz false bs' bp' sz'
                   /\ same_globals st st'
                   /\ forall x, keeps_alloc st bs st' bs' x) st).
  { eapply wp_coalesce_exact; [exact Hinv|exact Hin|].
    intros st' bs' fl' bp' sz' Hinv' Hg Hin' _ _ Hm Hk.
    exists bs', fl', sz'. auto 10. }
  apply wp_Ok in W. destruct W as (bp' & st' & E & bs' & fl' & sz' & W).
  exists bp', st', bs', fl', sz'. split; [exact E|exact W].
Qed.

Lemma coalesce_merges_witness :
  exists bp' st' bs' fl' sz',
    coalesce 65800 state_unlinked = Ok (bp', st')
    /\ inv st' bs' fl' []
    /\ In (bp', sz', false) bs'
    /\ merged [(65800, 4096, false)] 65800 4096 false bs' bp' sz'
    /\ same_globals state_unlinked st'
    /\ forall x, keeps_alloc state_unlinked [(65800, 4096, false)] st' bs' x.
Proof.
  apply (coalesce_merges state_unlinked [(65800, 4096, false)]
           (fun _ => []) 65800 4096).
  - exact inv_unlinked.
  - left. reflexivity.
Defined.

(** X8.  [extend_heap] on a well-formed heap, for [words >= 0] such that
    the size of the region, [extend_size words] bytes ([words] rounded up
    to an even number, times 8), is at least 32 and below [2 ^ 64]: when
    the arena has no room for the region it returns [NULL] and the state is
    as before; otherwise the break moves up by exactly [extend_size words]
    bytes, the region becomes a free block that is merged with the last
    block of the heap when that one is free, the address of the resulting
    free block is returned, the heap is well formed and no word of an
    allocated block has changed. *)
Theorem extend_heap_grows st bs fl words :
  inv st bs fl [] -> 0 <= words ->
  2 * DSIZE <= extend_size words -> extend_size words < 2 ^ 64 ->
  exists r st',
    extend_heap words st = Ok (r, st')
    /\ ((mem_max_addr st < mem_brk st + extend_size words
         /\ r = NULL /\ st' = st)
        \/ (mem_brk st + extend_size words <= mem_max_addr st
            /\ r <> NULL
            /\ mem_brk st' = mem_brk st + extend_size words
            /\ exists bs' fl' sz',
                 inv st' bs' fl' []
                 /\ In (r, sz', false) bs'
                 /\ merged (bs ++ [(mem_brk st, extend_size words, false)])
                      (mem_brk st) (extend_size words) false bs' r sz'
                 /\ same_arena st st'
                 /\ forall x, keeps_alloc st bs st' bs' x)).
Proof.
  intros Hinv Hw H1 H2. consts.
  assert (W : wp (extend_heap words)
                (fun r st' =>
                   (mem_max_addr st < mem_brk st + extend_size words
                    /\ r = NULL /\ st' = st)
                   \/ (mem_brk st + extend_size words <= mem_max_addr st
                       /\ r <> NULL
                       /\ mem_brk st' = mem_brk st + extend_size words
                       /\ exists bs' fl' sz',
                            inv st' bs' fl' []
                            /\ In (r, sz', false) bs'
                            /\ merged (bs ++ [(mem_brk st, extend_size words, false)])
                                 (mem_brk st) (extend_size words) false bs' r sz'
                            /\ same_arena st st'
                            /\ forall x, keeps_alloc st bs st' bs' x)) st).
  { eapply wp_extend_heap_exact; [exact Hinv|exact Hw|lia|exact H2| |].
    - intros Hroom. left. auto.
    - intros st' bs' fl' bp' sz' Hinv' Ha Hin' _ Hroom Hbrk Hm Hk.
      right. split; [exact Hroom|]. split.
      { pose proof (block_facts _ _ _ _ _ (proj1 Hinv') Hin') as F.
        pose proof (heap_ok_bounds _ _ (proj1 Hinv')) as Hb.
        unfold NULL. lia. }
      split; [exact Hbrk|]. exists bs', fl', sz'. auto 10. }
  apply wp_Ok in W. destruct W as (r & st' & E & W).
  exists r, st'. split; [exact E|exact W].
Qed.

Lemma extend_heap_grows_witness :
  exists r st',
    extend_heap 512 (state_after [OInit] fresh) = Ok (r, st')
    /\ ((mem_max_addr (state_after [OInit] fresh)
         < mem_brk (state_after [OInit] fresh) + extend_size 512
         /\ r = NULL /\ st' = state_after [OInit] fresh)
        \/ (mem_brk (state_after [OInit] fresh) + extend_size 512
            <= mem_max_addr (state_after [OInit] fresh)
            /\ r <> NULL
            /\ mem_brk st' = mem_brk (state_after [OInit] fresh) + extend_size 512
            /\ exists bs' fl' sz',
                 inv st' bs' fl' []
                 /\ In (r, sz', false) bs'
                 /\ merged ([(65800, 4096, false)]
                            ++ [(mem_brk (state_after [OInit] fresh),
                                 extend_size 512, false)])
                      (mem_brk (state_after [OInit] fresh)) (extend_size 512)
                      false bs' r sz'
                 /\ same_arena (state_after [OInit] fresh) st'
                 /\ forall x, keeps_alloc (state_after [OInit] fresh)
                                [(65800, 4096, false)] st' bs' x)).
Proof.
  apply (extend_heap_grows (state_after [OInit] fresh) [(65800, 4096, false)]
           lists_after_init 512).
  - exact inv_after_init.
  - discriminate.
  - vm_compute. discriminate.
  - reflexivity.
Defined.

(** ** [mm_init], [mm_malloc], [mm_free] and [find_fit] on well-formed heaps *)

Lemma single_block_lists st b sz fl :
  inv st [(b, sz, false)] fl [] ->
  forall i, 0 <= i < 15 -> fl i = if i =? classof sz then [b] else [].
Proof.
  intros (_ & Hl & _) i Hi.
  assert (Hmem : forall j x, 0 <= j < 15 -> In x (fl j) -> x = b /\ j = classof sz).
  { intros j x Hj Hx.
    destruct (ok_member _ _ _ _ Hl j x Hj Hx) as (s & [E|[]] & Hc & _).
    inversion E; subst. auto. }
  destruct (Z.eqb_spec i (classof sz)) as [->|Hne].
  - pose proof (ok_linked _ _ _ _ Hl b sz (or_introl eq_refl) (fun H => H)) as Hin.
    pose proof (ok_nodup _ _ _ _ Hl _ Hi) as Hnd.
    destruct (fl (classof sz)) as [|x [|y l]] eqn:Efl.
    + destruct Hin.
    + destruct (Hmem _ x Hi) as [-> _]; [rewrite Efl; left; reflexivity|].
      reflexivity.
    + destruct (Hmem _ x Hi) as [-> _]; [rewrite Efl; left; reflexivity|].
      destruct (Hmem _ y Hi) as [-> _];
        [rewrite Efl; right; left; reflexivity|].
      inversion Hnd as [|? ? Hnot _]. exfalso. apply Hnot. left. reflexivity.
  - destruct (fl i) as [|x l] eqn:E; [reflexivity|].
    destruct (Hmem i x Hi) as [_ Hc]; [rewrite E; left; reflexivity|].
    contradiction.
Qed.

(** X9.  [mm_init], in an arena whose break is word aligned: when the arena
    has room for 4360 more bytes (the array of 15 sentinels, the prologue
    and the epilogue, and one chunk of [CHUNKSIZE] bytes) it returns 0, the
    break has moved up by exactly 4360 bytes, and the heap is well formed
    with a single block: a free block of [CHUNKSIZE] bytes, which is the
    only member of the list of class 12 while every other list is empty.
    With less room it returns -1. *)
Theorem mm_init_one_chunk st :
  0 < mem_start_brk st -> mem_start_brk st <= mem_brk st ->
  mem_brk st mod ALIGN_SIZE = 0 -> mem_max_addr st < 2 ^ 64 ->
  exists r st',
    mm_init st = Ok (r, st')
    /\ ((mem_max_addr st < mem_brk st + 4360 /\ r = -1)
        \/ (mem_brk st + 4360 <= mem_max_addr st /\ r = 0
            /\ free_listp st' = mem_brk st
            /\ heap_listp st' = mem_brk st + 248
            /\ mem_brk st' = mem_brk st + 4360
            /\ exists fl,
                 inv st' [(mem_brk st + 264, CHUNKSIZE, false)] fl []
                 /\ forall i, 0 <= i < 15 ->
                      fl i = if i =? 12 then [mem_brk st + 264] else [])).
Proof.
  intros H1 H2 H3 H4.
  assert (W : wp mm_init
                (fun r st' =>
                   (mem_max_addr st < mem_brk st + 4360 /\ r = -1)
                   \/ (mem_brk st + 4360 <= mem_max_addr st /\ r = 0
                       /\ free_listp st' = mem_brk st
                       /\ heap_listp st' = mem_brk st + 248
                       /\ mem_brk st' = mem_brk st + 4360
                       /\ exists fl,
                            inv st' [(mem_brk st + 264, CHUNKSIZE, false)] fl []
                            /\ forall i, 0 <= i < 15 ->
                                 fl i = if i =? 12 then [mem_brk st + 264] else [])) st).
  { apply wp_mm_init_exact; try assumption.
    - intros st' Hroom. left. auto.
    - intros st' bs fl Hinv _ _ E3 E4 Hroom Hbrk ->. right.
      repeat (split; [assumption || reflexivity|]).
      exists fl. split; [exact Hinv|].
      exact (single_block_lists _ _ _ _ Hinv). }
  apply wp_Ok in W. destruct W as (r & st' & E & W).
  exists r, st'. split; [exact E|exact W].
Qed.

Lemma mm_init_one_chunk_witness :
  exists r st',
    mm_init fresh = Ok (r, st')
    /\ ((mem_max_addr fresh < mem_brk fresh + 4360 /\ r = -1)
        \/ (mem_brk fresh + 4360 <= mem_max_addr fresh /\ r = 0
            /\ free_listp st' = mem_brk fresh
            /\ heap_listp st' = mem_brk fresh + 248
            /\ mem_brk st' = mem_brk fresh + 4360
            /\ exists fl,
                 inv st' [(mem_brk fresh + 264, CHUNKSIZE, false)] fl []
                 /\ forall i, 0 <= i < 15 ->
                      fl i = if i =? 12 then [mem_brk fresh + 264] else [])).
Proof.
  apply (mm_init_one_chunk fresh).
  - reflexivity.
  - discriminate.
  - reflexivity.
  - reflexivity.
Defined.

(** X10.  [mm_malloc] of [n] bytes, for [0 < n] and [n + 40 <= 2 ^ 64], on
    a well-formed heap returns (with fuel above the number of blocks).
    When it fails it returns [NULL] and the state is as before.  Otherwise
    it returns the address [p] of an allocated block with room for [n]
    bytes of payload besides its two tags; [p] was not allocated before,
    the block overlaps no block that was allocated before, every such block
    is still allocated with all its words as before, and the heap is well
    formed. *)
Theorem malloc_returns_fresh_block st bs fl n fuel :
  inv st bs fl [] -> 0 < n -> n + 40 <= 2 ^ 64 -> (length bs < fuel)%nat ->
  exists p st',
    mm_malloc fuel n st = Ok (p, st')
    /\ ((p = NULL /\ st' = st)
        \/ (p <> NULL
            /\ exists bs' fl' sz,
                 inv st' bs' fl' []
                 /\ In (p, sz, true) bs'
                 /\ n + DSIZE <= sz
                 /\ (forall s, ~ In (p, s, true) bs)
                 /\ (forall b s, In (b, s, true) bs ->
                       b + s <= p \/ p + sz <= b)
                 /\ same_arena st st'
                 /\ forall x, keeps_alloc st bs st' bs' x)).
Proof.
  intros Hinv Hn Hhi Hfuel.
  assert (W : wpg true (mm_malloc fuel n)
                (fun p st' =>
                   (p = NULL /\ st' = st)
                   \/ (p <> NULL
                       /\ exists bs' fl' sz,
                            inv st' bs' fl' []
                            /\ In (p, sz, true) bs'
                            /\ n + DSIZE <= sz
                            /\ (forall s, ~ In (p, s, true) bs)
                            /\ (forall b s, In (b, s, true) bs ->
                                  b + s <= p \/ p + sz <= b)
                            /\ same_arena st st'
                            /\ forall x, keeps_alloc st bs st' bs' x)) st).
  { apply (wpg_mm_malloc_exact true st bs fl n fuel); try assumption.
    - intros _. exact Hfuel.
    - intros _ _. left. auto.
    - intros st' bs' fl' p sz Hinv' Ha Hin Hsz Hnew _ Hk. right.
      pose proof (block_facts _ _ _ _ _ (proj1 Hinv') Hin) as F.
      pose proof (heap_ok_bounds _ _ (proj1 Hinv')) as Hb.
      destruct (adjust_facts n Hn Hhi) as (A1 & A2 & A3 & A4).
      split; [unfold NULL; lia|].
      exists bs', fl', sz. split; [exact Hinv'|]. split; [exact Hin|].
      split; [unfold DSIZE, WSIZE; lia|]. split; [exact Hnew|].
      split; [|split; [exact Ha|exact Hk]].
      intros b s Hb0.
      assert (Hne : b <> p) by (intros ->; exact (Hnew s Hb0)).
      destruct (Hk 0 b s Hb0) as [Hb' _].
      { intros ->. pose proof (block_facts _ _ _ _ _ (proj1 Hinv) Hb0).
        pose proof (heap_ok_bounds _ _ (proj1 Hinv)). lia. }
      destruct (chain_disjoint _ _ _ _ _ _ _ _ _ _
                  (ok_chain _ _ (proj1 Hinv')) Hb' Hin) as [E|[E|E]].
      + inversion E. contradiction.
      + left. exact E.
      + right. exact E. }
  apply wpg_wp, wp_Ok in W. destruct W as (p & st' & E & W).
  exists p, st'. split; [exact E|exact W].
Qed.

Lemma malloc_returns_fresh_block_witness :
  exists p st',
    mm_malloc 2 100 (state_after [OInit] fresh) = Ok (p, st')
    /\ ((p = NULL /\ st' = state_after [OInit] fresh)
        \/ (p <> NULL
            /\ exists bs' fl' sz,
                 inv st' bs' fl' []
                 /\ In (p, sz, true) bs'
                 /\ 100 + DSIZE <= sz
                 /\ (forall s, ~ In (p, s, true) [(65800, 4096, false)])
                 /\ (forall b s, In (b, s, true) [(65800, 4096, false)] ->
                       b + s <= p \/ p + sz <= b)
                 /\ same_arena (state_after [OInit] fresh) st'
                 /\ forall x, keeps_alloc (state_after [OInit] fresh)
                                [(65800, 4096, false)] st' bs' x)).
Proof.
  apply (malloc_returns_fresh_block (state_after [OInit] fresh)
           [(65800, 4096, false)] lists_after_init 100 2).
  - exact inv_after_init.
  - reflexivity.
  - vm_compute. discriminate.
  - cbn [length]. lia.
Defined.

(** X11.  On a well-formed heap, [mm_malloc] of [n] bytes, for [0 < n] and
    [n + 40 <= 2 ^ 64], returns [NULL] exactly when [find_fit] finds no
    block for the adjusted size and the arena has no room for
    [chunk_size n] more bytes (the adjusted size or [CHUNKSIZE], whichever
    is larger, rounded to an even number of words). *)
Theorem malloc_fails_only_without_room st bs fl n fuel :
  inv st bs fl [] -> 0 < n -> n + 40 <= 2 ^ 64 -> (length bs < fuel)%nat ->
  exists p st',
    mm_malloc fuel n st = Ok (p, st')
    /\ (p = NULL <->
        find_fit fuel (adjust n) st = Ok (NULL, st)
        /\ mem_max_addr st < mem_brk st + chunk_size n).
Proof.
  intros Hinv Hn Hhi Hfuel.
  assert (W : wpg true (mm_malloc fuel n)
                (fun p st' =>
                   p = NULL <->
                   find_fit fuel (adjust n) st = Ok (NULL, st)
                   /\ mem_max_addr st < mem_brk st + chunk_size n) st).
  { apply (wpg_mm_malloc_exact true st bs fl n fuel); try assumption.
    - intros _. exact Hfuel.
    - intros Ef Hroom. split; auto.
    - intros st' bs' fl' p sz Hinv' Ha Hin Hsz Hnew Hmb Hk.
      pose proof (block_facts _ _ _ _ _ (proj1 Hinv') Hin) as F.
      pose proof (heap_ok_bounds _ _ (proj1 Hinv')) as Hb.
      assert (Hp : p <> NULL) by (unfold NULL; lia).
      split; [intros E; contradiction|].
      intros [Ef Hroom]. exfalso.
      destruct Hmb as [(Ef' & _)|(_ & Hbrk & _)].
      + rewrite Ef in Ef'. inversion Ef'. auto.
      + destruct Ha as (_ & _ & Hmax & _).
        pose proof (ok_brk _ _ (proj1 Hinv')). lia. }
  apply wpg_wp, wp_Ok in W. destruct W as (p & st' & E & W).
  exists p, st'. split; [exact E|exact W].
Qed.

Lemma inv_full_small :
  inv (state_after [OInit; OMalloc 4072] small) [(65800, 4096, true)]
    (fun _ => []) [].
Proof. concrete_inv. Qed.

(** The theorem at two heaps: after [mm_init] in the large arena, where
    [mm_malloc(100)] succeeds, and in the arena of 4360 bytes with its only
    chunk allocated, where [find_fit] finds nothing, the arena has no room
    and [mm_malloc(1)] returns [NULL]. *)
Lemma malloc_fails_only_without_room_witness :
  (exists p st',
     mm_malloc 2 100 (state_after [OInit] fresh) = Ok (p, st')
     /\ (p = NULL <->
         find_fit 2 (adjust 100) (state_after [OInit] fresh)
         = Ok (NULL, state_after [OInit] fresh)
         /\ mem_max_addr (state_after [OInit] fresh)
            < mem_brk (state_after [OInit] fresh) + chunk_size 100))
  /\ result (mm_malloc 2 100 (state_after [OInit] fresh)) = Some 65800
  /\ (exists p st',
        mm_malloc 2 1 (state_after [OInit; OMalloc 4072] small) = Ok (p, st')
        /\ (p = NULL <->
            find_fit 2 (adjust 1) (state_after [OInit; OMalloc 4072] small)
            = Ok (NULL, state_after [OInit; OMalloc 4072] small)
            /\ mem_max_addr (state_after [OInit; OMalloc 4072] small)
               < mem_brk (state_after [OInit; OMalloc 4072] small)
                 + chunk_size 1))
  /\ result (mm_malloc 2 1 (state_after [OInit; OMalloc 4072] small))
     = Some NULL
  /\ chunk_size 1 = CHUNKSIZE.
Proof.
  split.
  { apply (malloc_fails_only_without_room (state_after [OInit] fresh)
             [(65800, 4096, false)] lists_after_init 100 2).
    - exact inv_after_init.
    - reflexivity.
    - vm_compute. discriminate.
    - cbn [length]. lia. }
  split; [vm_compute; reflexivity|].
  split.
  { apply (malloc_fails_only_without_room
             (state_after [OInit; OMalloc 4072] small)
             [(65800, 4096, true)] (fun _ => []) 1 2).
    - exact inv_full_small.
    - reflexivity.
    - vm_compute. discriminate.
    - cbn [length]. lia. }
  split; vm_compute; reflexivity.
Defined.



(** X13.  [mm_free] of an allocated block of a well-formed heap returns.
    The block and its free neighbours (the block before it, the block
    after it, both or none) become one free block; all other blocks are as
    before, the heap is well formed, the address is no longer allocated,
    and no word of another allocated block and no global has changed. *)
Theorem free_merges_neighbours st bs fl ptr sz :
  inv st bs fl [] -> In (ptr, sz, true) bs ->
  exists st' bs' fl' bp' sz',
    mm_free ptr st = Ok (tt, st')
    /\ inv st' bs' fl' []
    /\ In (bp', sz', false) bs'
    /\ merged bs ptr sz true bs' bp' sz'
    /\ (forall s, ~ In (ptr, s, true) bs')
    /\ same_globals st st'
    /\ keeps_alloc st bs st' bs' ptr.
Proof.
  intros Hinv Hin.
  assert (W : wp (mm_free ptr)
                (fun _ st' => exists bs' fl' bp' sz',
                   inv st' bs' fl' []
                   /\ In (bp', sz', false) bs'
                   /\ merged bs ptr sz true bs' bp' sz'
                   /\ (forall s, ~ In (ptr, s, true) bs')
                   /\ same_globals st st'
                   /\ keeps_alloc st bs st' bs' ptr) st).
  { eapply wp_mm_free_exact; [exact Hinv|exact Hin|].
    intros st' bs' fl' Hinv' Hg Hnot (bp' & sz' & Hin' & Hm) Hk.
    exists bs', fl', bp', sz'. auto 10. }
  apply wp_Ok in W. destruct W as ([] & st' & E & bs' & fl' & bp' & sz' & W).
  exists st', bs', fl', bp', sz'. split; [exact E|exact W].
Qed.

Lemma free_merges_neighbours_witness :
  exists st' bs' fl' bp' sz',
    mm_free 65800 (state_after [OInit; OMalloc 1; OMalloc 1] fresh) = Ok (tt, st')
    /\ inv st' bs' fl' []
    /\ In (bp', sz', false) bs'
    /\ merged [(65800, 32, true); (65832, 32, true); (65864, 4032, false)]
         65800 32 true bs' bp' sz'
    /\ (forall s, ~ In (65800, s, true) bs')
    /\ same_globals (state_after [OInit; OMalloc 1; OMalloc 1] fresh) st'
    /\ keeps_alloc (state_after [OInit; OMalloc 1; OMalloc 1] fresh)
         [(65800, 32, true); (65832, 32, true); (65864, 4032, false)]
         st' bs' 65800.
Proof.
  apply (free_merges_neighbours (state_after [OInit; OMalloc 1; OMalloc 1] fresh)
           [(65800, 32, true); (65832, 32, true); (65864, 4032, false)]
           lists_after_two 65800 32).
  - exact inv_after_two.
  - left. reflexivity.
Defined.

(** ** Calls in sequence *)

Lemma chain_adjacent m A b1 s1 a1 b2 s2 a2 B s e :
  chain m s (A ++ (b1, s1, a1) :: (b2, s2, a2) :: B) e -> b1 + s1 = b2.
Proof.
  intros H. apply chain_app in H as (mid & _ & Hc). cbn [chain] in Hc.
  destruct Hc as (E1 & _ & _ & _ & _ & E2 & _). lia.
Qed.

Lemma chain_unique_size m bs s e b s1 a1 s2 a2 :
  chain m s bs e -> In (b, s1, a1) bs -> In (b, s2, a2) bs -> s1 = s2.
Proof. intros Hc H1 H2. exact (proj1 (chain_unique _ _ _ _ _ _ _ _ _ Hc H1 H2)). Qed.

Lemma merged_length bs bp sz al bs' bp' sz' :
  merged bs bp sz al bs' bp' sz' -> (length bs' <= length bs)%nat.
Proof.
  intros (L & pre & post & R & -> & -> & _).
  rewrite !length_app. cbn [length]. rewrite !length_app. lia.
Qed.

(** Placing a request in a free block and freeing the block again gives
    back the blocks there were. *)
Lemma placed_merged_restores m s e m1 s1 e1 bs bs1 bs2 p csize asize sz1 bp' sz' :
  chain m s bs e -> chain m1 s1 bs1 e1 ->
  no_adjacent_free [] bs -> no_adjacent_free [] bs2 ->
  placed bs p csize asize bs1 -> In (p, sz1, true) bs1 ->
  merged bs1 p sz1 true bs2 bp' sz' ->
  bs2 = bs.
Proof.
  intros Hc Hc1 Hadj Hadj2 (L & R & -> & ->) Hin
    (L' & pre & post & R' & E & -> & Hfree & Hpre & Hpost & -> & ->).
  assert (Hpre0 : pre = []).
  { destruct pre as [|[[bx sx] ax] pre']; [reflexivity|exfalso].
    destruct pre' as [|? ?]; [|cbn [length] in Hpre; lia].
    assert (ax = false) by (apply (Hfree (bx, sx, ax)); left; reflexivity).
    subst ax.
    assert (EL : L = L' ++ [(bx, sx, false)]).
    { unfold split_block in E, Hc1, Hin.
      destruct (2 * DSIZE <=? csize - asize).
      - assert (sz1 = asize).
        { eapply chain_unique_size; [exact Hc1|exact Hin|].
          apply in_or_app. right. left. reflexivity. }
        subst sz1. cbn [app] in E, Hc1.
        replace (L' ++ (bx, sx, false) :: (p, asize, true) :: post ++ R')
          with ((L' ++ [(bx, sx, false)]) ++ (p, asize, true) :: post ++ R') in E
          by (rewrite <- app_assoc; reflexivity).
        exact (proj1 (chain_split_unique _ _ _ _ _ _ _ _ Hc1 E)).
      - assert (sz1 = csize).
        { eapply chain_unique_size; [exact Hc1|exact Hin|].
          apply in_or_app. right. left. reflexivity. }
        subst sz1. cbn [app] in E, Hc1.
        replace (L' ++ (bx, sx, false) :: (p, csize, true) :: post ++ R')
          with ((L' ++ [(bx, sx, false)]) ++ (p, csize, true) :: post ++ R') in E
          by (rewrite <- app_assoc; reflexivity).
        exact (proj1 (chain_split_unique _ _ _ _ _ _ _ _ Hc1 E)). }
    subst L. rewrite <- app_assoc in Hc. cbn [app] in Hc.
    pose proof (chain_adjacent _ _ _ _ _ _ _ _ _ _ _ Hc) as Ea.
    destruct (Hadj bx sx p csize) as [[]|[]]; [| |exact Ea].
    - rewrite <- app_assoc. apply in_or_app. right. left. reflexivity.
    - rewrite <- app_assoc. apply in_or_app. right. right. left. reflexivity. }
  subst pre. cbn [app total_size fold_right] in *.
  unfold split_block in E, Hc1, Hin.
  destruct (2 * DSIZE <=? csize - asize).
  - assert (sz1 = asize).
    { eapply chain_unique_size; [exact Hc1|exact Hin|].
      apply in_or_app. right. left. reflexivity. }
    subst sz1. cbn [app] in E, Hc1.
    destruct (chain_split_unique _ _ _ _ _ _ _ _ Hc1 E) as [-> ER].
    destruct post as [|y post'].
    + exfalso. cbn [app] in ER. subst R'. cbn [total_size fold_right] in Hadj2.
      destruct (Hadj2 (p - 0) (0 + asize + 0) (p + asize) (csize - asize))
        as [[]|[]]; [| |lia].
      * apply in_or_app. right. left. reflexivity.
      * apply in_or_app. right. right. left. reflexivity.
    + destruct post' as [|? ?]; [|cbn [length] in Hpost; lia].
      cbn [app] in ER. inversion ER; subst.
      cbn [total_size fold_right fst snd].
      repeat f_equal; lia.
  - assert (sz1 = csize).
    { eapply chain_unique_size; [exact Hc1|exact Hin|].
      apply in_or_app. right. left. reflexivity. }
    subst sz1. cbn [app] in E, Hc1.
    destruct (chain_split_unique _ _ _ _ _ _ _ _ Hc1 E) as [-> ER].
    destruct post as [|[[by0 sy] ay] post'].
    + cbn [app] in ER. subst R'. cbn [total_size fold_right].
      repeat f_equal; lia.
    + exfalso.
      assert (ay = false) by (apply (Hfree (by0, sy, ay)); left; reflexivity).
      subst ay. cbn [app] in ER. subst R.
      pose proof (chain_adjacent _ _ _ _ _ _ _ _ _ _ _ Hc) as Ea.
      destruct (Hadj p csize by0 sy) as [[]|[]]; [| |exact Ea].
      * apply in_or_app. right. left. reflexivity.
      * apply in_or_app. right. right. left. reflexivity.
Qed.

(** X14.  On a well-formed heap, [mm_malloc] of [n] bytes, for [0 < n] and
    [n + 40 <= 2 ^ 64], followed by [mm_free] of the block it returned,
    when the allocation did not move the break: the heap has the same
    blocks as before the two calls (the block that was split is whole
    again), it is well formed, the globals are as before and no word of an
    allocated block has changed.  Only the order of the free lists may
    differ. *)
Theorem malloc_free_round_trip st bs fl n fuel p st1 :
  inv st bs fl [] -> 0 < n -> n + 40 <= 2 ^ 64 ->
  mm_malloc fuel n st = Ok (p, st1) -> p <> NULL ->
  mem_brk st1 = mem_brk st ->
  exists st2 fl2,
    mm_free p st1 = Ok (tt, st2)
    /\ inv st2 bs fl2 []
    /\ same_globals st st2
    /\ forall b s a, In (b, s, true) bs -> b - WSIZE <= a < b + s - WSIZE ->
         mem st2 a = mem st a.
Proof.
  intros Hinv Hn Hhi E Hp Hbrk.
  assert (W : wpg false (mm_malloc fuel n)
                (fun p st1 =>
                   p <> NULL -> mem_brk st1 = mem_brk st ->
                   exists bs1 fl1 sz1 csize,
                     inv st1 bs1 fl1 [] /\ In (p, sz1, true) bs1
                     /\ placed bs p csize (adjust n) bs1
                     /\ (forall s, ~ In (p, s, true) bs)
                     /\ same_arena st st1
                     /\ forall x, keeps_alloc st bs st1 bs1 x) st).
  { apply (wpg_mm_malloc_exact false st bs fl n fuel); try assumption.
    - intros Ht. discriminate Ht.
    - intros _ _ H. contradiction.
    - intros s bs' fl' q sz Hinv' Ha Hin _ Hnew Hmb Hk _ Hb.
      destruct Hmb as [(_ & _ & csize & _ & Hpl)|(_ & Hb' & _)].
      + exists bs', fl', sz, csize. auto 10.
      + destruct (chunk_size_facts n Hn Hhi) as (_ & C1 & _). lia. }
  destruct (wpg_Ok _ _ _ _ _ _ W E Hp Hbrk)
    as (bs1 & fl1 & sz1 & csize & Hinv1 & Hin1 & Hpl & Hnew & Ha & Hk).
  assert (W2 : wp (mm_free p)
                 (fun _ st2 => exists fl2,
                    inv st2 bs fl2 []
                    /\ same_globals st st2
                    /\ forall b s a, In (b, s, true) bs ->
                         b - WSIZE <= a < b + s - WSIZE ->
                         mem st2 a = mem st a) st1).
  { eapply wp_mm_free_exact; [exact Hinv1|exact Hin1|].
    intros st2 bs2 fl2 Hinv2 Hg _ (bp' & sz' & _ & Hm) Hk2.
    assert (Ebs : bs2 = bs).
    { eapply placed_merged_restores;
        [apply (ok_chain _ _ (proj1 Hinv))|apply (ok_chain _ _ (proj1 Hinv1))
        |apply Hinv|apply Hinv2|exact Hpl|exact Hin1|exact Hm]. }
    subst bs2. exists fl2. split; [exact Hinv2|]. split.
    - destruct Ha as (A1 & A2 & A3 & A4 & A5 & A6).
      destruct Hg as (G1 & G2 & G3 & G4 & G5 & G6).
      unfold same_globals. repeat split; congruence.
    - intros b s a Hb Ha'.
      assert (Hne : b <> p) by (intros ->; exact (Hnew s Hb)).
      destruct (Hk p b s Hb Hne) as [Hb1 Hm1].
      destruct (Hk2 b s Hb1 Hne) as [_ Hm2].
      rewrite Hm2, Hm1 by exact Ha'. reflexivity. }
  apply wp_Ok in W2. destruct W2 as ([] & st2 & E2 & fl2 & W2).
  exists st2, fl2. split; [exact E2|exact W2].
Qed.

Lemma malloc_free_round_trip_witness :
  exists st2 fl2,
    mm_free 65800 (state_after [OInit; OMalloc 1] fresh) = Ok (tt, st2)
    /\ inv st2 [(65800, 4096, false)] fl2 []
    /\ same_globals (state_after [OInit] fresh) st2
    /\ forall b s a, In (b, s, true) [(65800, 4096, false)] ->
         b - WSIZE <= a < b + s - WSIZE ->
         mem st2 a = mem (state_after [OInit] fresh) a.
Proof.
  apply (malloc_free_round_trip (state_after [OInit] fresh)
           [(65800, 4096, false)] lists_after_init 1 100 65800
           (state_after [OInit; OMalloc 1] fresh)).
  - exact inv_after_init.
  - reflexivity.
  - vm_compute. discriminate.
  - vm_compute. reflexivity.
  - discriminate.
  - vm_compute. reflexivity.
Defined.

(** X15.  [mm_realloc] with size 0 on an allocated block of a well-formed
    heap does what [mm_free] does and returns [NULL]: the heap is well
    formed, the address is no longer allocated, and no word of another
    allocated block has changed. *)
Theorem realloc_zero_frees st bs fl ptr sz fuel :
  inv st bs fl [] -> In (ptr, sz, true) bs ->
  exists st',
    mm_realloc fuel ptr 0 st = Ok (NULL, st')
    /\ mm_free ptr st = Ok (tt, st')
    /\ exists bs' fl',
         inv st' bs' fl' []
         /\ (forall s, ~ In (ptr, s, true) bs')
         /\ keeps_alloc st bs st' bs' ptr.
Proof.
  intros Hinv Hin.
  assert (EG : GET_SIZE (HDRP ptr) st = Ok (sz, st)).
  { apply allocated_GET_SIZE. exists bs, fl. auto. }
  assert (W : wp (mm_free ptr)
                (fun _ st' => exists bs' fl',
                   inv st' bs' fl' []
                   /\ (forall s, ~ In (ptr, s, true) bs')
                   /\ keeps_alloc st bs st' bs' ptr) st).
  { eapply wp_mm_free_exact; [exact Hinv|exact Hin|].
    intros st' bs' fl' Hinv' _ Hnot _ Hk. exists bs', fl'. auto. }
  apply wp_Ok in W. destruct W as ([] & st' & E & W).
  exists st'. split; [|split; [exact E|exact W]].
  unfold mm_realloc, bind. rewrite EG. cbn [Z.eqb]. rewrite E. reflexivity.
Qed.

Lemma realloc_zero_frees_witness :
  exists st',
    mm_realloc 100 65800 0 (state_after [OInit; OMalloc 1; OMalloc 1] fresh)
    = Ok (NULL, st')
    /\ mm_free 65800 (state_after [OInit; OMalloc 1; OMalloc 1] fresh)
       = Ok (tt, st')
    /\ exists bs' fl',
         inv st' bs' fl' []
         /\ (forall s, ~ In (65800, s, true) bs')
         /\ keeps_alloc (state_after [OInit; OMalloc 1; OMalloc 1] fresh)
              [(65800, 32, true); (65832, 32, true); (65864, 4032, false)]
              st' bs' 65800.
Proof.
  apply (realloc_zero_frees (state_after [OInit; OMalloc 1; OMalloc 1] fresh)
           [(65800, 32, true); (65832, 32, true); (65864, 4032, false)]
           lists_after_two 65800 32 100).
  - exact inv_after_two.
  - left. reflexivity.
Defined.

(** X16.  On a well-formed heap, [mm_realloc] of an allocated block to [n]
    bytes, for [0 < n] and [2 * n + 40 <= 2 ^ 64], when it has to move the
    block (the adjusted size of the request exceeds the size of the block):
    it returns (with fuel above the number of blocks) and leaves every
    other allocated block allocated, at its address and with all its words
    as before; the heap stays well formed.  When it fails the state is as
    before. *)
Theorem realloc_grow_keeps_others st bs fl ptr n oldsize fuel :
  inv st bs fl [] -> In (ptr, oldsize, true) bs ->
  0 < n -> 2 * n + 40 <= 2 ^ 64 -> oldsize < adjust n ->
  (length bs < fuel)%nat ->
  exists p st',
    mm_realloc fuel ptr n st = Ok (p, st')
    /\ ((p = NULL /\ st' = st)
        \/ (p <> NULL
            /\ exists bs' fl',
                 inv st' bs' fl' []
                 /\ forall b s, In (b, s, true) bs -> b <> ptr ->
                      In (b, s, true) bs'
                      /\ forall a, b - WSIZE <= a < b + s - WSIZE ->
                           mem st' a = mem st a)).
Proof.
  intros Hinv Hin Hn Hhi Hgrow Hfuel.
  assert (W : wpg true (mm_realloc fuel ptr n)
                (fun p st' =>
                   (p = NULL /\ st' = st)
                   \/ (p <> NULL
                       /\ exists bs' fl',
                            inv st' bs' fl' []
                            /\ forall b s, In (b, s, true) bs -> b <> ptr ->
                                 In (b, s, true) bs'
                                 /\ forall a, b - WSIZE <= a < b + s - WSIZE ->
                                      mem st' a = mem st a)) st).
  { apply (wpg_mm_realloc_grow true st bs fl ptr n oldsize fuel); try assumption.
    - intros _. exact Hfuel.
    - left. auto.
    - intros st' bs' fl' p sz Hinv' _ Hin' _ _ _ _ Hk. right.
      pose proof (block_facts _ _ _ _ _ (proj1 Hinv') Hin') as F.
      pose proof (heap_ok_bounds _ _ (proj1 Hinv')) as Hb.
      split; [unfold NULL; lia|]. exists bs', fl'. auto. }
  apply wpg_wp, wp_Ok in W. destruct W as (p & st' & E & W).
  exists p, st'. split; [exact E|exact W].
Qed.

Lemma realloc_grow_keeps_others_witness :
  exists p st',
    mm_realloc 100 65800 100 (state_after [OInit; OMalloc 1; OMalloc 1] fresh)
    = Ok (p, st')
    /\ ((p = NULL /\ st' = state_after [OInit; OMalloc 1; OMalloc 1] fresh)
        \/ (p <> NULL
            /\ exists bs' fl',
                 inv st' bs' fl' []
                 /\ forall b s,
                      In (b, s, true)
                        [(65800, 32, true); (65832, 32, true); (65864, 4032, false)] ->
                      b <> 65800 ->
                      In (b, s, true) bs'
                      /\ forall a, b - WSIZE <= a < b + s - WSIZE ->
                           mem st' a
                           = mem (state_after [OInit; OMalloc 1; OMalloc 1] fresh) a)).
Proof.
  apply (realloc_grow_keeps_others
           (state_after [OInit; OMalloc 1; OMalloc 1] fresh)
           [(65800, 32, true); (65832, 32, true); (65864, 4032, false)]
           lists_after_two 65800 100 32 100).
  - exact inv_after_two.
  - left. reflexivity.
  - reflexivity.
  - vm_compute. discriminate.
  - vm_compute. reflexivity.
  - cbn [length]. lia.
Defined.

(** X17.  [find_fit] on a well-formed heap returns and changes nothing.
    Its result is a free block whose size is at least the request and whose
    class is not below the class at which the search starts (the class
    after the class of the request, or the last class); it is [NULL] only
    when no free block of these classes is large enough. *)
Theorem find_fit_finds_large_enough st bs fl asize fuel :
  inv st bs fl [] -> (length bs < fuel)%nat ->
  exists r,
    find_fit fuel asize st = Ok (r, st)
    /\ ((r = NULL
         /\ forall b sz, In (b, sz, false) bs ->
              first_bucket 15 (classof asize) <= classof sz -> sz < asize)
        \/ (r <> NULL
            /\ exists sz, In (r, sz, false) bs /\ asize <= sz
                 /\ first_bucket 15 (classof asize) <= classof sz)).
Proof.
  intros Hinv Hfuel. pose proof Hinv as (Hok & Hl & _).
  pose proof (ok_MAX_SIZE _ _ Hok) as HM.
  pose proof (heap_ok_bounds _ _ Hok) as Hb.
  pose proof (first_bucket_range _ (classof_range asize)) as Hfb.
  assert (Hsize : forall b sz, In (b, sz, false) bs -> hdr_size st b = sz).
  { intros b sz B.
    pose proof (block_facts _ _ _ _ _ Hok B) as (F1 & F2 & F3 & F4 & F5 & F6 & F7).
    unfold hdr_size, HDRP. consts.
    rewrite (wrap_small (b - 8)) by lia.
    rewrite F6, size_of_PACK by lia. reflexivity. }
  assert (W : wpg true (find_fit fuel asize)
                (fun r st' =>
                   st' = st
                   /\ r = match first_fit st asize
                                  (flat_map fl
                                     (indices (Z.to_nat (MAX_SIZE st
                                          - first_bucket (MAX_SIZE st) (classof asize)))
                                        (first_bucket (MAX_SIZE st) (classof asize)))) with
                          | Some b => b
                          | None => NULL
                          end) st).
  { apply (find_fit_first_fit true st asize fl fuel).
    rewrite HM. intros j Hj. apply indices_In in Hj.
    assert (Hj' : 0 <= j < 15) by lia.
    split; [apply (ok_ring _ _ _ _ Hl); exact Hj'|].
    split; [eapply bucket_readable; eassumption|].
    intros _. pose proof (bucket_length _ _ _ _ j Hinv Hj'). lia. }
  apply wpg_wp, wp_Ok in W. destruct W as (r & st' & E & -> & Hr).
  rewrite HM in Hr. exists r. split; [exact E|].
  destruct (first_fit _ _ _) as [x|] eqn:Ef.
  - right. subst r. unfold first_fit in Ef. apply find_some in Ef as [Hin Hsz].
    apply in_flat_map in Hin as (j & Hj & Hin). apply indices_In in Hj.
    assert (Hj' : 0 <= j < 15) by lia.
    destruct (ok_member _ _ _ _ Hl j x Hj' Hin) as (sz & B & Hc & _).
    pose proof (block_facts _ _ _ _ _ Hok B) as F.
    split; [unfold NULL; lia|]. exists sz. split; [exact B|].
    rewrite (Hsize _ _ B) in Hsz. apply Z.leb_le in Hsz. split; [exact Hsz|lia].
  - left. split; [exact Hr|]. intros b sz B Hc.
    pose proof (classof_range sz) as Hcr.
    pose proof (ok_linked _ _ _ _ Hl b sz B (fun H => H)) as Hin.
    unfold first_fit in Ef.
    assert (Hx : In b (flat_map fl
                         (indices (Z.to_nat (15 - first_bucket 15 (classof asize)))
                            (first_bucket 15 (classof asize))))).
    { apply in_flat_map. exists (classof sz). split; [|exact Hin].
      apply In_indices. lia. }
    pose proof (find_none _ _ Ef b Hx) as Hlt. cbv beta in Hlt.
    rewrite (Hsize _ _ B) in Hlt. apply Z.leb_gt in Hlt. exact Hlt.
Qed.

Lemma find_fit_finds_large_enough_witness :
  exists r,
    find_fit 2 32 (state_after [OInit] fresh) = Ok (r, state_after [OInit] fresh)
    /\ ((r = NULL
         /\ forall b sz, In (b, sz, false) [(65800, 4096, false)] ->
              first_bucket 15 (classof 32) <= classof sz -> sz < 32)
        \/ (r <> NULL
            /\ exists sz, In (r, sz, false) [(65800, 4096, false)] /\ 32 <= sz
                 /\ first_bucket 15 (classof 32) <= classof sz)).
Proof.
  apply (find_fit_finds_large_enough (state_after [OInit] fresh)
           [(65800, 4096, false)] lists_after_init 32 2).
  - exact inv_after_init.
  - cbn [length]. lia.
Defined.

(** X18.  After [mm_free] of an allocated block of a well-formed heap, a
    scan of the heap from the first block to the epilogue, by the sizes in
    the headers, meets no two free blocks next to each other. *)
Theorem free_leaves_no_adjacent_free st bs fl ptr sz fuel :
  inv st bs fl [] -> In (ptr, sz, true) bs -> (length bs < fuel)%nat ->
  exists st' l,
    mm_free ptr st = Ok (tt, st')
    /\ scan_heap (S fuel) st' = Ok (l, st')
    /\ adjacent_free l = false.
Proof.
  intros Hinv Hin Hfuel.
  assert (W : wp (mm_free ptr)
                (fun _ st' => exists l,
                   scan_heap (S fuel) st' = Ok (l, st')
                   /\ adjacent_free l = false) st).
  { eapply wp_mm_free_exact; [exact Hinv|exact Hin|].
    intros st' bs' fl' Hinv' _ _ (bp' & sz' & _ & Hm) _.
    apply (wf_scan_no_adjacent_free st' bs' fl' fuel Hinv').
    apply merged_length in Hm. lia. }
  apply wp_Ok in W. destruct W as ([] & st' & E & l & W).
  exists st', l. split; [exact E|exact W].
Qed.

Lemma free_leaves_no_adjacent_free_witness :
  exists st' l,
    mm_free 65832 (state_after [OInit; OMalloc 1; OMalloc 1] fresh) = Ok (tt, st')
    /\ scan_heap (S 5) st' = Ok (l, st')
    /\ adjacent_free l = false.
Proof.
  apply (free_leaves_no_adjacent_free
           (state_after [OInit; OMalloc 1; OMalloc 1] fresh)
           [(65800, 32, true); (65832, 32, true); (65864, 4032, false)]
           lists_after_two 65832 32 5).
  - exact inv_after_two.
  - right. left. reflexivity.
  - cbn [length]. lia.
Defined.

(** ** What the checker prints on a well-formed heap *)

Lemma silent_app t1 t2 : silent t1 -> silent t2 -> silent (t1 ++ t2).
Proof.
  intros H1 H2 d Hd. apply in_app_or in Hd as [Hd|Hd]; [exact (H1 d Hd)|exact (H2 d Hd)].
Qed.

Lemma silent_nil : silent [].
Proof. intros d []. Qed.

Lemma silent_read p : silent [EvRead p].
Proof. intros d [E|[]]. discriminate E. Qed.

Lemma cquiet_cbind {A B} (c : C A) (k : A -> C B) st a b :
  cquiet c st a -> cquiet (k a) st b -> cquiet (cbind c k) st b.
Proof.
  intros (t1 & H1 & S1) (t2 & H2 & S2). exists (t1 ++ t2).
  split; [eapply cbind_Ok_app; eassumption|apply silent_app; assumption].
Qed.

Lemma cquiet_cret {A} (a : A) st : cquiet (cret a) st a.
Proof. exists []. split; [reflexivity|apply silent_nil]. Qed.

Lemma cquiet_cGET st p : valid_addr st p = true -> cquiet (cGET p) st (mem st p).
Proof.
  intros H. exists [EvRead p]. split; [apply cGET_Ok; exact H|apply silent_read].
Qed.

Lemma cquiet_cGET_SIZE st p :
  valid_addr st p = true -> cquiet (cGET_SIZE p) st (size_of (mem st p)).
Proof.
  intros H. exists [EvRead p]. split; [apply cGET_SIZE_Ok; exact H|apply silent_read].
Qed.

Lemma cquiet_cGET_ALLOC st p :
  valid_addr st p = true -> cquiet (cGET_ALLOC p) st (Z.land (mem st p) 1).
Proof.
  intros H. exists [EvRead p]. split; [apply cGET_ALLOC_Ok; exact H|apply silent_read].
Qed.

Lemma cquiet_cwhen_false d st : cquiet (cwhen false (printf d)) st tt.
Proof. apply cquiet_cret. Qed.

(** [checkblock] prints nothing on a word-aligned block whose header and
    footer are equal. *)
Lemma cquiet_checkblock st bp sz al :
  0 < mem_start_brk st -> mem_max_addr st < 2 ^ 64 ->
  mem_start_brk st <= bp - 8 -> bp + sz <= mem_max_addr st ->
  bp mod 8 = 0 -> 16 <= sz -> sz mod 8 = 0 ->
  mem st (bp - 8) = PACK sz (b2z al) ->
  mem st (bp + sz - 16) = PACK sz (b2z al) ->
  cquiet (checkblock bp) st tt.
Proof.
  intros Hs Hm Hlo Hhi Hal Hsz Hmod Hh Hf.
  assert (Vh : valid_addr st (bp - 8) = true) by valid_tac.
  assert (Vf : valid_addr st (bp + sz - 16) = true) by valid_tac.
  unfold checkblock, cFTRP, HDRP. consts.
  rewrite (wrap_small (bp - 8)) by lia.
  rewrite Hal. cbn [Z.eqb negb].
  eapply cquiet_cbind; [apply cquiet_cwhen_false|].
  eapply cquiet_cbind; [apply cquiet_cGET; exact Vh|].
  eapply cquiet_cbind.
  { eapply cquiet_cbind; [apply cquiet_cGET_SIZE; exact Vh|].
    apply cquiet_cret. }
  rewrite Hh, size_of_PACK by lia.
  rewrite (wrap_small (bp + sz)) by lia.
  rewrite (wrap_small (bp + sz - 16)) by lia.
  eapply cquiet_cbind; [apply cquiet_cGET; exact Vf|].
  rewrite Hf, Z.eqb_refl. apply cquiet_cwhen_false.
Qed.

Lemma land_one_le w : Z.land w 1 <= 1.
Proof. change (Z.land w 1) with (alloc_of w). rewrite alloc_of_mod. zlia. Qed.

Section QuietWalk.

Variable pb : Z -> C unit.

Lemma quiet_walk_step st fuel bp sz al e :
  0 < mem_start_brk st -> mem_max_addr st < 2 ^ 64 ->
  mem_start_brk st <= bp - 8 -> bp + sz <= mem_max_addr st ->
  bp mod 8 = 0 -> 16 <= sz -> sz mod 8 = 0 ->
  mem st (bp - 8) = PACK sz (b2z al) ->
  mem st (bp + sz - 16) = PACK sz (b2z al) ->
  valid_addr st (heap_listp st) = true ->
  mem st (heap_listp st) = PACK DSIZE 1 ->
  cquiet (heap_walk pb fuel false (bp + sz)) st e ->
  cquiet (heap_walk pb (S fuel) false bp) st e.
Proof.
  intros Hs Hm Hlo Hhi Hal Hsz Hmod Hh Hf Vl Hpf Hrest.
  assert (Vh : valid_addr st (bp - 8) = true) by valid_tac.
  assert (Vb : valid_addr st bp = true) by valid_tac.
  cbn [heap_walk]. unfold HDRP at 1. consts.
  rewrite (wrap_small (bp - 8)) by lia.
  eapply cquiet_cbind; [apply cquiet_cGET_SIZE; exact Vh|].
  rewrite Hh, size_of_PACK by lia.
  replace (sz >? 0) with true by (symmetry; apply Z.gtb_lt; lia).
  eapply cquiet_cbind; [apply cquiet_cret|].
  eapply cquiet_cbind;
    [eapply (cquiet_checkblock st bp sz al); eassumption|].
  eapply cquiet_cbind; [apply cquiet_cGET_ALLOC; exact Vb|].
  eapply cquiet_cbind; [apply cquiet_cGET_SIZE; exact Vl|].
  rewrite Hpf. change (size_of (PACK 16 1)) with 16.
  replace (Z.land (mem st bp) 1 >? 16) with false.
  2:{ symmetry. rewrite Z.gtb_ltb. apply Z.ltb_ge.
      pose proof (land_one_le (mem st bp)). lia. }
  eapply cquiet_cbind; [apply cquiet_cwhen_false|].
  eapply cquiet_cbind.
  { unfold cNEXT_BLKP. consts. rewrite (wrap_small (bp - 8)) by lia.
    eapply cquiet_cbind; [apply cquiet_cGET_SIZE; exact Vh|].
    apply cquiet_cret. }
  rewrite Hh, size_of_PACK by lia.
  rewrite (wrap_small (bp + sz)) by lia. exact Hrest.
Qed.

Lemma quiet_walk_chain st e bs : forall s fuel,
  0 < mem_start_brk st -> mem_max_addr st < 2 ^ 64 ->
  mem_start_brk st <= s - 8 -> e <= mem_max_addr st -> s mod 8 = 0 ->
  valid_addr st (heap_listp st) = true ->
  mem st (heap_listp st) = PACK DSIZE 1 ->
  chain (mem st) s bs e -> mem st (e - 8) = PACK 0 1 ->
  (length bs < fuel)%nat ->
  cquiet (heap_walk pb fuel false s) st e.
Proof.
  induction bs as [|[[b sz] al] bs IH];
    intros s fuel Hs Hm Hlo Hhi Hal Vl Hpf Hc He Hf; cbn [chain] in Hc.
  - subst s. destruct fuel as [|fuel]; [cbn in Hf; lia|].
    cbn [heap_walk]. unfold HDRP. consts.
    rewrite (wrap_small (e - 8)) by lia.
    eapply cquiet_cbind;
      [apply cquiet_cGET_SIZE; apply valid_addr_intro; lia|].
    rewrite He. change (size_of (PACK 0 1)) with 0. cbn. apply cquiet_cret.
  - destruct Hc as (-> & H1 & H2 & H3 & H4 & H5). consts.
    pose proof (chain_le _ _ _ _ H5) as Hle.
    destruct fuel as [|fuel]; [cbn in Hf; lia|].
    eapply (quiet_walk_step st fuel s sz al); try eassumption; try lia.
    apply IH; try assumption; try lia; try zlia.
    cbn in Hf. lia.
Qed.

End QuietWalk.

Lemma lists_events_prints st bp fl n i d :
  In (EvPrint d) (lists_events st bp fl n i) ->
  truthy (Z.land (mem st bp) 1) = true
  /\ exists j b, In j (indices n i) /\ In b (fl j) /\ d = DAllocatedInFreeList b.
Proof.
  unfold lists_events. intros H. apply in_flat_map in H as (j & Hj & H).
  destruct H as [E|H]; [discriminate E|].
  unfold list_events in H. apply in_flat_map in H as (b & Hb & H).
  destruct H as [E|H]; [discriminate E|].
  apply in_app_or in H as [H|[E|[]]]; [|discriminate E].
  destruct (truthy (Z.land (mem st bp) 1)); [|destruct H].
  destruct H as [E|[]]. inversion E. split; [reflexivity|].
  exists j, b. auto.
Qed.

(** X19.  [checkheap] in quiet mode on a well-formed heap that does not end
    at the end of the arena returns, and none of its checks of the prologue,
    of the blocks and of the epilogue prints a message.  The only message it
    can print is the one of the free-list loop, for a member of a free list,
    and it prints it only when the word after the epilogue header, which is
    not part of the heap, is odd. *)
Theorem checkheap_quiet_on_wf st bs fl fuel :
  inv st bs fl [] -> mem_brk st + WSIZE <= mem_max_addr st ->
  (length bs < fuel)%nat ->
  exists t,
    checkheap (S (S fuel)) false st = Ok (tt, t)
    /\ forall d, In (EvPrint d) t ->
         Z.land (mem st (mem_brk st)) 1 <> 0
         /\ exists i b, 0 <= i < 15 /\ In b (fl i)
                        /\ d = DAllocatedInFreeList b.
Proof.
  intros Hinv Hroom Hfuel. pose proof Hinv as (Hok & Hl & _).
  pose proof (heap_ok_bounds _ _ Hok) as Hb.
  pose proof (ok_prologue_hdr _ _ Hok) as Hph.
  pose proof (ok_prologue_ftr _ _ Hok) as Hpf.
  pose proof (ok_epilogue _ _ Hok) as Hep.
  pose proof (ok_MAX_SIZE _ _ Hok) as HM.
  consts.
  assert (Vl : valid_addr st (heap_listp st) = true) by valid_tac.
  assert (Vb : valid_addr st (mem_brk st) = true) by valid_tac.
  assert (Hpf' : mem st (heap_listp st + 16 - 16) = PACK 16 (b2z true)).
  { replace (heap_listp st + 16 - 16) with (heap_listp st) by lia. exact Hpf. }
  assert (Hwalk : forall pb,
            cquiet (heap_walk pb (S fuel) false (heap_listp st)) st (mem_brk st)).
  { intros pb.
    eapply (quiet_walk_step pb st fuel (heap_listp st) 16 true);
      [lia|lia|lia|lia|lia|lia|reflexivity|exact Hph|exact Hpf'|exact Vl|exact Hpf|].
    eapply (quiet_walk_chain pb st (mem_brk st) bs);
      [lia|lia|lia|lia|zlia|exact Vl|exact Hpf|apply (ok_chain _ _ Hok)
      |exact Hep|exact Hfuel]. }
  assert (Hlists : check_lists (S fuel) 15 (mem_brk st) 0 st
                   = Ok (tt, lists_events st (mem_brk st) fl 15 0)).
  { apply check_lists_events; [|exact Vb].
    intros j Hj. apply indices_In in Hj.
    split; [apply (ok_ring _ _ _ _ Hl); lia|].
    split; [eapply bucket_readable; [exact Hinv|lia]|].
    pose proof (bucket_length _ _ _ _ j Hinv). lia. }
  change (checkheap (S (S fuel)) false st)
    with (checkheap_body (printblock_body (checkheap (S fuel))) (S fuel) false st).
  unfold checkheap_body. rewrite HM.
  change (Z.to_nat 15) with 15%nat.
  assert (Hpro : cquiet (check_prologue false) st tt).
  { unfold check_prologue. red. cbv beta.
    match goal with
    | |- exists t, ?c st = Ok (?a, t) /\ silent t => change (cquiet c st a)
    end.
    unfold HDRP. consts.
    rewrite (wrap_small (heap_listp st - 8)) by lia.
    assert (Vh : valid_addr st (heap_listp st - 8) = true) by valid_tac.
    eapply cquiet_cbind; [apply cquiet_cret|].
    eapply cquiet_cbind; [apply cquiet_cGET_SIZE; exact Vh|].
    rewrite Hph. change (size_of (PACK 16 1)) with 16. cbn [Z.eqb Pos.eqb negb].
    eapply cquiet_cbind.
    { eapply cquiet_cbind; [apply cquiet_cGET_ALLOC; exact Vh|].
      apply cquiet_cret. }
    rewrite Hph. change (negb (truthy (Z.land (PACK 16 1) 1))) with false.
    eapply cquiet_cbind; [apply cquiet_cwhen_false|].
    eapply (cquiet_checkblock st (heap_listp st) 16 true);
      [lia|lia|lia|lia|lia|lia|reflexivity|exact Hph|exact Hpf']. }
  assert (Hepi : cquiet (check_epilogue (mem_brk st)) st tt).
  { unfold check_epilogue, HDRP. consts.
    rewrite (wrap_small (mem_brk st - 8)) by lia.
    assert (Ve : valid_addr st (mem_brk st - 8) = true) by valid_tac.
    eapply cquiet_cbind; [apply cquiet_cGET_SIZE; exact Ve|].
    rewrite Hep. change (size_of (PACK 0 1)) with 0. cbn [Z.eqb negb].
    eapply cquiet_cbind.
    { eapply cquiet_cbind; [apply cquiet_cGET_ALLOC; exact Ve|].
      apply cquiet_cret. }
    rewrite Hep. change (negb (truthy (Z.land (PACK 0 1) 1))) with false.
    apply cquiet_cwhen_false. }
  destruct Hpro as (t1 & E1 & S1).
  destruct (Hwalk (printblock_body (checkheap (S fuel)))) as (t2 & E2 & S2).
  destruct Hepi as (t3 & E3 & S3).
  exists (t1 ++ t2 ++ [] ++ t3 ++ lists_events st (mem_brk st) fl 15 0).
  split.
  - rewrite (cbind_eq_Ok _ _ _ _ _ E1).
    rewrite (cbind_eq_Ok _ _ _ _ _ E2).
    cbn [cwhen].
    rewrite (cbind_eq_Ok (cret tt) _ st tt [] eq_refl).
    rewrite (cbind_eq_Ok _ _ _ _ _ E3).
    rewrite Hlists. reflexivity.
  - intros d Hd.
    apply in_app_or in Hd as [Hd|Hd]; [destruct (S1 d Hd)|].
    apply in_app_or in Hd as [Hd|Hd]; [destruct (S2 d Hd)|].
    cbn [app] in Hd.
    apply in_app_or in Hd as [Hd|Hd]; [destruct (S3 d Hd)|].
    apply lists_events_prints in Hd as (Ht & j & b & Hj & Hb' & ->).
    apply indices_In in Hj. split.
    + unfold truthy in Ht. apply negb_true_iff in Ht. apply Z.eqb_neq in Ht.
      exact Ht.
    + exists j, b. split; [lia|]. auto.
Qed.

Lemma checkheap_quiet_on_wf_witness :
  exists t,
    checkheap (S (S 5)) false (state_after [OInit] fresh) = Ok (tt, t)
    /\ forall d, In (EvPrint d) t ->
         Z.land (mem (state_after [OInit] fresh)
                   (mem_brk (state_after [OInit] fresh))) 1 <> 0
         /\ exists i b, 0 <= i < 15 /\ In b (lists_after_init i)
                        /\ d = DAllocatedInFreeList b.
Proof.
  apply (checkheap_quiet_on_wf (state_after [OInit] fresh)
           [(65800, 4096, false)] lists_after_init 5).
  - exact inv_after_init.
  - vm_compute. discriminate.
  - cbn [length]. lia.
Defined.
